(** * The terminal Monitor of [s_canonize.py]

    A shallow embedding of class [Monitor] (src/lib/url_sources/s_canonize.py):
    the prioritised task queue, the worker lifecycle wrapper, the checkpoint
    [maybe_pause_or_stop], the banner layout and the output thread's loop,
    followed by the properties proved about them. *)

From Stdlib Require Import ZArith Ascii String Permutation.
From stdpp Require Import gmap strings list sorting pretty.

Local Open Scope Z_scope.

(** ** Python values *)

(** A Python [str] is a sequence of code points. *)
Abbreviation pystr := (list N).

(** A [str] literal. *)
Definition str (s : string) : pystr := N_of_ascii <$> list_ascii_of_string s.
Global Arguments str : simpl never.

(** [len(s)] *)
Definition len {A} (s : list A) : Z := Z.of_nat (length s).

(** A slice bound as Python normalises it against a sequence of length [n]:
    a negative bound counts from the end, and both ends are clamped. *)
Definition slice_bound (n i : Z) : Z :=
  if i <? 0 then Z.max (i + n) 0 else Z.min i n.

(** [s[a:]] *)
Definition slice_from {A} (s : list A) (a : Z) : list A :=
  drop (Z.to_nat (slice_bound (len s) a)) s.

(** [s[:b]] *)
Definition slice_to {A} (s : list A) (b : Z) : list A :=
  take (Z.to_nat (slice_bound (len s) b)) s.

(** [s * k]: a non-positive count gives the empty string. *)
Definition str_mul (s : pystr) (k : Z) : pystr :=
  mjoin (replicate (Z.to_nat k) s).

(** ** Banner layout *)

Module Banner.

(** [Monitor._compute_banner_internal], as a function of the three fields it
    reads: [self._banner], [self._addmsg] and [self._max_x]. *)
Definition _compute_banner_internal (banner addmsg : pystr) (w : Z) : pystr :=
  let msg := if decide (banner = str "") then addmsg else str ". " ++ addmsg in
  let n := len msg in
  if decide (n > w) then slice_from msg (n - w)
  else
    let after_banner : pystr + (pystr * Z) :=
      if decide (banner ≠ str "") then
        let n := len banner + len msg in
        if decide (n > w) then
          let shortfall := n - w in
          if decide (len banner <= 2) then
            inl (slice_to banner (- shortfall) ++ msg)
          else if decide (w - len msg <= 2) then
            inl (str_mul (str ".") (w - len msg) ++ msg)
          else
            let shortfall := shortfall + 2 in
            inl (slice_to banner (- shortfall) ++ str ".." ++ msg)
        else inr (banner ++ msg, n)
      else inr (msg, n) in
    match after_banner with
    | inl early => early
    | inr (msg, n) =>
        let space := w - n in
        if decide (space = 0) then msg
        else if decide (space `mod` 2 = 0) then
          let pad := str_mul (str " ") (space `div` 2) in
          pad ++ msg ++ pad
        else
          let pad1 := str_mul (str " ") (space `div` 2) in
          let pad2 := pad1 ++ str " " in
          pad1 ++ msg ++ pad2
    end.

(** The text that follows the title: the fixed help text, prefixed with a
    separator when the title is not empty. *)
Definition help_text (banner addmsg : pystr) : pystr :=
  if decide (banner = []) then addmsg else str ". " ++ addmsg.

(** *** The layout as the design document words it *)

(** The rightmost [k] characters of [s]. *)
Definition rightmost (k : Z) (s : pystr) : pystr :=
  drop (length s - Z.to_nat k)%nat s.

(** [s] without its last [k] characters. *)
Definition right_truncate (k : Z) (s : pystr) : pystr :=
  take (length s - Z.to_nat k)%nat s.

Definition dots (k : Z) : pystr := replicate (Z.to_nat k) (N_of_ascii ".").
Definition spaces (k : nat) : pystr := replicate k (N_of_ascii " ").

(** [s] centred in [W] columns, the smaller half of the padding on the left. *)
Definition centered (W : Z) (s : pystr) : pystr :=
  let total := (Z.to_nat W - length s)%nat in
  let left := Nat.div2 total in
  spaces left ++ s ++ spaces (total - left)%nat.

Definition banner_layout (W : Z) (T H : pystr) : pystr :=
  if decide (len H > W) then rightmost W H
  else if decide (len T + len H > W) then
    let shortfall := len T + len H - W in
    if decide (len T <= 2) then right_truncate shortfall T ++ H
    else if decide (W - len H <= 2) then dots (W - len H) ++ H
    else right_truncate (shortfall + 2) T ++ str ".." ++ H
  else centered W (T ++ H).

End Banner.

(** ** Tasks and the output thread's work queue *)

(** The tuples put on [self._tasks]: [(_STATUS, idx, text)], [(_REDRAW,)],
    [(_SUSPEND, sig)], [(_EXIT, sig)] and [(_DONE, flag)]. *)
Inductive Task : Type :=
  | Status (idx : nat) (text : pystr)
  | Redraw
  | Suspend (sig : Z)
  | Exit (sig : Z)
  | Done (quiesced : bool).

Global Instance Task_eq_dec : EqDecision Task.
Proof. solve_decision. Defined.

(** Internal code numbers used for the output thread's work queue. Lower
    numbers are higher message priorities. *)
Definition _DONE : Z := 4.
Definition _STATUS : Z := 3.
Definition _REDRAW : Z := 2.
Definition _SUSPEND : Z := 1.
Definition _EXIT : Z := 0.

(** The first component of a task's tuple. *)
Definition code (t : Task) : Z :=
  match t with
  | Status _ _ => _STATUS
  | Redraw => _REDRAW
  | Suspend _ => _SUSPEND
  | Exit _ => _EXIT
  | Done _ => _DONE
  end.

(** Python compares [str] values code point by code point, a proper prefix
    being smaller. *)
Fixpoint str_compare (a b : pystr) : comparison :=
  match a, b with
  | [], [] => Eq
  | [], _ :: _ => Lt
  | _ :: _, [] => Gt
  | x :: a', y :: b' =>
      match N.compare x y with
      | Eq => str_compare a' b'
      | c => c
      end
  end.

(** [False < True] *)
Definition bool_compare (a b : bool) : comparison :=
  Z.compare (Z.b2z a) (Z.b2z b).

(** Tuples compare item by item, the first difference deciding:
    [queue.PriorityQueue] orders the tasks by code, and two tasks of one
    code by the rest of their tuples. *)
Definition task_compare (t u : Task) : comparison :=
  match Z.compare (code t) (code u) with
  | Eq =>
      match t, u with
      | Status i a, Status j b =>
          match Nat.compare i j with
          | Eq => str_compare a b
          | c => c
          end
      | Suspend s, Suspend s' => Z.compare s s'
      | Exit s, Exit s' => Z.compare s s'
      | Done a, Done b => bool_compare a b
      | _, _ => Eq
      end
  | c => c
  end.

Definition task_le (t u : Task) : Prop := task_compare t u ≠ Gt.
Definition task_lt (t u : Task) : Prop := task_compare t u = Lt.

(** The smaller of two tasks, the first one on a tie. *)
Definition task_min (t u : Task) : Task :=
  match task_compare u t with
  | Lt => u
  | _ => t
  end.

(** [l] without the first occurrence of [t]. *)
Fixpoint remove_first (t : Task) (l : list Task) : list Task :=
  match l with
  | [] => []
  | u :: l' => if decide (u = t) then l' else u :: remove_first t l'
  end.

Module PriorityQueue.

(** The content of a [queue.PriorityQueue]: the entries that were put and
    not yet retrieved. *)
Abbreviation t := (list Task).

Definition empty : t := [].

(** [q.put(item)] *)
Definition put (item : Task) (q : t) : t := q ++ [item].

(** [q.get()]: the lowest valued entry is retrieved and removed; on an empty
    queue the caller blocks, which is [None] here. *)
Definition get (q : t) : option (Task * t) :=
  match q with
  | [] => None
  | x :: q' =>
      let m := foldl task_min x q' in
      Some (m, remove_first m q)
  end.

(** The order in which [n] successive [get]s deliver the content of [q]. *)
Fixpoint drain (n : nat) (q : t) : list Task :=
  match n with
  | O => []
  | S n' =>
      match get q with
      | None => []
      | Some (x, q') => x :: drain n' q'
      end
  end.

End PriorityQueue.

(** ** Exceptions *)

Inductive exn : Type :=
  (** [SystemExit(code)]: a [BaseException] that is not an [Exception] *)
  | SystemExit (code : option Z)
  (** an instance of a class that inherits [Exception]: the class name,
      [str(e)] and the formatted traceback *)
  | PyException (type message tb : pystr)
  (** any other [BaseException] *)
  | PyBaseException (type message tb : pystr).

(** [isinstance(e, Exception)] *)
Definition is_Exception (e : exn) : bool :=
  match e with
  | PyException _ _ _ => true
  | _ => false
  end.

(** [str(z)] for an integer *)
Definition str_of_Z (z : Z) : pystr :=
  str (pretty z).

(** [type(e).__name__] *)
Definition type_name (e : exn) : pystr :=
  match e with
  | SystemExit _ => str "SystemExit"
  | PyException t _ _ | PyBaseException t _ _ => t
  end.

(** [str(e)] *)
Definition exn_str (e : exn) : pystr :=
  match e with
  | SystemExit None => str ""
  | SystemExit (Some c) => str_of_Z c
  | PyException _ s _ | PyBaseException _ s _ => s
  end.

(** The traceback part of [traceback.print_exception]. *)
Definition exn_tb (e : exn) : pystr :=
  match e with
  | SystemExit _ => str ""
  | PyException _ _ tb | PyBaseException _ _ tb => tb
  end.

Definition newline : pystr := [10%N].

(** [traceback.format_exception_only(type(e), e)[0]]: the class name, then
    the message when there is one, then a newline. *)
Definition format_exception_only_0 (e : exn) : pystr :=
  (if decide (exn_str e = str "") then type_name e
   else type_name e ++ str ": " ++ exn_str e) ++ newline.

Definition UnicodeEncodeError : exn :=
  PyException (str "UnicodeEncodeError") (str "codec can't encode character") [].
Definition IndexError : exn :=
  PyException (str "IndexError") (str "list index out of range") [].
Definition KeyError (key : pystr) : exn :=
  PyException (str "KeyError") key [].
Definition TypeError : exn :=
  PyException (str "TypeError") (str "unsupported operand type(s)") [].
Definition ValueError : exn :=
  PyException (str "ValueError") (str "signal number out of range") [].
Definition OSError : exn :=
  PyException (str "OSError") (str "[Errno 22] Invalid argument") [].

(** ** The Monitor object *)

Abbreviation bytes := (list Byte.byte).

Inductive attr : Type := A_NORMAL | A_BOLD | A_REVERSE.

Inductive handler : Type := SIG_DFL | dummy_signal_handler.

(** The signal numbers of Linux. *)
Module signal.
Definition SIGINT : Z := 2.
Definition SIGKILL : Z := 9.
Definition SIGTERM : Z := 15.
Definition SIGTSTP : Z := 20.
Definition SIGTTIN : Z := 21.
Definition SIGTTOU : Z := 22.
Definition SIGCHLD : Z := 17.
Definition SIGCONT : Z := 18.
Definition SIGSTOP : Z := 19.
Definition SIGURG : Z := 23.
Definition SIGWINCH : Z := 28.
Definition NSIG : Z := 65.

(** The default action of a signal ends the process, unless it stops
    or continues the process or is to ignore the signal. *)
Definition terminates (sig : Z) : bool :=
  negb (bool_decide (sig ∈ [SIGCHLD; SIGCONT; SIGSTOP; SIGTSTP; SIGTTIN;
                             SIGTTOU; SIGURG; SIGWINCH])).

(** The signals whose disposition can be changed: not [SIGKILL] and
    [SIGSTOP], which the kernel keeps, nor the two that the C library
    keeps for its threads. *)
Definition settable (sig : Z) : bool :=
  negb (bool_decide (sig ∈ [SIGKILL; SIGSTOP; 32; 33])).
End signal.

(** What the Monitor does to the world outside its own fields. *)
Inductive Effect : Type :=
  | initscr | noecho | nonl | cbreak | typeahead (fd : Z) | curs_set (v : Z)
  | endwin | resizeterm (height width : Z)
  | scr_clear | scr_refresh | scr_clrtoeol
  | scr_addstr (y x : Z) (s : bytes) (a : attr)
  | scr_addnstr (y x : Z) (s : bytes) (n : Z) (a : attr)
  | set_nonblocking (fd : Z)
  | signal_signal (sig : Z) (h : handler)
  | signal_siginterrupt (sig : Z) (flag : bool)
  | pthread_sigmask_unblock (sig : Z)
  | os_kill (pid sig : Z)
  | drain_input (fd : Z)
  | restore_wakeup_fd
  | os_close (fd : Z)
  | stderr_write (s : pystr).

Record Monitor : Type := mkMonitor {
  (** the codec named by [self._encoding]: [None] is a [UnicodeEncodeError] *)
  _encoding : pystr → option bytes;
  _pid : Z;
  _sigpipe : Z * Z;
  _tasks : PriorityQueue.t;
  (** [threading.Event] flags; both are active low *)
  _stop_event : bool;
  _pause_event : bool;
  _n_work_threads : Z;
  _active_work_threads : Z;
  _worker_exceptions : gmap pystr exn;
  _banner : pystr;
  (** [None] is Python's [None] *)
  _addmsg : option pystr;
  (** terminal-related state *)
  _lines : list bytes;
  _line_attrs : list attr;
  _line_indexes : gmap Z nat;
  _line_indexes_used : gset nat;
  _max_y : Z;
  _max_x : Z;
  (** the two local variables of [_output_thread_fn] *)
  old_addmsg : option pystr;
  exit_signal : Z;
  (** the calls made on curses, fcntl, signal, os and sys.stderr, oldest first *)
  calls : list Effect
}.

(** Field updates. *)
Definition set_tasks (f : PriorityQueue.t → PriorityQueue.t) (m : Monitor) : Monitor :=
  mkMonitor (_encoding m) (_pid m) (_sigpipe m) (f (_tasks m)) (_stop_event m) (_pause_event m) (_n_work_threads m) (_active_work_threads m) (_worker_exceptions m) (_banner m) (_addmsg m) (_lines m) (_line_attrs m) (_line_indexes m) (_line_indexes_used m) (_max_y m) (_max_x m) (old_addmsg m) (exit_signal m) (calls m).
Definition set_stop_event (f : bool → bool) (m : Monitor) : Monitor :=
  mkMonitor (_encoding m) (_pid m) (_sigpipe m) (_tasks m) (f (_stop_event m)) (_pause_event m) (_n_work_threads m) (_active_work_threads m) (_worker_exceptions m) (_banner m) (_addmsg m) (_lines m) (_line_attrs m) (_line_indexes m) (_line_indexes_used m) (_max_y m) (_max_x m) (old_addmsg m) (exit_signal m) (calls m).
Definition set_pause_event (f : bool → bool) (m : Monitor) : Monitor :=
  mkMonitor (_encoding m) (_pid m) (_sigpipe m) (_tasks m) (_stop_event m) (f (_pause_event m)) (_n_work_threads m) (_active_work_threads m) (_worker_exceptions m) (_banner m) (_addmsg m) (_lines m) (_line_attrs m) (_line_indexes m) (_line_indexes_used m) (_max_y m) (_max_x m) (old_addmsg m) (exit_signal m) (calls m).
Definition set_n_work_threads (f : Z → Z) (m : Monitor) : Monitor :=
  mkMonitor (_encoding m) (_pid m) (_sigpipe m) (_tasks m) (_stop_event m) (_pause_event m) (f (_n_work_threads m)) (_active_work_threads m) (_worker_exceptions m) (_banner m) (_addmsg m) (_lines m) (_line_attrs m) (_line_indexes m) (_line_indexes_used m) (_max_y m) (_max_x m) (old_addmsg m) (exit_signal m) (calls m).
Definition set_active_work_threads (f : Z → Z) (m : Monitor) : Monitor :=
  mkMonitor (_encoding m) (_pid m) (_sigpipe m) (_tasks m) (_stop_event m) (_pause_event m) (_n_work_threads m) (f (_active_work_threads m)) (_worker_exceptions m) (_banner m) (_addmsg m) (_lines m) (_line_attrs m) (_line_indexes m) (_line_indexes_used m) (_max_y m) (_max_x m) (old_addmsg m) (exit_signal m) (calls m).
Definition set_worker_exceptions (f : (gmap pystr exn) → (gmap pystr exn)) (m : Monitor) : Monitor :=
  mkMonitor (_encoding m) (_pid m) (_sigpipe m) (_tasks m) (_stop_event m) (_pause_event m) (_n_work_threads m) (_active_work_threads m) (f (_worker_exceptions m)) (_banner m) (_addmsg m) (_lines m) (_line_attrs m) (_line_indexes m) (_line_indexes_used m) (_max_y m) (_max_x m) (old_addmsg m) (exit_signal m) (calls m).
Definition set_addmsg (f : (option pystr) → (option pystr)) (m : Monitor) : Monitor :=
  mkMonitor (_encoding m) (_pid m) (_sigpipe m) (_tasks m) (_stop_event m) (_pause_event m) (_n_work_threads m) (_active_work_threads m) (_worker_exceptions m) (_banner m) (f (_addmsg m)) (_lines m) (_line_attrs m) (_line_indexes m) (_line_indexes_used m) (_max_y m) (_max_x m) (old_addmsg m) (exit_signal m) (calls m).
Definition set_lines (f : (list bytes) → (list bytes)) (m : Monitor) : Monitor :=
  mkMonitor (_encoding m) (_pid m) (_sigpipe m) (_tasks m) (_stop_event m) (_pause_event m) (_n_work_threads m) (_active_work_threads m) (_worker_exceptions m) (_banner m) (_addmsg m) (f (_lines m)) (_line_attrs m) (_line_indexes m) (_line_indexes_used m) (_max_y m) (_max_x m) (old_addmsg m) (exit_signal m) (calls m).
Definition set_line_attrs (f : (list attr) → (list attr)) (m : Monitor) : Monitor :=
  mkMonitor (_encoding m) (_pid m) (_sigpipe m) (_tasks m) (_stop_event m) (_pause_event m) (_n_work_threads m) (_active_work_threads m) (_worker_exceptions m) (_banner m) (_addmsg m) (_lines m) (f (_line_attrs m)) (_line_indexes m) (_line_indexes_used m) (_max_y m) (_max_x m) (old_addmsg m) (exit_signal m) (calls m).
Definition set_line_indexes (f : (gmap Z nat) → (gmap Z nat)) (m : Monitor) : Monitor :=
  mkMonitor (_encoding m) (_pid m) (_sigpipe m) (_tasks m) (_stop_event m) (_pause_event m) (_n_work_threads m) (_active_work_threads m) (_worker_exceptions m) (_banner m) (_addmsg m) (_lines m) (_line_attrs m) (f (_line_indexes m)) (_line_indexes_used m) (_max_y m) (_max_x m) (old_addmsg m) (exit_signal m) (calls m).
Definition set_line_indexes_used (f : (gset nat) → (gset nat)) (m : Monitor) : Monitor :=
  mkMonitor (_encoding m) (_pid m) (_sigpipe m) (_tasks m) (_stop_event m) (_pause_event m) (_n_work_threads m) (_active_work_threads m) (_worker_exceptions m) (_banner m) (_addmsg m) (_lines m) (_line_attrs m) (_line_indexes m) (f (_line_indexes_used m)) (_max_y m) (_max_x m) (old_addmsg m) (exit_signal m) (calls m).
Definition set_max_y (f : Z → Z) (m : Monitor) : Monitor :=
  mkMonitor (_encoding m) (_pid m) (_sigpipe m) (_tasks m) (_stop_event m) (_pause_event m) (_n_work_threads m) (_active_work_threads m) (_worker_exceptions m) (_banner m) (_addmsg m) (_lines m) (_line_attrs m) (_line_indexes m) (_line_indexes_used m) (f (_max_y m)) (_max_x m) (old_addmsg m) (exit_signal m) (calls m).
Definition set_max_x (f : Z → Z) (m : Monitor) : Monitor :=
  mkMonitor (_encoding m) (_pid m) (_sigpipe m) (_tasks m) (_stop_event m) (_pause_event m) (_n_work_threads m) (_active_work_threads m) (_worker_exceptions m) (_banner m) (_addmsg m) (_lines m) (_line_attrs m) (_line_indexes m) (_line_indexes_used m) (_max_y m) (f (_max_x m)) (old_addmsg m) (exit_signal m) (calls m).
Definition set_old_addmsg (f : (option pystr) → (option pystr)) (m : Monitor) : Monitor :=
  mkMonitor (_encoding m) (_pid m) (_sigpipe m) (_tasks m) (_stop_event m) (_pause_event m) (_n_work_threads m) (_active_work_threads m) (_worker_exceptions m) (_banner m) (_addmsg m) (_lines m) (_line_attrs m) (_line_indexes m) (_line_indexes_used m) (_max_y m) (_max_x m) (f (old_addmsg m)) (exit_signal m) (calls m).
Definition set_exit_signal (f : Z → Z) (m : Monitor) : Monitor :=
  mkMonitor (_encoding m) (_pid m) (_sigpipe m) (_tasks m) (_stop_event m) (_pause_event m) (_n_work_threads m) (_active_work_threads m) (_worker_exceptions m) (_banner m) (_addmsg m) (_lines m) (_line_attrs m) (_line_indexes m) (_line_indexes_used m) (_max_y m) (_max_x m) (old_addmsg m) (f (exit_signal m)) (calls m).
Definition set_calls (f : (list Effect) → (list Effect)) (m : Monitor) : Monitor :=
  mkMonitor (_encoding m) (_pid m) (_sigpipe m) (_tasks m) (_stop_event m) (_pause_event m) (_n_work_threads m) (_active_work_threads m) (_worker_exceptions m) (_banner m) (_addmsg m) (_lines m) (_line_attrs m) (_line_indexes m) (_line_indexes_used m) (_max_y m) (_max_x m) (old_addmsg m) (exit_signal m) (f (calls m)).

(** *** A state and exception monad over the Monitor *)

(** A command returns, raises, or the process is ended by a signal on the
    way, in which case nothing runs any more, no [finally] clause either. *)
Inductive outcome (A : Type) : Type :=
  | Normal (a : A) (m : Monitor)
  | Raised (e : exn) (m : Monitor)
  | Killed (sig : Z) (m : Monitor).
Arguments Normal {A} a m.
Arguments Raised {A} e m.
Arguments Killed {A} sig m.

Definition M (A : Type) : Type := Monitor → outcome A.

Global Instance M_ret : MRet M := λ A a m, Normal a m.
Global Instance M_bind : MBind M := λ A B f c m,
  match c m with
  | Normal a m' => f a m'
  | Raised e m' => Raised e m'
  | Killed sig m' => Killed sig m'
  end.

Definition raise {A} (e : exn) : M A := λ m, Raised e m.
Definition die {A} (sig : Z) : M A := λ m, Killed sig m.
Definition gets {A} (f : Monitor → A) : M A := λ m, Normal (f m) m.
Definition modify (f : Monitor → Monitor) : M unit := λ m, Normal tt (f m).
Definition emit (c : Effect) : M unit := modify (set_calls (λ l, l ++ [c])).

(** [for x in l: body(x)] *)
Fixpoint for_each {A} (l : list A) (body : A → M unit) : M unit :=
  match l with
  | [] => mret tt
  | x :: l' => body x ;; for_each l' body
  end.

(** [l[i]] for [i >= 0] *)
Definition getitem {A} (l : list A) (i : nat) : M A :=
  match l !! i with
  | Some x => mret x
  | None => raise IndexError
  end.

(** [l[i] = v] for [i >= 0], on the list that [upd] reads and writes *)
Definition setitem {A} (proj : Monitor → list A)
    (upd : (list A → list A) → Monitor → Monitor) (i : nat) (v : A) : M unit :=
  l ← gets proj;
  if decide (i < length l)%nat then modify (upd (λ l, <[i:=v]> l))
  else raise IndexError.

(** ** Subroutines of the main output loop *)

(** The status text that is a control sentinel: ["\x00"]. *)
Definition NUL : pystr := [0%N].

(** [text.encode(self._encoding)] *)
Definition encode (text : pystr) : M bytes :=
  enc ← gets _encoding;
  match enc text with
  | Some b => mret b
  | None => raise UnicodeEncodeError
  end.

(** [Monitor._compute_banner] *)
Definition _compute_banner : M bytes :=
  banner ← gets _banner;
  addmsg ← gets _addmsg;
  w ← gets _max_x;
  match addmsg with
  | None => raise TypeError
  | Some addmsg => encode (Banner._compute_banner_internal banner addmsg w)
  end.

(** [Monitor._initscr_plus]; [size] is what [getmaxyx] answers. *)
Definition _initscr_plus (size : Z * Z) : M unit :=
  emit initscr ;;
  modify (set_max_y (λ _, size.1)) ;;
  modify (set_max_x (λ _, size.2)) ;;
  emit noecho ;;
  emit nonl ;;
  emit cbreak ;;
  emit (typeahead (-1)) ;;
  emit (curs_set 0) ;;
  emit (set_nonblocking 0).

(** [Monitor._do_status] *)
Definition _do_status (idx : nat) (text : pystr) : M unit :=
  (* while idx >= len(self._lines): one entry is appended to both tables *)
  modify (λ m,
    let k := (S idx - length (_lines m))%nat in
    set_line_attrs (λ l, l ++ replicate k A_NORMAL)
      (set_lines (λ l, l ++ replicate k []) m)) ;;
  (if decide (text = NUL) then setitem _line_attrs set_line_attrs idx A_NORMAL
   else b ← encode text; setitem _lines set_lines idx b) ;;
  max_y ← gets _max_y;
  let y := (max_y - 1) - Z.of_nat idx in
  if decide (y < 1) then mret tt  (* the top line is reserved for the banner *)
  else
    lines ← gets _lines;
    line ← getitem lines idx;
    max_x ← gets _max_x;
    attrs ← gets _line_attrs;
    a ← getitem attrs idx;
    emit (scr_addnstr y 0 line (max_x - 1) a) ;;
    emit scr_clrtoeol ;;
    emit scr_refresh.

(** [Monitor._do_redraw]; [size] is the height and width that the
    [TIOCGWINSZ] ioctl answers. *)
Definition _do_redraw (size : Z * Z) : M unit :=
  let '(height, width) := size in
  modify (set_max_y (λ _, height)) ;;
  modify (set_max_x (λ _, width)) ;;
  emit (resizeterm height width) ;;
  emit scr_clear ;;
  b ← _compute_banner;
  emit (scr_addstr 0 0 b A_REVERSE) ;;
  max_y ← gets _max_y;
  for_each (seqZ 1 (max_y - 1)) (λ y,
    let idx := Z.to_nat ((max_y - 1) - y) in
    lines ← gets _lines;
    if decide (idx < length lines)%nat then
      line ← getitem lines idx;
      max_x ← gets _max_x;
      attrs ← gets _line_attrs;
      a ← getitem attrs idx;
      emit (scr_addnstr y 0 line (max_x - 1) a)
    else mret tt) ;;
  emit scr_refresh.

(** [Monitor._flag_all_lines] *)
Definition _flag_all_lines (size : Z * Z) : M unit :=
  modify (set_line_attrs (λ l, (λ _, A_BOLD) <$> l)) ;;
  _do_redraw size.

(** [signal.signal(signo, h)]: a number outside [1 .. NSIG-1] is a
    [ValueError], and a signal whose disposition cannot be changed an
    [OSError]. *)
Definition signal_signal_ (signo : Z) (h : handler) : M unit :=
  if decide (1 <= signo < signal.NSIG) then
    if signal.settable signo then emit (signal_signal signo h)
    else raise OSError
  else raise ValueError.

(** [os.kill(self._pid, signo)] once [signo] has its default disposition:
    the call returns only if the signal does not end the process. A signal
    that stops it lets it go on when the process is continued. *)
Definition kill_self (signo : Z) : M unit :=
  pid ← gets _pid;
  emit (os_kill pid signo) ;;
  if signal.terminates signo then die signo else mret tt.

(** [Monitor._do_suspend] *)
Definition _do_suspend (size : Z * Z) (signo : Z) (old : option pystr) : M unit :=
  emit endwin ;;
  signal_signal_ signo SIG_DFL ;;
  kill_self signo ;;
  signal_signal_ signo dummy_signal_handler ;;
  emit (signal_siginterrupt signo false) ;;
  _initscr_plus size ;;
  emit (drain_input 0) ;;
  sigpipe ← gets _sigpipe;
  emit (drain_input sigpipe.1) ;;
  modify (set_pause_event (λ _, true)) ;;
  modify (set_addmsg (λ _, old)) ;;
  _do_redraw size.

(** [Monitor._do_exit] *)
Definition _do_exit (signo : Z) : M unit :=
  if decide (signo = 0 ∨ signo = signal.SIGINT) then mret tt
  else
    emit endwin ;;
    emit (pthread_sigmask_unblock signo) ;;
    signal_signal_ signo SIG_DFL ;;
    kill_self signo.

(** ** The main output loop *)

(** What the body of [while True] does after a task: go round again, or
    [return]. *)
Inductive flow : Type := Next | Return.

(** The chain of tests on [task[0]] inside the [try] block. *)
Definition dispatch (size : Z * Z) (task : Task) : M flow :=
  match task with
  | Status idx text =>
      _do_status idx text ;; mret Next
  | Redraw =>
      _do_redraw size ;; mret Next
  | Suspend sig =>
      modify (set_exit_signal (λ _, sig)) ;;
      modify (set_pause_event (λ _, false)) ;;
      addmsg ← gets _addmsg;
      modify (set_old_addmsg (λ _, addmsg)) ;;
      modify (set_addmsg (λ _, Some (str "Pausing."))) ;;
      _flag_all_lines size ;;
      mret Next
  | Exit sig =>
      modify (set_exit_signal (λ _, sig)) ;;
      modify (set_stop_event (λ _, false)) ;;
      (if decide (sig ≠ 0) then
         modify (set_addmsg (λ _,
           Some (str "Shutting down (signal " ++ str_of_Z sig ++ str ").")))
       else
         modify (set_addmsg (λ _, Some (str "Shutting down.")))) ;;
      _flag_all_lines size ;;
      mret Next
  | Done true =>
      signo ← gets exit_signal;
      old ← gets old_addmsg;
      _do_suspend size signo old ;;
      modify (set_exit_signal (λ _, 0)) ;;
      modify (set_old_addmsg (λ _, None)) ;;
      mret Next
  | Done false =>
      signo ← gets exit_signal;
      _do_exit signo ;;
      mret Return
  end.

(** The [except BaseException as e] clause of the loop. *)
Definition except_clause (size : Z * Z) (e : exn) : M unit :=
  stop ← gets _stop_event;
  if negb stop then raise e
  else
    modify (set_stop_event (λ _, false)) ;;
    modify (set_addmsg (λ _,
      Some (str "*** " ++ type_name e ++ str ":" ++ exn_str e
            ++ str " *** Crashing."))) ;;
    _do_redraw size.

(** How one round of [while True] ends. *)
Inductive round : Type :=
  | Continue (m : Monitor)            (* the loop goes round again *)
  | Returned (m : Monitor)            (* [_output_thread_fn] returns *)
  | Propagated (e : exn) (m : Monitor) (* [e] leaves [_output_thread_fn] *)
  | Died (sig : Z) (m : Monitor)      (* the signal has ended the process *)
  | Blocked.                          (* [self._tasks.get()] waits *)

(** One round of the loop of [_output_thread_fn]. *)
Definition loop_round (size : Z * Z) (m : Monitor) : round :=
  match PriorityQueue.get (_tasks m) with
  | None => Blocked
  | Some (task, rest) =>
      match dispatch size task (set_tasks (λ _, rest) m) with
      | Normal Next m' => Continue m'
      | Normal Return m' => Returned m'
      | Raised e m' =>
          match except_clause size e m' with
          | Normal _ m'' => Continue m''
          | Raised e' m'' => Propagated e' m''
          | Killed sig m'' => Died sig m''
          end
      | Killed sig m' => Died sig m'
      end
  end.

(** The loop, for at most [fuel] rounds. *)
Fixpoint output_loop (fuel : nat) (size : Z * Z) (m : Monitor) : round :=
  match fuel with
  | O => Continue m
  | S fuel' =>
      match loop_round size m with
      | Continue m' => output_loop fuel' size m'
      | r => r
      end
  end.

(** The statements of [_output_thread_fn] before its loop. *)
Definition output_thread_prologue : M unit :=
  emit scr_clear ;;
  b ← _compute_banner;
  emit (scr_addstr 0 0 b A_REVERSE) ;;
  emit scr_refresh ;;
  modify (set_old_addmsg (λ _, None)) ;;
  modify (set_exit_signal (λ _, 0)).

(** ** The public API and the worker wrapper *)

(** [self._tasks.put(item)] *)
Definition put_task (item : Task) : M unit :=
  modify (set_tasks (PriorityQueue.put item)).

(** [Monitor.report_status], called on the thread [ident]. *)
Definition report_status (ident : Z) (status : pystr) : M unit :=
  indexes ← gets _line_indexes;
  match indexes !! ident with
  | Some idx => put_task (Status idx status)
  | None => raise (KeyError (str_of_Z ident))
  end.

(** [Monitor.caller_is_only_active_thread] *)
Definition caller_is_only_active_thread : M bool :=
  active ← gets _active_work_threads;
  mret (bool_decide (active = 1)).

(** The search of [_work_thread_fn] for a line index: [i] counts up from
    where it stands until it is not in [used]; [fuel] bounds the number of
    tests. *)
Fixpoint search_index (fuel : nat) (used : gset nat) (i : nat) : option nat :=
  match fuel with
  | O => None
  | S fuel' =>
      if decide (i ∈ used) then search_index fuel' used (S i) else Some i
  end.

(** The first [with self._counters_lock] block of [_work_thread_fn], run on
    the thread [ident]. [None]: the search did not end within its fuel. *)
Definition work_thread_enter (ident : Z) (m : Monitor) : option Monitor :=
  let m := set_n_work_threads (λ n, n + 1) m in
  let m := set_active_work_threads (λ n, n + 1) m in
  let used := _line_indexes_used m in
  i ← search_index (S (size used)) used 0;
  Some (set_line_indexes_used (λ u, {[i]} ∪ u)
          (set_line_indexes (λ d, <[ident:=i]> d) m)).

(** The [except Exception as e] clause of [_work_thread_fn], on the thread
    of that name and ident. *)
Definition work_thread_except (name : pystr) (ident : Z) (e : exn) : M unit :=
  modify (set_worker_exceptions (λ d, <[name:=e]> d)) ;;
  let msg := str "*** Uncaught exception: "
             ++ slice_to (format_exception_only_0 e) (-1) in
  report_status ident msg.

(** The [finally] clause of [_work_thread_fn]. *)
Definition work_thread_finally (ident : Z) : M unit :=
  indexes ← gets _line_indexes;
  match indexes !! ident with
  | None => raise (KeyError (str_of_Z ident))
  | Some i =>
      modify (set_line_indexes (λ d, delete ident d)) ;;
      used ← gets _line_indexes_used;
      (if decide (i ∈ used) then modify (set_line_indexes_used (λ u, u ∖ {[i]}))
       else raise (KeyError (str_of_Z (Z.of_nat i)))) ;;
      modify (set_n_work_threads (λ n, n - 1)) ;;
      modify (set_active_work_threads (λ n, n - 1)) ;;
      n ← gets _n_work_threads;
      if decide (n = 0) then put_task (Done false) else mret tt
  end.

(** ** The input thread *)

(** [handle_input_char]: [None] is the empty read at end of input. *)
Definition handle_input_char (ch : option Z) : M unit :=
  if decide (ch = None ∨ ch = Some 27 ∨ ch = Some 113 ∨ ch = Some 81) then
    put_task (Exit 0)
  else if decide (ch = Some 12) then put_task Redraw
  else mret tt.

(** [handle_signal_char], on the byte read from the wakeup pipe. *)
Definition handle_signal_char (sig : Z) : M unit :=
  if decide (sig = signal.SIGWINCH) then put_task Redraw
  else if decide (sig = signal.SIGTSTP ∨ sig = signal.SIGTTIN
                  ∨ sig = signal.SIGTTOU) then put_task (Suspend sig)
  else put_task (Exit sig).

(** ** Threads *)

(** Where a worker thread stands in [_work_thread_fn], and inside
    [maybe_pause_or_stop] when its worker function has called it. *)
Inductive pc : Type :=
  | Created                        (* started; the first lock is not taken yet *)
  | Running                        (* in [worker_fn], outside the Monitor *)
  | StopTest                       (* [if not self._stop_event.is_set()] *)
  | PauseTest                      (* [if not self._pause_event.is_set()] *)
  | Quiesce                        (* the lock block that decrements *)
  | PauseReport                    (* [self.report_status("\x00")] before the wait *)
  | PauseWait                      (* about to call [self._pause_event.wait()] *)
  | Sleeping                       (* inside [wait()], until the event is set *)
  | Reactivate                     (* the lock block that increments *)
  | Except (e : exn)               (* the [except Exception] clause *)
  | Finally (pending : option exn) (* the [finally] clause *)
  | Ended (r : option exn).        (* the thread is over; [r] left the wrapper *)

Record thread : Type := mkThread { name : pystr; at_pc : pc }.

Record System : Type := mkSystem {
  monitor : Monitor;
  threads : gmap Z thread
}.

(** What a thread that is [Running] does next. *)
Inductive action : Type :=
  | call_report_status (status : pystr)
  | call_maybe_pause_or_stop
  | call_add_work_thread (ident : Z) (name : pystr)
  | worker_returns
  | worker_raises (e : exn)
  | internal.

(** Where an exception that leaves [worker_fn] is taken. *)
Definition leave_worker_fn (e : exn) : pc :=
  if is_Exception e then Except e else Finally (Some e).

(** A thread that has not started or is over leaves its ident free. *)
Definition ident_free (ths : gmap Z thread) (ident : Z) : bool :=
  match ths !! ident with
  | None => true
  | Some th => match at_pc th with Ended _ => true | _ => false end
  end.

(** One step of the thread [ident]; [None] when it cannot move. *)
Definition thread_step (ident : Z) (a : action) (s : System) : option System :=
  th ← threads s !! ident;
  let m := monitor s in
  let goto (p : pc) (m' : Monitor) : option System :=
    Some (mkSystem m' (<[ident := mkThread (name th) p]> (threads s))) in
  match at_pc th, a with
  | Created, internal =>
      m' ← work_thread_enter ident m; goto Running m'
  | Running, call_report_status status =>
      match report_status ident status m with
      | Normal _ m' => goto Running m'
      | Raised e m' => goto (leave_worker_fn e) m'
      | Killed _ _ => None
      end
  | Running, call_maybe_pause_or_stop => goto StopTest m
  | Running, call_add_work_thread ident' name' =>
      if ident_free (threads s) ident' && bool_decide (ident' ≠ ident) then
        Some (mkSystem m (<[ident' := mkThread name' Created]> (threads s)))
      else None
  | Running, worker_returns => goto (Finally None) m
  | Running, worker_raises e => goto (leave_worker_fn e) m
  | StopTest, internal =>
      if negb (_stop_event m) then
        match report_status ident NUL m with
        | Normal _ m' => goto (leave_worker_fn (SystemExit None)) m'
        | Raised e m' => goto (leave_worker_fn e) m'
        | Killed _ _ => None
        end
      else goto PauseTest m
  | PauseTest, internal =>
      if negb (_pause_event m) then goto Quiesce m else goto Running m
  | Quiesce, internal =>
      let m := set_active_work_threads (λ n, n - 1) m in
      let m := if decide (_active_work_threads m = 0)
               then set_tasks (PriorityQueue.put (Done true)) m else m in
      goto PauseReport m
  | PauseReport, internal =>
      match report_status ident NUL m with
      | Normal _ m' => goto PauseWait m'
      | Raised e m' => goto (leave_worker_fn e) m'
      | Killed _ _ => None
      end
  | PauseWait, internal =>
      if _pause_event m then goto Reactivate m else goto Sleeping m
  | Reactivate, internal =>
      goto Running (set_active_work_threads (λ n, n + 1) m)
  | Except e, internal =>
      match work_thread_except (name th) ident e m with
      | Normal _ m' => goto (Finally None) m'
      | Raised e' m' => goto (Finally (Some e')) m'
      | Killed _ _ => None
      end
  | Finally pending, internal =>
      match work_thread_finally ident m with
      | Normal _ m' => goto (Ended pending) m'
      | Raised e' m' => goto (Ended (Some e')) m'
      | Killed _ _ => None
      end
  | _, _ => None
  end.

(** What the input thread reads: a byte of the keyboard ([None] at end of
    input) or a byte of the wakeup pipe. *)
Inductive input : Type :=
  | keyboard (ch : option Z)
  | wakeup (sig : Z).

Definition input_step (ev : input) (s : System) : System :=
  let c := match ev with
           | keyboard ch => handle_input_char ch
           | wakeup sig => handle_signal_char sig
           end in
  match c (monitor s) with
  | Normal _ m' | Raised _ m' | Killed _ m' => mkSystem m' (threads s)
  end.

(** [Event.set()] wakes every thread that sleeps in [wait()]. *)
Definition release (th : thread) : thread :=
  match at_pc th with
  | Sleeping => mkThread (name th) Reactivate
  | _ => th
  end.

(** One round of the output loop that goes round again; the threads that
    slept on the pause event are awake when the round leaves it set. *)
Definition output_step (size : Z * Z) (s : System) : option System :=
  match loop_round size (monitor s) with
  | Continue m' =>
      Some (mkSystem m'
              (if _pause_event m' then release <$> threads s else threads s))
  | _ => None
  end.

(** The steps of the whole ensemble while the output loop runs. *)
Inductive label : Type :=
  | on_thread (ident : Z) (a : action)
  | on_output (size : Z * Z)
  | on_input (ev : input).

Definition sys_step (l : label) (s : System) : option System :=
  match l with
  | on_thread ident a => thread_step ident a s
  | on_output size => output_step size s
  | on_input ev => Some (input_step ev s)
  end.

(** The steps of [trace], one after the other. *)
Fixpoint run (trace : list label) (s : System) : option System :=
  match trace with
  | [] => Some s
  | l :: trace' => s' ← sys_step l s; run trace' s'
  end.

(** ** Construction and teardown *)

(** The fields as [Monitor.__init__] sets them, for the codec, pid, pipe
    and banner given, once [_initscr_plus] has read the window size. *)
Definition new_monitor (enc : pystr → option bytes) (pid : Z)
    (sigpipe : Z * Z) (banner : pystr) (size : Z * Z) : Monitor :=
  {| _encoding := enc; _pid := pid; _sigpipe := sigpipe;
     _tasks := PriorityQueue.empty;
     _stop_event := true; _pause_event := true;
     _n_work_threads := 0; _active_work_threads := 0;
     _worker_exceptions := ∅;
     _banner := banner; _addmsg := Some (str "Press ESC to stop.");
     _lines := []; _line_attrs := [];
     _line_indexes := ∅; _line_indexes_used := ∅;
     _max_y := size.1; _max_x := size.2;
     old_addmsg := None; exit_signal := 0;
     calls := [initscr; noecho; nonl; cbreak; typeahead (-1); curs_set 0;
               set_nonblocking 0] |}.

(** The ensemble when [__init__] has started [_mwork_thread], the thread
    that runs [main]. *)
Definition initial (m : Monitor) (ident : Z) (name : pystr) : System :=
  mkSystem m {[ ident := mkThread name Created ]}.

Definition str_le (a b : pystr) : Prop := str_compare a b ≠ Gt.
Global Instance str_le_dec a b : Decision (str_le a b).
Proof. unfold str_le. apply _. Defined.

(** [sorted(d.keys())] *)
Definition sorted_keys (d : gmap pystr exn) : list pystr :=
  merge_sort str_le (elements (dom d)).

(** The three writes on [sys.stderr] for one entry of
    [self._worker_exceptions]; the second is [traceback.print_exception]. *)
Definition write_exception (tid : pystr) (e : exn) : M unit :=
  emit (stderr_write (str "Exception in thread " ++ tid ++ str ":" ++ newline)) ;;
  emit (stderr_write (str "Traceback (most recent call last):" ++ newline
                      ++ exn_tb e ++ format_exception_only_0 e)) ;;
  emit (stderr_write newline).

(** The part of the [finally] clause of [__init__] that reports the worker
    exceptions; [in_flight] is [sys.exc_info()], the exception that is
    leaving the [try] block, if any. *)
Definition report_worker_exceptions (in_flight : option exn) : M unit :=
  excs ← gets _worker_exceptions;
  if decide (excs ≠ ∅) then
    for_each (sorted_keys excs) (λ tid,
      match excs !! tid with
      | Some e => write_exception tid e
      | None => raise (KeyError tid)
      end) ;;
    (if decide (in_flight = None) then raise (SystemExit (Some 1))
     else mret tt)
  else mret tt.

(** The [finally] clause of [__init__]. *)
Definition teardown (in_flight : option exn) : M unit :=
  emit endwin ;;
  emit restore_wakeup_fd ;;
  sigpipe ← gets _sigpipe;
  emit (os_close sigpipe.1) ;;
  emit (os_close sigpipe.2) ;;
  report_worker_exceptions in_flight.

(** How the process ends. *)
Inductive run_end : Type :=
  (** control left [Monitor.__init__], with the exception [r] if any *)
  | Left (r : option exn) (m : Monitor)
  (** the signal ended the process; the [finally] clause did not run *)
  | KilledBy (sig : Z) (m : Monitor).

(** The end of [Monitor.__init__] when the output loop ended as [r]. *)
Definition init_result (r : round) : option run_end :=
  let finish (in_flight : option exn) (m : Monitor) :=
    match teardown in_flight m with
    | Normal _ m' => Some (Left in_flight m')
    | Raised e m' => Some (Left (Some e) m')
    | Killed sig m' => Some (KilledBy sig m')
    end in
  match r with
  | Returned m => finish None m
  | Propagated e m => finish (Some e) m
  | Died sig m => Some (KilledBy sig m)
  | Continue _ | Blocked => None
  end.

(** The exit status of the interpreter when [r] leaves its main module:
    an uncaught [SystemExit] gives its code, any other exception 1. *)
Definition exit_status (r : option exn) : Z :=
  match r with
  | None => 0
  | Some (SystemExit None) => 0
  | Some (SystemExit (Some c)) => c
  | Some _ => 1
  end.

(** ** States of a run *)

(** Python's [ascii] codec. *)
Definition ascii_codec (text : pystr) : option bytes :=
  mapM (λ c, if decide (c < 128)%N then Byte.of_N c else None) text.

(** The ensemble when [__init__] has drawn the first banner and started
    the thread that runs [main]; [None] when drawing it raised. *)
Definition start (enc : pystr → option bytes) (pid : Z) (sigpipe : Z * Z)
    (banner : pystr) (size : Z * Z) (ident : Z) (name : pystr) : option System :=
  match output_thread_prologue (new_monitor enc pid sigpipe banner size) with
  | Normal _ m => Some (initial m ident name)
  | Raised _ _ | Killed _ _ => None
  end.

Definition reachable (s : System) : Prop :=
  ∃ enc pid sigpipe banner size ident name s0 trace,
    start enc pid sigpipe banner size ident name = Some s0
    ∧ run trace s0 = Some s.

(** The two tables of lines have one length. *)
Definition tables_ok (m : Monitor) : Prop :=
  length (_line_attrs m) = length (_lines m).

(** The worker threads that count in [_n_work_threads]: between the first
    lock block and the [finally] clause. *)
Definition live (p : pc) : bool :=
  match p with
  | Created | Ended _ => false
  | _ => true
  end.

(** The worker threads that count in [_active_work_threads]. *)
Definition counted (p : pc) : bool :=
  match p with
  | Running | StopTest | PauseTest | Quiesce | Except _ | Finally _ => true
  | _ => false
  end.

(** The number of threads whose place satisfies [P]. *)
Definition count_threads (P : pc → bool) (ths : gmap Z thread) : nat :=
  size (filter (λ kv, P (at_pc kv.2) = true) ths).



(** *** A pause cycle *)

(** The number of [(_DONE, True)] entries waiting in the queue. *)
Definition done_true_count (m : Monitor) : nat :=
  length (filter (λ t, t = Done true) (_tasks m)).


(** A worker that has left the active set at the checkpoint. *)
Definition quiesced (p : pc) : bool :=
  match p with
  | PauseReport | PauseWait | Sleeping => true
  | _ => false
  end.








(** * The workers of [s_canonize.py]

    The functions that the worker threads run between two calls of the
    Monitor: the texts of the log, the canonical form of a URL, the
    bounded reading of a response, the classification of a response and
    the bookkeeping of the results. What the network and the database
    answer is an input of these functions. *)

(** ** Logging *)

(** A computation that returns or raises. *)
Global Instance raises_ret : MRet (sum exn) := λ A a, inr a.
Global Instance raises_bind : MBind (sum exn) := λ A B f x,
  match x with
  | inl e => inl e
  | inr a => f a
  end.

(** [resp.headers], by the two operations that the workers use. *)
Record Headers : Type := mkHeaders {
  (** [headers.items()] *)
  items : list (pystr * pystr);
  (** [name in headers] *)
  contains : pystr → bool
}.

Module Response.

(** A [requests.Response], by the attributes that the workers read. *)
Record t : Type := mk {
  status_code : Z;
  (** the text of [str(resp.reason)] *)
  reason : pystr;
  url : pystr;
  headers : Headers;
  (** the text of [resp.raw.version/10.], a float *)
  raw_version_text : pystr;
  (** what [resp.iter_content(chunk_size=1024)] yields, each chunk with the
      answer of [time.time() - start > 5] when it has been read *)
  iter_content : list (bytes * bool)
}.

End Response.

(** [fmt_status] *)
Definition fmt_status (resp : Response.t) : pystr :=
  str_of_Z (Response.status_code resp) ++ str " " ++ Response.reason resp.

(** [sep.join(parts)] *)
Fixpoint join (sep : pystr) (parts : list pystr) : pystr :=
  match parts with
  | [] => []
  | [p] => p
  | p :: parts' => p ++ sep ++ join sep parts'
  end.

(** [fmt_cookies], on the cookies of the jar in the order of its iteration,
    each by name and value. *)
Definition fmt_cookies (jar : list (pystr * pystr)) : pystr :=
  if decide (jar = []) then str ""
  else str " [" ++ join (str " ") ((λ c, c.1 ++ str "=" ++ c.2) <$> jar) ++ str "]".

Module NetError.

(** An exception of the network layer, by what [fmt_exception] asks of it. *)
Record t : Type := mk {
  (** [isinstance(exc, (requests.exceptions.Timeout, socket.timeout))] *)
  is_timeout : bool;
  (** [isinstance(exc, socket.gaierror)] *)
  is_gaierror : bool;
  (** [exc.errno] *)
  errno : option Z;
  (** [exc.strerror] and [exc.filename], [None] when the attribute is
      missing or is [None] *)
  strerror : option pystr;
  filename : option pystr;
  (** [isinstance(exc, http.client.HTTPException)] *)
  is_HTTPException : bool;
  (** [exc.__class__.__name__] and [str(exc)] *)
  class_name : pystr;
  text : pystr
}.

End NetError.

Definition EAI_NONAME : Z := -2.
Definition EAI_NODATA : Z := -5.

(** The truth value of an attribute that holds a string or [None]. *)
Definition truthy (s : option pystr) : bool :=
  match s with
  | Some (_ :: _) => true
  | _ => false
  end.

(** [fmt_exception] *)
Definition fmt_exception (exc : NetError.t) : pystr :=
  if NetError.is_timeout exc then str "timed out"
  else if NetError.is_gaierror exc
          && bool_decide (NetError.errno exc = Some EAI_NONAME
                          ∨ NetError.errno exc = Some EAI_NODATA)
  then str "unknown host"
  else if truthy (NetError.strerror exc) then
    let msg := default [] (NetError.strerror exc) in
    if truthy (NetError.filename exc)
    then default [] (NetError.filename exc) ++ str ": " ++ msg
    else msg
  else if NetError.is_HTTPException exc then
    str "HTTP error (" ++ NetError.class_name exc ++ str "): " ++ NetError.text exc
  else NetError.text exc.

(** ** The canonical form of a URL *)

(** Python's [ascii] codec, decoding. *)
Definition ascii_decode (b : bytes) : option pystr :=
  mapM (λ c, if decide (Byte.to_N c < 128)%N then Some (Byte.to_N c) else None) b.

Definition UnicodeDecodeError : exn :=
  PyException (str "UnicodeDecodeError") (str "codec can't decode byte") [].

Module ParseResult.

(** What [urllib.parse.urlparse] gives, by the attributes read. Reading
    [port] raises when the port of the URL is no number. *)
Record t : Type := mk {
  scheme : pystr;
  username : option pystr;
  password : option pystr;
  hostname : option pystr;
  port : exn + option Z;
  path : pystr;
  params : pystr;
  query : pystr;
  fragment : pystr
}.

End ParseResult.

Module UrlTuple.

(** The tuple given to [urllib.parse.urlunparse]. *)
Record t : Type := mk {
  scheme : pystr;
  netloc : option pystr;
  path : pystr;
  params : pystr;
  query : pystr;
  fragment : pystr
}.

End UrlTuple.

(** [a or ""] *)
Definition or_empty (a : option pystr) : pystr :=
  match a with
  | Some (c :: s) => c :: s
  | _ => []
  end.

(** [a + b] where [a] may be [None], which is a [TypeError]. *)
Definition concat_to (a : pystr) (b : option pystr) : exn + option pystr :=
  match b with
  | Some b => inr (Some (a ++ b))
  | None => inl TypeError
  end.

Definition concat_from (a : option pystr) (b : pystr) : exn + option pystr :=
  match a with
  | Some a => inr (Some (a ++ b))
  | None => inl TypeError
  end.

(** The part of [canonical_form] between [urlparse] and [urlunparse]. *)
Definition canonical_tuple (exploded : ParseResult.t) : exn + UrlTuple.t :=
  let scheme := ParseResult.scheme exploded in
  let user := or_empty (ParseResult.username exploded) in
  let passwd := or_empty (ParseResult.password exploded) in
  let host := or_empty (ParseResult.hostname exploded) in
  port ← ParseResult.port exploded;
  let port := match port with
              | Some n => if decide (n ≠ 0) then str_of_Z n else str ""
              | None => str ""
              end in
  let path := ParseResult.path exploded in
  let path := if decide ((scheme = str "http" ∨ scheme = str "https")
                         ∧ path = str "")
              then str "/" else path in
  let netloc := ParseResult.hostname exploded in
  netloc ← (if decide (passwd ≠ []) then
              concat_to (user ++ str ":" ++ passwd ++ str "@") netloc
            else if decide (user ≠ []) then concat_to (user ++ str "@") netloc
            else mret netloc);
  netloc ← (if decide (port ≠ [] ∧ port ≠ str "80") then
              concat_from netloc (str ":" ++ port)
            else mret netloc);
  mret (UrlTuple.mk scheme netloc path (ParseResult.params exploded)
                    (ParseResult.query exploded) (ParseResult.fragment exploded)).

(** [canonical_form]; the two functions of [urllib.parse] are given. *)
Definition canonical_form (urlparse : pystr → exn + ParseResult.t)
    (urlunparse : UrlTuple.t → pystr) (url : pystr + bytes) : exn + pystr :=
  url ← match url with
        | inl s =>
            match ascii_codec s with
            | Some b => match ascii_decode b with
                        | Some s' => mret s'
                        | None => inl UnicodeDecodeError
                        end
            | None => inl UnicodeEncodeError
            end
        | inr b =>
            match ascii_decode b with
            | Some s => mret s
            | None => inl UnicodeDecodeError
            end
        end;
  exploded ← urlparse url;
  t ← canonical_tuple exploded;
  mret (urlunparse t).

(** ** Reading a response *)

(** The loop of [load_enough_content] on the chunks still to come: the
    body read, and whether the response was closed before its end. *)
Fixpoint load_chunks (body : bytes) (chunks : list (bytes * bool)) : bytes * bool :=
  match chunks with
  | [] => (body, false)
  | (chunk, late) :: chunks' =>
      let body := body ++ chunk in
      if bool_decide (len body > 16 * 1024) || late then (body, true)
      else load_chunks body chunks'
  end.

(** [load_enough_content] *)
Definition load_enough_content (resp : Response.t) : bytes * bool :=
  load_chunks [] (Response.iter_content resp).

(** ** Results *)

Module CanonResult.

(** The tuple [(url_id, canon_url, status, anomaly)]. *)
Record t : Type := mk {
  url_id : Z;
  canon_url : option pystr;
  status : pystr;
  anomaly : option bytes
}.

(** The byte of a code point below 256. *)
Definition byte_of (c : N) : Byte.byte := default Byte.x00 (Byte.of_N c).

(** [n] hexadecimal digits of [c], in lower case. *)
Fixpoint hex (n : nat) (c : N) : bytes :=
  match n with
  | O => []
  | S n' =>
      let d := (c `mod` 16)%N in
      hex n' (c `div` 16)%N
      ++ [byte_of (if decide (d < 10)%N then 48 + d else 87 + d)%N]
  end.

(** [s.encode("ascii", "backslashreplace")] *)
Definition encode_backslashreplace (s : pystr) : bytes :=
  c ← s;
  if decide (c < 128)%N then [byte_of c]
  else if decide (c < 256)%N then [byte_of 92; byte_of 120] ++ hex 2 c
  else if decide (c < 65536)%N then [byte_of 92; byte_of 117] ++ hex 4 c
  else [byte_of 92; byte_of 85] ++ hex 8 c.

(** The order of the tuples [(name, value)]. *)
Definition header_le (a b : pystr * pystr) : Prop :=
  match str_compare a.1 b.1 with
  | Lt => True
  | Eq => str_compare a.2 b.2 ≠ Gt
  | Gt => False
  end.

Global Instance header_le_dec a b : Decision (header_le a b).
Proof. unfold header_le. destruct (str_compare a.1 b.1); apply _. Defined.

(** [CanonResult.success] *)
Definition success (url_id : Z) (canon_url : pystr) : t :=
  mk url_id (Some canon_url) (str "200 OK") None.

(** [CanonResult.http_failure] *)
Definition http_failure (url_id : Z) (resp : Response.t) : t :=
  mk url_id None (fmt_status resp) None.

(** [CanonResult.http_anomaly] *)
Definition http_anomaly (url_id : Z) (resp : Response.t) (body : bytes) : t :=
  let headers :=
    join newline ((λ kv, kv.1 ++ str ": " ++ kv.2)
                  <$> merge_sort header_le (items (Response.headers resp))) in
  let status := fmt_status resp in
  let full_status := str "HTTP/" ++ Response.raw_version_text resp ++ str " " ++ status in
  mk url_id None status
     (Some (encode_backslashreplace (full_status ++ newline ++ headers
                                     ++ newline ++ newline)
            ++ body)).

(** [CanonResult.exception] *)
Definition exception (url_id : Z) (exc : NetError.t) : t :=
  mk url_id None (fmt_exception exc) None.

End CanonResult.

(** ** The worker that fetches *)

Module HTTPWorker.

(** The state of an [HTTPWorker] that its log methods use. *)
Record t : Type := mk {
  prev_msg : pystr
}.

Definition FormatError : exn :=
  PyException (str "ValueError") (str "Sign not allowed in string format specifier") [].

(** ["{:<{w}.{w}}".format(s)]: [s] cut to [w] characters and filled with
    spaces to [w]; a negative [w] is no format. *)
Definition format_left (w : Z) (s : pystr) : M pystr :=
  if decide (w < 0) then raise FormatError
  else
    let cut := take (Z.to_nat w) s in
    mret (cut ++ replicate (Z.to_nat w - length cut) 32%N).

(** [HTTPWorker.report_status], on the thread [ident]. *)
Definition report_status (ident : Z) (msg : pystr) (self : t) : M t :=
  max_x ← gets _max_x;
  left ← format_left (max_x `div` 2) (prev_msg self);
  report_status ident (left ++ str " " ++ msg) ;;
  mret (mk msg).

(** [HTTPWorker.log_start] *)
Definition log_start (ident : Z) (orig_url : pystr) : t → M t :=
  report_status ident (orig_url ++ str " ...").

(** [HTTPWorker.log_success] *)
Definition log_success (ident : Z) (orig_url canon : pystr) : t → M t :=
  report_status ident (orig_url ++ str " => " ++ canon).

(** [HTTPWorker.log_fail] *)
Definition log_fail (ident : Z) (orig_url : pystr) (resp : Response.t) : t → M t :=
  report_status ident (orig_url ++ str " => " ++ fmt_status resp).

(** [HTTPWorker.log_good_redirect] *)
Definition log_good_redirect (ident : Z) (orig_url redir : pystr) (resp : Response.t)
    (cookies : list (pystr * pystr)) : t → M t :=
  report_status ident (orig_url ++ str " => " ++ fmt_status resp ++ str " to "
                       ++ redir ++ fmt_cookies cookies).

(** [HTTPWorker.log_redirect_loop] *)
Definition log_redirect_loop (ident : Z) (orig_url redir : pystr)
    (resp : Response.t) : t → M t :=
  report_status ident (orig_url ++ str " => " ++ fmt_status resp ++ str " to "
                       ++ redir ++ str ", loop detected").

(** [HTTPWorker.log_exception] *)
Definition log_exception (ident : Z) (orig_url : pystr) (exc : NetError.t) : t → M t :=
  report_status ident (orig_url ++ str " => " ++ fmt_exception exc).

(** An exception of a pure computation, raised in the Monitor's monad. *)
Definition lift {A} (x : exn + A) : M A :=
  match x with
  | inl e => raise e
  | inr a => mret a
  end.

(** [HTTPWorker.process_one_response]; [REDIRECT_STATI] is the constant of
    [requests.sessions], and the two functions of [urllib.parse] are
    given. *)
Definition process_one_response (urlparse : pystr → exn + ParseResult.t)
    (urlunparse : UrlTuple.t → pystr) (REDIRECT_STATI : list Z)
    (ident : Z) (orig_id : Z) (orig_url : pystr) (resp : Response.t) (self : t)
    : M (option CanonResult.t * t) :=
  if decide (Response.status_code resp = 200) then
    url ← lift (canonical_form urlparse urlunparse (inl (Response.url resp)));
    self ← log_success ident orig_url url self;
    mret (Some (CanonResult.success orig_id url), self)
  else if decide (Response.status_code resp ∈ [400; 401; 403; 404; 410; 500; 503]) then
    self ← log_fail ident orig_url resp self;
    mret (Some (CanonResult.http_failure orig_id resp), self)
  else if decide (Response.status_code resp ∉ REDIRECT_STATI
                  ∨ contains (Response.headers resp) (str "location") = false) then
    self ← log_fail ident orig_url resp self;
    mret (Some (CanonResult.http_anomaly orig_id resp (load_enough_content resp).1),
          self)
  else mret (None, self).

End HTTPWorker.

(** ** The worker that records *)

Module DatabaseWorker.

(** The statements that [record_canonized] executes. *)
Inductive statement : Type :=
  | insert_canon_status (status : pystr)
  | insert_anomaly (url_id status_id : Z) (anomaly : bytes)
  | select_url_string (url : pystr)
  | insert_url_string (url : pystr)
  | insert_canon_url (url_id : Z) (canon_id : option Z) (status_id : Z).

Global Instance byte_eq_dec : EqDecision Byte.byte := Byte.byte_eq_dec.

Global Instance statement_eq_dec : EqDecision statement.
Proof. solve_decision. Defined.

(** What the database answers during one call of [record_canonized]: the
    row id after an insertion into [canon_statuses], the row that the
    selection from [url_strings] fetches, and the row id after an insertion
    into [url_strings]. *)
Record answers : Type := mkAnswers {
  status_rowid : Z;
  url_row : option Z;
  url_rowid : Z
}.

(** The state of a [DatabaseWorker] that recording reads and writes;
    [executed] are the statements given to the cursors, oldest first. *)
Record t : Type := mk {
  canon_statuses : gmap pystr Z;
  total : Z;
  processed : Z;
  successes : Z;
  failures : Z;
  anomalies : Z;
  executed : list statement
}.

(** [cr.execute(stmt)] *)
Definition execute (stmt : statement) (self : t) : t :=
  mk (canon_statuses self) (total self) (processed self) (successes self)
     (failures self) (anomalies self) (executed self ++ [stmt]).

(** [DatabaseWorker.record_canonized]; every statement is taken to
    succeed. *)
Definition record_canonized (result : CanonResult.t) (db : answers) (self : t) : t :=
  let '(status_id, self) :=
    match canon_statuses self !! CanonResult.status result with
    | Some status_id => (status_id, self)
    | None =>
        let self := execute (insert_canon_status (CanonResult.status result)) self in
        let status_id := status_rowid db in
        (status_id,
         mk (<[CanonResult.status result := status_id]> (canon_statuses self))
            (total self) (processed self) (successes self) (failures self)
            (anomalies self) (executed self))
    end in
  let self :=
    match CanonResult.anomaly result with
    | Some anomaly =>
        let self := execute (insert_anomaly (CanonResult.url_id result) status_id
                                            anomaly) self in
        mk (canon_statuses self) (total self) (processed self) (successes self)
           (failures self) (anomalies self + 1) (executed self)
    | None => self
    end in
  let '(canon_id, self) :=
    match CanonResult.canon_url result with
    | None =>
        (None,
         mk (canon_statuses self) (total self) (processed self) (successes self)
            (failures self + 1) (anomalies self) (executed self))
    | Some canon_url =>
        let self :=
          mk (canon_statuses self) (total self) (processed self) (successes self + 1)
             (failures self) (anomalies self) (executed self) in
        let self := execute (select_url_string canon_url) self in
        match url_row db with
        | Some id => (Some id, self)
        | None =>
            let self := execute (insert_url_string canon_url) self in
            (Some (url_rowid db), self)
        end
    end in
  let self := execute (insert_canon_url (CanonResult.url_id result) canon_id
                                        status_id) self in
  mk (canon_statuses self) (total self) (processed self + 1) (successes self)
     (failures self) (anomalies self) (executed self).

End DatabaseWorker.

(** * Notions used in the statements

    The definitions below are not part of the program: they name, in terms
    of the embedding, what the properties speak of. *)

(** ** The order of the tasks *)

(** The tuple of a task, flattened to integers. *)
Definition key (t : Task) : list Z :=
  match t with
  | Status i a => _STATUS :: Z.of_nat i :: (Z.of_N <$> a)
  | Redraw => [_REDRAW]
  | Suspend s => [_SUSPEND; s]
  | Exit s => [_EXIT; s]
  | Done b => [_DONE; Z.b2z b]
  end.

(** The lexicographic order of the flattened tuples, which is the order of
    the tuples themselves. *)
Fixpoint lex (a b : list Z) : comparison :=
  match a, b with
  | [], [] => Eq
  | [], _ :: _ => Lt
  | _ :: _, [] => Gt
  | x :: a', y :: b' =>
      match Z.compare x y with
      | Eq => lex a' b'
      | c => c
      end
  end.

(** ** Rendering a status *)

(** The entries by which [_do_status] extends a table so that it has an
    entry of index [idx]. *)
Definition padding {A} (idx : nat) (m : Monitor) (x : A) : list A :=
  replicate (S idx - length (_lines m)) x.

(** The calls by which [_do_status] draws the line [idx]: none when its
    row is that of the banner or above. *)
Definition drawn (idx : nat) (m : Monitor) (line : bytes) (a : attr) : list Effect :=
  let y := (_max_y m - 1) - Z.of_nat idx in
  if decide (y < 1) then []
  else [scr_addnstr y 0 line (_max_x m - 1) a; scr_clrtoeol; scr_refresh].

(** ** Frames *)

(** The fields that the worker threads and the input thread share. *)
Definition shared (m : Monitor) :=
  (_n_work_threads m, _active_work_threads m, _worker_exceptions m,
   _line_indexes m, _line_indexes_used m, _tasks m).

(** The two events. *)
Definition events (m : Monitor) := (_stop_event m, _pause_event m).

(** The command [c] leaves what [view] shows as it is, whether it returns
    or raises. *)
Definition keeps {V A} (view : Monitor → V) (c : M A) : Prop :=
  ∀ m, match c m with
       | Normal _ m' | Raised _ m' | Killed _ m' => view m' = view m
       end.

(** ** The invariant of the worker bookkeeping *)

(** The workers that hold a line index are the live ones, no index is
    held twice, the used indexes are those held, and the two counters
    count the live and the active workers. *)
Record Inv (s : System) : Prop := mkInv {
  inv_indexed : ∀ ident,
    is_Some (_line_indexes (monitor s) !! ident)
    ↔ ∃ th, threads s !! ident = Some th ∧ live (at_pc th) = true;
  inv_unique : ∀ t u i,
    _line_indexes (monitor s) !! t = Some i →
    _line_indexes (monitor s) !! u = Some i → t = u;
  inv_used : ∀ i,
    i ∈ _line_indexes_used (monitor s)
    ↔ ∃ t, _line_indexes (monitor s) !! t = Some i;
  inv_live : _n_work_threads (monitor s)
             = Z.of_nat (count_threads live (threads s));
  inv_active : _active_work_threads (monitor s)
               = Z.of_nat (count_threads counted (threads s))
}.

(** ** The invariant of a pause cycle *)




(** ** The end of the run *)

(** What is written on [sys.stderr] for the exception [e] of the thread
    named [tid]. *)
Definition exception_writes (tid : pystr) (e : exn) : list Effect :=
  [stderr_write (str "Exception in thread " ++ tid ++ str ":" ++ newline);
   stderr_write (str "Traceback (most recent call last):" ++ newline
                 ++ exn_tb e ++ format_exception_only_0 e);
   stderr_write newline].



(** The text that the except clause of the output loop makes of [e]. *)
Definition crash_message (e : exn) : pystr :=
  str "*** " ++ type_name e ++ str ":" ++ exn_str e ++ str " *** Crashing.".

(** The command [c] keeps [P], whether it returns or raises. *)
Definition preserves {A} (P : Monitor → Prop) (c : M A) : Prop :=
  ∀ m, P m →
       match c m with
       | Normal _ m' | Raised _ m' | Killed _ m' => P m'
       end.

(** The two tables, which only the output thread touches. *)
Definition tables (m : Monitor) := (_lines m, _line_attrs m).

(** ** A small run, for the examples *)

Definition demo_size : Z * Z := (24, 80).

(** One worker, started on a terminal of 24 lines and 80 columns. *)
Definition demo_start : option System :=
  start ascii_codec 4242 (3, 4) (str "Canonicalizing URLs") demo_size
        100 (str "Thread-1").

Definition demo_run (trace : list label) : option System :=
  s ← demo_start; run trace s.

(** The worker has registered, has reported and its report is on screen. *)
Definition demo_working : list label :=
  [on_thread 100 internal;
   on_thread 100 (call_report_status (str "working"));
   on_output demo_size].

(** ... then the user presses ESC, the output loop takes the [Exit] task
    and the worker comes to its checkpoint. *)
Definition demo_stopping : list label :=
  demo_working
  ++ [on_input (keyboard (Some 27)); on_output demo_size;
      on_thread 100 call_maybe_pause_or_stop].

(** Two workers at work when the terminal driver sends [SIGTSTP] and the
    output loop has taken the [Suspend] task. *)
Definition demo_pausing : list label :=
  [on_thread 100 internal;
   on_thread 100 (call_add_work_thread 101 (str "Thread-2"));
   on_thread 101 internal;
   on_input (wakeup signal.SIGTSTP); on_output demo_size].


(** The ensemble before the first banner is drawn. *)
Definition demo_idle : System :=
  initial (new_monitor ascii_codec 4242 (3, 4) (str "Canonicalizing URLs") demo_size)
          100 (str "Thread-1").

(** The state that [trace] leads to. *)
Definition demo_state (trace : list label) : System :=
  default demo_idle (demo_run trace).

(** A queue that holds tasks of four classes, put in no order. *)
Definition demo_queue : PriorityQueue.t :=
  [Status 1 (str "b"); Redraw; Status 0 (str "z"); Exit 15; Suspend 20;
   Status 1 (str "a")].

(** The monitor of the example run once "working" is on its line. *)
Definition demo_monitor : Monitor := monitor (demo_state demo_working).

(** The line that summarises an exception in a status: the class name and,
    when there is one, the message. *)
Definition summary (e : exn) : pystr :=
  if decide (exn_str e = str "") then type_name e
  else type_name e ++ str ": " ++ exn_str e.

(** An exception of a worker function. *)
Definition demo_error : exn :=
  PyException (str "ValueError") (str "bad url") (str "  File ...").









(** A worker fails, and then [SIGTERM] comes. *)
Definition demo_failed_then_term : list label :=
  demo_working
  ++ [on_thread 100 (worker_raises demo_error); on_thread 100 internal;
      on_thread 100 internal; on_input (wakeup signal.SIGTERM)].

(** ** What one step puts on the queue, and who writes what *)

(** The tasks that one step of a worker in the place [p] puts on the
    queue. *)
Definition puts (s : System) (ident : Z) (p : pc) (a : action) (new : list Task) : Prop :=
  match p, a with
  | Running, call_report_status status =>
      ∃ i, _line_indexes (monitor s) !! ident = Some i ∧ new = [Status i status]
  | StopTest, internal =>
      if _stop_event (monitor s) then new = []
      else ∃ i, _line_indexes (monitor s) !! ident = Some i ∧ new = [Status i NUL]
  | Quiesce, internal =>
      new = if decide (_active_work_threads (monitor s) = 1) then [Done true] else []
  | PauseReport, internal =>
      ∃ i, _line_indexes (monitor s) !! ident = Some i ∧ new = [Status i NUL]
  | Except e, internal =>
      ∃ i, _line_indexes (monitor s) !! ident = Some i
        ∧ new = [Status i (str "*** Uncaught exception: "
                           ++ slice_to (format_exception_only_0 e) (-1))]
  | Finally _, internal =>
      new = if decide (_n_work_threads (monitor s) = 1) then [Done false] else []
  | _, _ => new = []
  end.

(** The number of [(_DONE, False)] entries waiting in the queue. *)
Definition done_false_count (m : Monitor) : nat :=
  length (filter (λ t, t = Done false) (_tasks m)).

(** What the output thread alone writes: the terminal, the two tables of
    lines, the banner text, the window size, the two events and the two
    local variables of its loop. *)
Definition display (m : Monitor) :=
  (calls m, _lines m, _line_attrs m, _addmsg m, _max_y m, _max_x m,
   _stop_event m, _pause_event m, old_addmsg m, exit_signal m).


(** The counters and tables of the worker bookkeeping. *)
Definition bookkeeping (m : Monitor) :=
  (_n_work_threads m, _active_work_threads m, _worker_exceptions m,
   _line_indexes m, _line_indexes_used m).

(** ** The rows of the terminal *)

(** A status line is drawn from the first column of a row below the top
    one, and the banner at the origin, in reverse video. *)
Definition on_its_row (c : Effect) : Prop :=
  match c with
  | scr_addnstr y x _ _ _ => 1 <= y ∧ x = 0
  | scr_addstr y x _ a => y = 0 ∧ x = 0 ∧ a = A_REVERSE
  | _ => True
  end.

Definition rows_ok (m : Monitor) : Prop := Forall on_its_row (calls m).



(** What a request to stop or to pause leaves behind it, apart from the
    window size and the calls of its redraw. *)
Definition request_state (m : Monitor) :=
  (_stop_event m, _pause_event m, exit_signal m, old_addmsg m, _addmsg m,
   _lines m, _line_attrs m).

(** ** Suspending the process *)



(** ** The report at the end *)

(** What the finally clause of the constructor writes on [sys.stderr]. *)
Definition fault_report (excs : gmap pystr exn) : list Effect :=
  tid ← sorted_keys excs;
  match excs !! tid with
  | Some e => exception_writes tid e
  | None => []
  end.

(** ** The content of a response *)

(** The chunks of a response, one after the other. *)
Definition content (chunks : list (bytes * bool)) : bytes := mjoin (fst <$> chunks).

(** ** Recording a run of results *)

Section recording.
Import DatabaseWorker.

(** The results of a list, recorded one after the other, each with what
    the database answers then. *)
Fixpoint record_all (results : list (CanonResult.t * answers)) (self : t) : t :=
  match results with
  | [] => self
  | (result, db) :: results' => record_all results' (record_canonized result db self)
  end.

(** The statements that one call of [record_canonized] executes. *)
Definition recorded (result : CanonResult.t) (db : answers) (self : t)
    : list statement :=
  let status := CanonResult.status result in
  let status_id := default (status_rowid db) (canon_statuses self !! status) in
  match canon_statuses self !! status with
  | Some _ => []
  | None => [insert_canon_status status]
  end
  ++ match CanonResult.anomaly result with
     | Some anomaly => [insert_anomaly (CanonResult.url_id result) status_id anomaly]
     | None => []
     end
  ++ match CanonResult.canon_url result with
     | Some canon_url =>
         select_url_string canon_url
         :: match url_row db with
            | Some _ => []
            | None => [insert_url_string canon_url]
            end
     | None => []
     end
  ++ [insert_canon_url (CanonResult.url_id result)
        (match CanonResult.canon_url result with
         | Some _ => Some (default (url_rowid db) (url_row db))
         | None => None
         end)
        status_id].

(** The number of insertions of [status] into [canon_statuses]. *)
Definition status_insertions (status : pystr) (stmts : list statement) : nat :=
  length (filter (λ stmt, stmt = insert_canon_status status) stmts).

(** The number of rows put into [canon_urls]. *)
Definition into_canon_urls (stmt : statement) : bool :=
  match stmt with
  | insert_canon_url _ _ _ => true
  | _ => false
  end.

Definition url_insertions (stmts : list statement) : nat :=
  length (filter (λ stmt, into_canon_urls stmt = true) stmts).

End recording.

(** ** The parts of a canonical URL *)

(** The port that [canonical_form] keeps in the network location. *)
Definition port_kept (port : option Z) : Prop :=
  ∃ n, port = Some n ∧ n ≠ 0 ∧ n ≠ 80.

(** Whether the parsed URL has a user name or a password. *)
Definition has_credentials (exploded : ParseResult.t) : Prop :=
  truthy (ParseResult.username exploded) = true
  ∨ truthy (ParseResult.password exploded) = true.

(** The codes that [process_one_response] takes as failures of the usual
    kind. *)
Definition normal_failures : list Z := [400; 401; 403; 404; 410; 500; 503].

(** ** More of the small run, and a response, for the examples *)

(** The worker of the example has returned and stands before the finally
    clause of its wrapper. *)
Definition demo_leaving : list label :=
  demo_working ++ [on_thread 100 worker_returns].



(** A [(_DONE, True)] in the queue of the example when nothing asked for
    a pause. *)
Definition demo_stray : Monitor := set_tasks (λ _, [Done true]) demo_monitor.

(** A redirection as [requests] would answer it, and the parts of
    [urllib.parse] and [requests.sessions] for it. *)
Definition demo_redirect : Response.t :=
  Response.mk 302 (str "Found") (str "http://a.example/")
    (mkHeaders [(str "location", str "http://b.example/")]
               (λ name, bool_decide (name = str "location")))
    (str "1.1") [].

Definition demo_urlparse (url : pystr) : exn + ParseResult.t :=
  inr (ParseResult.mk (str "http") None None (Some (str "a.example")) (inr None)
                      (str "") (str "") (str "") (str "")).

Definition demo_urlunparse (t : UrlTuple.t) : pystr :=
  UrlTuple.scheme t ++ str "://" ++ default [] (UrlTuple.netloc t) ++ UrlTuple.path t.

Definition demo_redirect_stati : list Z := [301; 302; 303; 307; 308].

(** * Lemmas *)

Import Banner.

(** ** The banner *)

Lemma len_app {A} (a b : list A) : len (a ++ b) = len a + len b.
Proof. unfold len. rewrite length_app. lia. Qed.

Lemma len_nonneg {A} (a : list A) : 0 <= len a.
Proof. unfold len. lia. Qed.

Lemma str_mul_single (c : N) (k : Z) : str_mul [c] k = replicate (Z.to_nat k) c.
Proof.
  unfold str_mul. induction (Z.to_nat k) as [|n IH]; simpl; [done|].
  by rewrite IH.
Qed.

Lemma replicate_snoc {A} (n : nat) (x : A) : replicate n x ++ [x] = replicate (S n) x.
Proof. induction n as [|n IH]; simpl; [done|]. by rewrite IH. Qed.

Lemma slice_from_rightmost (s : pystr) (w : Z) :
  len s > w → slice_from s (len s - w) = rightmost w s.
Proof.
  intros Hgt. unfold slice_from, rightmost, slice_bound, len in *.
  f_equal. destruct (Z.ltb_spec (Z.of_nat (length s) - w) 0); lia.
Qed.

Lemma slice_to_right_truncate (s : pystr) (k : Z) :
  0 < k → slice_to s (- k) = right_truncate k s.
Proof.
  intros Hk. unfold slice_to, right_truncate, slice_bound, len.
  f_equal. destruct (Z.ltb_spec (- k) 0); lia.
Qed.

Lemma centered_split (w : Z) (s : pystr) :
  len s <= w →
  centered w s =
    spaces (Z.to_nat ((w - len s) `div` 2)) ++ s
    ++ spaces (Z.to_nat ((w - len s) `div` 2) + Z.to_nat ((w - len s) `mod` 2)).
Proof.
  intros Hle. unfold centered, len in *. rewrite Nat.div2_div.
  assert (Z.to_nat ((w - Z.of_nat (length s)) `div` 2)
          = ((Z.to_nat w - length s) / 2)%nat) as ->.
  { rewrite <- (Nat2Z.id ((Z.to_nat w - length s) / 2)), Nat2Z.inj_div.
    do 2 f_equal. lia. }
  do 3 f_equal.
  assert (Z.to_nat ((w - Z.of_nat (length s)) `mod` 2)
          = ((Z.to_nat w - length s) mod 2)%nat) as ->.
  { rewrite <- (Nat2Z.id ((Z.to_nat w - length s) mod 2)), Nat2Z.inj_mod.
    do 2 f_equal. lia. }
  pose proof (Nat.div_mod_eq (Z.to_nat w - length s) 2). lia.
Qed.

Lemma banner_layout_refines (w : Z) (banner addmsg : pystr) :
  _compute_banner_internal banner addmsg w
  = banner_layout w banner (help_text banner addmsg).
Proof.
  unfold _compute_banner_internal, banner_layout, help_text.
  change (str "") with (@nil N). change (str ".") with [46%N].
  change (str " ") with [32%N].
  set (msg := if decide (banner = []) then addmsg else str ". " ++ addmsg).
  pose proof (len_nonneg msg) as Hmsg. pose proof (len_nonneg banner) as Hb.
  destruct (decide (len msg > w)) as [Hlong|Hfit].
  { by apply slice_from_rightmost. }
  destruct (decide (banner ≠ [])) as [Hne|Hempty].
  - destruct (decide (len banner + len msg > w)) as [Hover|Hroom].
    + destruct (decide (len banner <= 2)).
      { rewrite slice_to_right_truncate by lia. done. }
      destruct (decide (w - len msg <= 2)).
      { by rewrite str_mul_single. }
      rewrite slice_to_right_truncate by lia. done.
    + rewrite centered_split by (rewrite len_app; lia).
      rewrite !len_app, !str_mul_single. unfold spaces.
      change (N_of_ascii " ") with 32%N.
      destruct (decide (w - (len banner + len msg) = 0)) as [Hz|Hnz].
      { rewrite Hz. simpl. by rewrite app_nil_r. }
      destruct (decide ((w - (len banner + len msg)) `mod` 2 = 0)) as [He|Ho].
      { rewrite He. simpl. by rewrite Nat.add_0_r. }
      assert ((w - (len banner + len msg)) `mod` 2 = 1) as ->
        by (pose proof (Z.mod_pos_bound (w - (len banner + len msg)) 2); lia).
      simpl. rewrite Nat.add_1_r, replicate_snoc. done.
  - assert (banner = []) as -> by (destruct banner; [done|by destruct Hempty]).
    destruct (decide (len (@nil N) + len msg > w)) as [Hover|_].
    { unfold len in Hover at 1. simpl in Hover. lia. }
    simpl. rewrite centered_split by lia.
    rewrite !str_mul_single. unfold spaces. change (N_of_ascii " ") with 32%N.
    destruct (decide (w - len msg = 0)) as [Hz|Hnz].
    { rewrite Hz. simpl. by rewrite app_nil_r. }
    destruct (decide ((w - len msg) `mod` 2 = 0)) as [He|Ho].
    { rewrite He. simpl. by rewrite Nat.add_0_r. }
    assert ((w - len msg) `mod` 2 = 1) as ->
      by (pose proof (Z.mod_pos_bound (w - len msg) 2); lia).
    simpl. rewrite Nat.add_1_r, replicate_snoc. done.
Qed.

(** ** The order of the tasks and the queue *)

Lemma lex_refl a : lex a a = Eq.
Proof. induction a as [|x a IH]; simpl; [done|]. by rewrite Z.compare_refl. Qed.

Lemma lex_eq a b : lex a b = Eq → a = b.
Proof.
  revert b. induction a as [|x a IH]; intros [|y b]; simpl; try done.
  destruct (Z.compare_spec x y); try done. intros. f_equal; auto.
Qed.

Lemma lex_antisym a b : lex b a = CompOpp (lex a b).
Proof.
  revert b. induction a as [|x a IH]; intros [|y b]; simpl; try done.
  rewrite (Z.compare_antisym x y).
  destruct (Z.compare x y); simpl; auto.
Qed.

Lemma lex_lt_trans a b c : lex a b = Lt → lex b c = Lt → lex a c = Lt.
Proof.
  revert b c. induction a as [|x a IH]; intros [|y b] [|z c]; simpl; try done.
  destruct (Z.compare_spec x y), (Z.compare_spec y z); try done; subst.
  - rewrite Z.compare_refl. eauto.
  - intros _ _. by destruct (Z.compare_spec y z); try lia.
  - intros _ _. by destruct (Z.compare_spec x z); try lia.
  - intros _ _. by destruct (Z.compare_spec x z); try lia.
Qed.

Lemma str_compare_lex a b : str_compare a b = lex (Z.of_N <$> a) (Z.of_N <$> b).
Proof.
  revert b. induction a as [|x a IH]; intros [|y b]; csimpl; try done.
  rewrite N2Z.inj_compare, IH. done.
Qed.

Lemma task_compare_key t u : task_compare t u = lex (key t) (key u).
Proof.
  destruct t as [i a| |s1|s1|b1], u as [j b| |s2|s2|b2];
    simpl; try reflexivity; unfold task_compare; simpl.
  - rewrite Nat2Z.inj_compare, str_compare_lex. done.
  - by destruct (Z.compare s1 s2).
  - by destruct (Z.compare s1 s2).
  - unfold bool_compare. by destruct (Z.compare _ _).
Qed.

Lemma key_inj t u : key t = key u → t = u.
Proof.
  destruct t as [i a| |s1|s1|b1], u as [j b| |s2|s2|b2];
    simpl; intros H; simplify_eq; try done.
  f_equal. by destruct b1, b2.
Qed.

Lemma task_compare_refl t : task_compare t t = Eq.
Proof. rewrite task_compare_key. apply lex_refl. Qed.

Lemma task_compare_eq t u : task_compare t u = Eq → t = u.
Proof. rewrite task_compare_key. intros. by apply key_inj, lex_eq. Qed.

Lemma task_compare_antisym t u : task_compare u t = CompOpp (task_compare t u).
Proof. rewrite !task_compare_key. apply lex_antisym. Qed.

Lemma task_le_refl t : task_le t t.
Proof. unfold task_le. by rewrite task_compare_refl. Qed.

Lemma task_le_total t u : task_le t u ∨ task_le u t.
Proof.
  unfold task_le. rewrite (task_compare_antisym t u).
  destruct (task_compare t u); simpl; auto.
Qed.

Lemma task_le_trans t u v : task_le t u → task_le u v → task_le t v.
Proof.
  unfold task_le. intros Htu Huv.
  destruct (task_compare t u) eqn:E1; [|clear Htu|done].
  { apply task_compare_eq in E1. by subst. }
  destruct (task_compare u v) eqn:E2; [|clear Huv|done].
  { apply task_compare_eq in E2. subst. by rewrite E1. }
  rewrite task_compare_key in *. by rewrite (lex_lt_trans _ _ _ E1 E2).
Qed.

Lemma task_le_code t u : task_le t u → code t <= code u.
Proof.
  unfold task_le, task_compare. destruct (Z.compare_spec (code t) (code u)); lia || done.
Qed.

Lemma code_lt_task_lt t u : code t < code u → task_lt t u.
Proof.
  unfold task_lt, task_compare. intros H.
  by destruct (Z.compare_spec (code t) (code u)); try lia.
Qed.

Lemma status_index_order i j a b : (i < j)%nat → task_lt (Status i a) (Status j b).
Proof.
  intros H. unfold task_lt, task_compare. simpl.
  by destruct (Nat.compare_spec i j); try lia.
Qed.

Lemma task_min_le_l t u : task_le (task_min t u) t.
Proof.
  unfold task_min, task_le. destruct (task_compare u t) eqn:E.
  - by rewrite task_compare_refl.
  - by rewrite E.
  - by rewrite task_compare_refl.
Qed.

Lemma task_min_le_r t u : task_le (task_min t u) u.
Proof.
  unfold task_min, task_le. destruct (task_compare u t) eqn:E.
  - rewrite (task_compare_antisym u t), E. done.
  - by rewrite task_compare_refl.
  - rewrite (task_compare_antisym u t), E. done.
Qed.

Lemma task_min_cases t u : task_min t u = t ∨ task_min t u = u.
Proof. unfold task_min. destruct (task_compare u t); auto. Qed.

Lemma foldl_task_min q x :
  let m := foldl task_min x q in
  m ∈ x :: q ∧ task_le m x ∧ ∀ u, u ∈ q → task_le m u.
Proof.
  revert x. induction q as [|y q IH]; intros x; simpl.
  { split; [set_solver|]. split; [apply task_le_refl|]. intros u Hu. by apply elem_of_nil in Hu. }
  destruct (IH (task_min x y)) as (Hin & Hle & Hall).
  split.
  { apply elem_of_cons in Hin as [->|Hin]; [|set_solver].
    destruct (task_min_cases x y) as [->| ->]; set_solver. }
  split.
  { eapply task_le_trans; [exact Hle|apply task_min_le_l]. }
  intros u [->|Hu]%elem_of_cons; [|by apply Hall].
  eapply task_le_trans; [exact Hle|apply task_min_le_r].
Qed.

Lemma remove_first_perm t q : t ∈ q → q ≡ₚ t :: remove_first t q.
Proof.
  induction q as [|u q IH]; intros Hin; [by apply elem_of_nil in Hin|].
  simpl. destruct (decide (u = t)) as [->|Hne]; [done|].
  apply elem_of_cons in Hin as [->|Hin]; [done|].
  rewrite (IH Hin) at 1. apply perm_swap.
Qed.

Lemma get_spec q t q' :
  PriorityQueue.get q = Some (t, q') →
  t ∈ q ∧ q ≡ₚ t :: q' ∧ ∀ u, u ∈ q → task_le t u.
Proof.
  destruct q as [|x q]; [done|]. unfold PriorityQueue.get.
  destruct (foldl_task_min q x) as (Hin & Hle & Hall).
  intros [= <- <-]. split; [done|]. split; [by apply remove_first_perm|].
  intros u [->|Hu]%elem_of_cons; auto.
Qed.

Lemma get_nonempty q x : x ∈ q → is_Some (PriorityQueue.get q).
Proof. destruct q; [by intros ?%elem_of_nil|]. intros _. by eexists. Qed.

Lemma get_exit_first q sig :
  Exit sig ∈ q → ∃ sig' q', PriorityQueue.get q = Some (Exit sig', q').
Proof.
  intros Hin. destruct (get_nonempty _ _ Hin) as [[t q'] Hget].
  destruct (get_spec _ _ _ Hget) as (_ & _ & Hall).
  specialize (Hall _ Hin). apply task_le_code in Hall.
  destruct t; simpl in Hall; try (unfold _STATUS, _REDRAW, _SUSPEND, _DONE, _EXIT in Hall; lia).
  eauto.
Qed.

Lemma drain_spec n q :
  length q = n →
  PriorityQueue.drain n q ≡ₚ q ∧ StronglySorted task_le (PriorityQueue.drain n q).
Proof.
  revert q. induction n as [|n IH]; intros q Hlen.
  { destruct q; [|done]. simpl. split; [done|constructor]. }
  simpl. destruct q as [|x q0]; [done|].
  destruct (PriorityQueue.get (x :: q0)) as [[t q']|] eqn:Hget; [|done].
  destruct (get_spec _ _ _ Hget) as (Hin & Hperm & Hall).
  assert (length q' = n) as Hlen'.
  { apply Permutation_length in Hperm. simpl in *. lia. }
  destruct (IH q' Hlen') as [Hp Hs].
  split; [by rewrite Hp, Hperm|].
  constructor; [done|]. apply Forall_forall. intros u Hu.
  apply Hall. rewrite Hperm. rewrite Hp in Hu. set_solver.
Qed.

(** ** Rendering a status *)

(** Unfolding the monad. *)
Ltac run_monad :=
  repeat (progress (unfold mbind, M_bind, mret, M_ret, gets, modify, emit, raise,
                      getitem, setitem, encode, die, kill_self; simpl)).

Lemma do_status_NUL idx m :
  tables_ok m →
  ∃ m', _do_status idx NUL m = Normal tt m'
    ∧ _lines m' = _lines m ++ padding idx m []
    ∧ _line_attrs m' = <[idx:=A_NORMAL]> (_line_attrs m ++ padding idx m A_NORMAL)
    ∧ _encoding m' = _encoding m ∧ _max_y m' = _max_y m ∧ _max_x m' = _max_x m
    ∧ ∃ line, _lines m' !! idx = Some line
       ∧ calls m' = calls m ++ drawn idx m line A_NORMAL.
Proof.
  intros Hok. unfold tables_ok in Hok. unfold _do_status, padding, drawn.
  run_monad.
  rewrite decide_True; last first.
  { rewrite length_app, length_replicate. lia. }
  run_monad.
  assert (is_Some ((_lines m ++ replicate (S idx - length (_lines m)) []) !! idx)) as [line Hline].
  { apply lookup_lt_is_Some. rewrite length_app, length_replicate. lia. }
  destruct (decide (_max_y m - 1 - Z.of_nat idx < 1)); run_monad.
  { eexists. split; [done|]. simpl. repeat split; try done.
    exists line. by rewrite app_nil_r. }
  rewrite Hline. run_monad. rewrite list_lookup_insert_eq; last first.
  { rewrite length_app, length_replicate. lia. }
  run_monad. eexists. split; [done|]. simpl. repeat split; try done.
  exists line. split; [done|]. by rewrite <- !app_assoc.
Qed.


(** ** What the output thread leaves alone *)

Section keeps.
Context {V : Type} (view : Monitor → V).

Lemma keeps_ret {A} (a : A) : keeps view (mret a).
Proof. by intros m. Qed.
Lemma keeps_raise {A} e : keeps view (@raise A e).
Proof. by intros m. Qed.
Lemma keeps_die {A} sig : keeps view (@die A sig).
Proof. by intros m. Qed.
Lemma keeps_gets {A} (f : Monitor → A) : keeps view (gets f).
Proof. by intros m. Qed.
Lemma keeps_modify f : (∀ m, view (f m) = view m) → keeps view (modify f).
Proof. intros H m. apply H. Qed.
Lemma keeps_bind {A B} (c : M A) (k : A → M B) :
  keeps view c → (∀ a, keeps view (k a)) → keeps view (c ≫= k).
Proof.
  intros Hc Hk m. unfold mbind, M_bind. specialize (Hc m).
  destruct (c m) as [a m'|e m'|sig m']; [|done|done].
  specialize (Hk a m'). destruct (k a m'); congruence.
Qed.
Lemma keeps_for_each {A} (l : list A) body :
  (∀ x, keeps view (body x)) → keeps view (for_each l body).
Proof.
  intros H. induction l as [|x l IH]; simpl; [apply keeps_ret|].
  apply keeps_bind; auto.
Qed.
End keeps.

Ltac head_of t :=
  lazymatch t with
  | ?f _ => head_of f
  | _ => t
  end.

(** One step through the syntax of a command. *)
Ltac keeps_step :=
  lazymatch goal with
  | |- keeps _ (mret _) => apply keeps_ret
  | |- keeps _ (raise _) => apply keeps_raise
  | |- keeps _ (die _) => apply keeps_die
  | |- keeps _ (gets _) => apply keeps_gets
  | |- keeps _ (modify _) => apply keeps_modify; intros ?; reflexivity
  | |- keeps _ (for_each _ _) => apply keeps_for_each; intros ?
  | |- keeps _ (mbind _ _) => apply keeps_bind; [|intros ?]
  | |- keeps _ (if ?c then _ else _) => destruct c
  | |- keeps _ (match ?x with _ => _ end) => destruct x
  | |- keeps _ ?c => let h := head_of c in unfold h
  end.
Ltac keeps := repeat keeps_step.

Lemma keeps_shared_dispatch size task : keeps shared (dispatch size task).
Proof. destruct task as [idx text| | sig | sig | [|]]; keeps. Qed.

Lemma keeps_shared_except_clause size e : keeps shared (except_clause size e).
Proof. keeps. Qed.

Lemma keeps_shared_prologue : keeps shared output_thread_prologue.
Proof. keeps. Qed.


Lemma keeps_events_do_redraw size : keeps events (_do_redraw size).
Proof. keeps. Qed.

Lemma loop_round_shared size m m' :
  loop_round size m = Continue m' →
  ∃ task rest, PriorityQueue.get (_tasks m) = Some (task, rest)
    ∧ shared m' = shared (set_tasks (λ _, rest) m).
Proof.
  unfold loop_round. destruct (PriorityQueue.get (_tasks m)) as [[task rest]|]; [|done].
  intros H. exists task, rest. split; [done|].
  pose proof (keeps_shared_dispatch size task (set_tasks (λ _, rest) m)) as Hd.
  destruct (dispatch size task _) as [[|] m1|e m1|sig m1]; simpl in Hd.
  { injection H as <-. exact Hd. }
  { done. }
  2: { done. }
  pose proof (keeps_shared_except_clause size e m1) as He.
  destruct (except_clause size e m1) as [? m2|? m2|? m2]; simpl in He; [|done|done].
  injection H as <-. congruence.
Qed.

(** ** The search for a line index *)

Lemma search_index_found fuel used i k :
  search_index fuel used i = Some k →
  (i <= k)%nat ∧ (k ∉ used) ∧ ∀ j, (i <= j)%nat → (j < k)%nat → j ∈ used.
Proof.
  revert i. induction fuel as [|fuel IH]; intros i; simpl; [done|].
  destruct (decide (i ∈ used)) as [Hin|Hout].
  - intros H. destruct (IH _ H) as (Hle & Hk & Hbelow).
    split; [lia|]. split; [done|]. intros j Hj1 Hj2.
    destruct (decide (j = i)) as [->|]; [done|]. apply Hbelow; lia.
  - intros [= <-]. split; [lia|]. split; [done|]. intros j Hj1 Hj2. lia.
Qed.

Lemma search_index_none fuel used i :
  search_index fuel used i = None →
  ∀ j, (i <= j)%nat → (j < i + fuel)%nat → j ∈ used.
Proof.
  revert i. induction fuel as [|fuel IH]; intros i; simpl; [intros _ j ??; lia|].
  destruct (decide (i ∈ used)) as [Hin|Hout]; [|done].
  intros H j Hj1 Hj2. destruct (decide (j = i)) as [->|]; [done|].
  apply (IH _ H); lia.
Qed.

Lemma search_index_total used :
  ∃ k, search_index (S (size used)) used 0 = Some k
    ∧ (k ∉ used) ∧ ∀ j, (j < k)%nat → j ∈ used.
Proof.
  destruct (search_index (S (size used)) used 0) as [k|] eqn:H.
  - destruct (search_index_found _ _ _ _ H) as (_ & Hk & Hbelow).
    exists k. split; [done|]. split; [done|]. intros j Hj. apply Hbelow; lia.
  - exfalso. pose proof (search_index_none _ _ _ H) as Hall.
    assert (set_seq 0 (S (size used)) ⊆ used) as Hsub.
    { intros j Hj. apply elem_of_set_seq in Hj. apply Hall; lia. }
    apply subseteq_size in Hsub. rewrite size_set_seq in Hsub. lia.
Qed.

(** ** The worker wrapper and the public API, field by field *)

Lemma report_status_indexed ident status m idx :
  _line_indexes m !! ident = Some idx →
  report_status ident status m
  = Normal tt (set_tasks (PriorityQueue.put (Status idx status)) m).
Proof. intros H. unfold report_status. run_monad. by rewrite H. Qed.

Lemma work_thread_enter_spec ident m :
  ∃ i, work_thread_enter ident m
       = Some (set_line_indexes_used (λ u, {[i]} ∪ u)
                (set_line_indexes (λ d, <[ident:=i]> d)
                  (set_active_work_threads (λ n, n + 1)
                    (set_n_work_threads (λ n, n + 1) m))))
    ∧ (i ∉ _line_indexes_used m)
    ∧ ∀ j, (j < i)%nat → j ∈ _line_indexes_used m.
Proof.
  destruct (search_index_total (_line_indexes_used m)) as (i & Hi & Hout & Hbelow).
  exists i. split; [|done]. unfold work_thread_enter.
  change (_line_indexes_used (set_active_work_threads _ _))
    with (_line_indexes_used m).
  by rewrite Hi.
Qed.

Lemma work_thread_finally_spec ident m i :
  _line_indexes m !! ident = Some i → i ∈ _line_indexes_used m →
  work_thread_finally ident m
  = Normal tt
      ((if decide (_n_work_threads m - 1 = 0)
        then set_tasks (PriorityQueue.put (Done false)) else id)
         (set_active_work_threads (λ n, n - 1)
           (set_n_work_threads (λ n, n - 1)
             (set_line_indexes_used (λ u, u ∖ {[i]})
               (set_line_indexes (λ d, delete ident d) m))))).
Proof.
  intros Hi Hused. unfold work_thread_finally. run_monad. rewrite Hi. run_monad.
  rewrite decide_True by done. run_monad.
  by destruct (decide (_n_work_threads m - 1 = 0)).
Qed.

Lemma work_thread_except_spec name ident e m idx :
  _line_indexes m !! ident = Some idx →
  work_thread_except name ident e m
  = Normal tt
      (set_tasks
         (PriorityQueue.put
            (Status idx (str "*** Uncaught exception: "
                         ++ slice_to (format_exception_only_0 e) (-1))))
         (set_worker_exceptions (λ d, <[name:=e]> d) m)).
Proof.
  intros H. unfold work_thread_except, report_status. run_monad. by rewrite H.
Qed.

(** ** Counting threads *)

Section size_filter.
Context (Q : Z * thread → Prop) `{!∀ x, Decision (Q x)}.

Lemma size_filter_delete (ths : gmap Z thread) i th :
  ths !! i = Some th →
  size (filter Q ths)
  = (size (filter Q (delete i ths)) + if decide (Q (i, th)) then 1 else 0)%nat.
Proof.
  intros Hi. rewrite map_filter_delete, map_size_delete.
  destruct (decide (Q (i, th))) as [HQ|HQ].
  - rewrite (map_lookup_filter_Some_2 Q ths i th Hi HQ). simpl.
    assert (size (filter Q ths) ≠ 0%nat); [|lia].
    apply map_size_ne_0_lookup. exists i.
    rewrite (map_lookup_filter_Some_2 Q ths i th Hi HQ). by eexists.
  - assert (filter Q ths !! i = None) as ->; [|simpl; lia].
    apply map_lookup_filter_None. right. intros x Hx. by simplify_eq.
Qed.

Lemma size_filter_insert_fresh (ths : gmap Z thread) i th' :
  ths !! i = None →
  size (filter Q (<[i:=th']> ths))
  = (size (filter Q ths) + if decide (Q (i, th')) then 1 else 0)%nat.
Proof.
  intros Hi. destruct (decide (Q (i, th'))) as [HQ|HQ].
  - rewrite map_filter_insert_True by done.
    rewrite map_size_insert_None; [lia|].
    apply map_lookup_filter_None. by left.
  - rewrite map_filter_insert_False by done.
    rewrite delete_id by done. lia.
Qed.

Lemma size_filter_insert (ths : gmap Z thread) i th th' :
  ths !! i = Some th →
  (size (filter Q (<[i:=th']> ths)) + (if decide (Q (i, th)) then 1 else 0)
   = size (filter Q ths) + if decide (Q (i, th')) then 1 else 0)%nat.
Proof.
  intros Hi. rewrite (size_filter_delete ths i th Hi).
  rewrite <- (insert_delete_eq ths).
  rewrite size_filter_insert_fresh by apply lookup_delete_eq. lia.
Qed.
End size_filter.

Lemma b2n_decide (b : bool) : (if decide (b = true) then 1 else 0)%nat = Nat.b2n b.
Proof. by destruct b. Qed.

Lemma count_threads_insert P ths i th th' :
  ths !! i = Some th →
  (count_threads P (<[i:=th']> ths) + Nat.b2n (P (at_pc th))
   = count_threads P ths + Nat.b2n (P (at_pc th')))%nat.
Proof.
  intros Hi. unfold count_threads.
  pose proof (size_filter_insert (λ kv, P (at_pc kv.2) = true) ths i th th' Hi) as H.
  simpl in H. by rewrite !b2n_decide in H.
Qed.

Lemma count_threads_insert_new P ths i th' :
  ths !! i = None →
  count_threads P (<[i:=th']> ths)
  = (count_threads P ths + Nat.b2n (P (at_pc th')))%nat.
Proof.
  intros Hi. unfold count_threads.
  pose proof (size_filter_insert_fresh (λ kv, P (at_pc kv.2) = true) ths i th' Hi) as H.
  simpl in H. by rewrite !b2n_decide in H.
Qed.

Lemma count_threads_release P ths :
  P Sleeping = P Reactivate →
  count_threads P (release <$> ths) = count_threads P ths.
Proof.
  intros HP. unfold count_threads. rewrite map_filter_fmap, map_size_fmap.
  f_equal. apply map_filter_ext. intros i th _. simpl.
  unfold release. destruct (at_pc th) eqn:E; simpl; rewrite ?E; try done.
  by rewrite HP.
Qed.

(** ** The invariant of the worker bookkeeping *)

Lemma Inv_monitor s m' :
  Inv s →
  _line_indexes m' = _line_indexes (monitor s) →
  _line_indexes_used m' = _line_indexes_used (monitor s) →
  _n_work_threads m' = _n_work_threads (monitor s) →
  _active_work_threads m' = _active_work_threads (monitor s) →
  Inv (mkSystem m' (threads s)).
Proof.
  intros [H1 H2 H3 H4 H5] E1 E2 E3 E4.
  split; simpl; rewrite ?E1, ?E2, ?E3, ?E4; auto.
Qed.

(** A live thread moves to another place where it is live. *)
Lemma Inv_goto s ident th p' m' :
  Inv s →
  threads s !! ident = Some th →
  live (at_pc th) = true → live p' = true →
  _line_indexes m' = _line_indexes (monitor s) →
  _line_indexes_used m' = _line_indexes_used (monitor s) →
  _n_work_threads m' = _n_work_threads (monitor s) →
  _active_work_threads m' + Z.b2z (counted (at_pc th))
  = _active_work_threads (monitor s) + Z.b2z (counted p') →
  Inv (mkSystem m' (<[ident := mkThread (name th) p']> (threads s))).
Proof.
  intros [H1 H2 H3 H4 H5] Hth Hlive Hlive' E1 E2 E3 E4.
  split; simpl; rewrite ?E1, ?E2, ?E3; auto.
  - intros j. rewrite H1. destruct (decide (j = ident)) as [->|Hne].
    + rewrite lookup_insert_eq. split; intros _; eauto.
    + by rewrite lookup_insert_ne.
  - pose proof (count_threads_insert live _ ident th (mkThread (name th) p') Hth) as Hc.
    simpl in Hc. rewrite Hlive, Hlive' in Hc. lia.
  - pose proof (count_threads_insert counted _ ident th (mkThread (name th) p') Hth) as Hc.
    simpl in Hc. destruct (counted (at_pc th)), (counted p'); simpl in *; lia.
Qed.

Lemma Inv_indexed_live s ident th :
  Inv s → threads s !! ident = Some th → live (at_pc th) = true →
  ∃ i, _line_indexes (monitor s) !! ident = Some i
       ∧ i ∈ _line_indexes_used (monitor s).
Proof.
  intros HI Hth Hlive.
  destruct (proj2 (inv_indexed s HI ident)) as [i Hi]; [eauto|].
  exists i. split; [done|]. apply (inv_used s HI). eauto.
Qed.

Lemma Inv_enter s ident th :
  Inv s → threads s !! ident = Some th → at_pc th = Created →
  ∀ m', work_thread_enter ident (monitor s) = Some m' →
  Inv (mkSystem m' (<[ident := mkThread (name th) Running]> (threads s))).
Proof.
  intros [H1 H2 H3 H4 H5] Hth Hpc m' Hm'.
  destruct (work_thread_enter_spec ident (monitor s)) as (i & Heq & Hfresh & _).
  rewrite Heq in Hm'. injection Hm' as <-.
  assert (_line_indexes (monitor s) !! ident = None) as Hnone.
  { apply eq_None_not_Some. rewrite H1. intros (th' & ? & Hl). simplify_eq.
    by rewrite Hpc in Hl. }
  assert (∀ t, _line_indexes (monitor s) !! t ≠ Some i) as Hnot.
  { intros t Ht. apply Hfresh, H3. eauto. }
  split; simpl.
  - intros j. destruct (decide (j = ident)) as [->|Hne].
    + rewrite !lookup_insert_eq. split; intros _; eauto.
    + rewrite !lookup_insert_ne by done. apply H1.
  - intros t u k. destruct (decide (t = ident)) as [->|Ht], (decide (u = ident)) as [->|Hu];
      rewrite ?lookup_insert_eq, ?lookup_insert_ne by done; try done.
    + intros [= <-] Hu'. by destruct (Hnot u).
    + intros Ht' [= <-]. by destruct (Hnot t).
    + apply H2.
  - intros k. rewrite elem_of_union, elem_of_singleton, H3. split.
    + intros [->|[t Ht]].
      * exists ident. by rewrite lookup_insert_eq.
      * exists t. rewrite lookup_insert_ne; [done|]. intros ->. congruence.
    + intros [t Ht]. destruct (decide (t = ident)) as [->|Hne].
      * rewrite lookup_insert_eq in Ht. left. congruence.
      * rewrite lookup_insert_ne in Ht by done. eauto.
  - pose proof (count_threads_insert live _ ident th (mkThread (name th) Running) Hth) as Hc.
    simpl in Hc. rewrite Hpc in Hc. simpl in Hc. lia.
  - pose proof (count_threads_insert counted _ ident th (mkThread (name th) Running) Hth) as Hc.
    simpl in Hc. rewrite Hpc in Hc. simpl in Hc. lia.
Qed.

Lemma Inv_finally s ident th pending i r :
  Inv s → threads s !! ident = Some th → at_pc th = Finally pending →
  _line_indexes (monitor s) !! ident = Some i →
  ∀ m', work_thread_finally ident (monitor s) = Normal tt m' →
  Inv (mkSystem m' (<[ident := mkThread (name th) (Ended r)]> (threads s))).
Proof.
  intros HI Hth Hpc Hi m' Hm'. pose proof HI as [H1 H2 H3 H4 H5].
  assert (i ∈ _line_indexes_used (monitor s)) as Hused by (apply H3; eauto).
  rewrite (work_thread_finally_spec _ _ _ Hi Hused) in Hm'. injection Hm' as <-.
  set (m1 := set_active_work_threads _ _).
  assert (Inv (mkSystem m1 (<[ident := mkThread (name th) (Ended r)]> (threads s)))) as HI1.
  { split; simpl.
    - intros j. destruct (decide (j = ident)) as [->|Hne].
      + rewrite lookup_delete_eq, lookup_insert_eq. split.
        * by intros [? ?].
        * by intros (? & [= <-] & ?).
      + rewrite lookup_delete_ne, lookup_insert_ne by done. apply H1.
    - intros t u k Ht Hu. apply lookup_delete_Some in Ht as [_ Ht].
      apply lookup_delete_Some in Hu as [_ Hu]. eauto.
    - intros k. rewrite elem_of_difference, elem_of_singleton, H3. split.
      + intros [[t Ht] Hk]. exists t. rewrite lookup_delete_ne; [done|].
        intros ->. congruence.
      + intros [t Ht]. apply lookup_delete_Some in Ht as [Hne Ht].
        split; [eauto|]. intros ->. apply Hne. eauto.
    - pose proof (count_threads_insert live _ ident th (mkThread (name th) (Ended r)) Hth) as Hc.
      simpl in Hc. rewrite Hpc in Hc. simpl in Hc. lia.
    - pose proof (count_threads_insert counted _ ident th (mkThread (name th) (Ended r)) Hth) as Hc.
      simpl in Hc. rewrite Hpc in Hc. simpl in Hc. lia. }
  destruct (decide (_n_work_threads (monitor s) - 1 = 0)); [|exact HI1].
  by apply (Inv_monitor _ _ HI1).
Qed.

Lemma Inv_spawn s ident' name' :
  Inv s → ident_free (threads s) ident' = true →
  Inv (mkSystem (monitor s) (<[ident' := mkThread name' Created]> (threads s))).
Proof.
  intros [H1 H2 H3 H4 H5] Hfree. unfold ident_free in Hfree.
  split; simpl; auto.
  - intros j. rewrite H1. destruct (decide (j = ident')) as [->|Hne].
    + rewrite lookup_insert_eq. split.
      * intros (th & Hth & Hl). rewrite Hth in Hfree.
        destruct (at_pc th); done.
      * by intros (? & [= <-] & ?).
    + by rewrite lookup_insert_ne.
  - destruct (threads s !! ident') as [th|] eqn:Hth.
    + pose proof (count_threads_insert live _ ident' th (mkThread name' Created) Hth) as Hc.
      destruct (at_pc th); try done; simpl in Hc; lia.
    + rewrite count_threads_insert_new by done. simpl. lia.
  - destruct (threads s !! ident') as [th|] eqn:Hth.
    + pose proof (count_threads_insert counted _ ident' th (mkThread name' Created) Hth) as Hc.
      destruct (at_pc th); try done; simpl in Hc; lia.
    + rewrite count_threads_insert_new by done. simpl. lia.
Qed.

Lemma Inv_release s :
  Inv s → Inv (mkSystem (monitor s) (release <$> threads s)).
Proof.
  intros [H1 H2 H3 H4 H5]. split; simpl; auto.
  - intros j. rewrite H1, lookup_fmap. split.
    + intros (th & -> & Hl). exists (release th). split; [done|].
      unfold release. destruct (at_pc th) eqn:E; simpl; by rewrite ?E.
    + intros (th' & Hth' & Hl). destruct (threads s !! j) as [th|]; [|done].
      exists th. split; [done|]. simpl in Hth'. injection Hth' as <-.
      unfold release in Hl. destruct (at_pc th) eqn:E; simpl in Hl; by rewrite ?E in Hl.
  - by rewrite count_threads_release.
  - by rewrite count_threads_release.
Qed.

Lemma leave_worker_fn_live e : live (leave_worker_fn e) = true.
Proof. unfold leave_worker_fn. by destruct (is_Exception e). Qed.
Lemma leave_worker_fn_counted e : counted (leave_worker_fn e) = true.
Proof. unfold leave_worker_fn. by destruct (is_Exception e). Qed.

Lemma thread_step_Inv ident a s s' :
  Inv s → thread_step ident a s = Some s' → Inv s'.
Proof.
  intros HI. unfold thread_step.
  destruct (threads s !! ident) as [th|] eqn:Hth; [|done]. simpl.
  destruct (at_pc th) eqn:Hpc, a; try done; simpl.
  - (* Created *)
    destruct (work_thread_enter ident (monitor s)) as [m'|] eqn:Hm'; [|done].
    simpl. intros [= <-]. by eapply Inv_enter.
  - (* report_status *)
    destruct (Inv_indexed_live s ident th HI Hth) as (i & Hi & _); [by rewrite Hpc|].
    rewrite (report_status_indexed _ _ _ _ Hi). intros [= <-].
    apply Inv_goto; rewrite ?Hpc; try done.
  - intros [= <-]. apply Inv_goto; rewrite ?Hpc; try done.
  - destruct (ident_free (threads s) ident0 && bool_decide (ident0 ≠ ident)) eqn:Hfree; [|done].
    apply andb_true_iff in Hfree as [Hfree _]. intros [= <-]. by apply Inv_spawn.
  - intros [= <-]. apply Inv_goto; rewrite ?Hpc; try done.
  - intros [= <-]. apply Inv_goto; rewrite ?Hpc, ?leave_worker_fn_live, ?leave_worker_fn_counted; try done.
  - (* StopTest *)
    destruct (Inv_indexed_live s ident th HI Hth) as (i & Hi & _); [by rewrite Hpc|].
    rewrite (report_status_indexed _ _ _ _ Hi).
    destruct (_stop_event (monitor s)); simpl; intros [= <-];
      apply Inv_goto; rewrite ?Hpc, ?leave_worker_fn_live, ?leave_worker_fn_counted; try done.
  - destruct (_pause_event (monitor s)); simpl; intros [= <-];
      apply Inv_goto; rewrite ?Hpc; try done.
  - (* Quiesce *)
    intros [= <-]. apply Inv_goto; rewrite ?Hpc; try done;
      destruct (decide _); simpl; try done; lia.
  - (* PauseReport *)
    destruct (Inv_indexed_live s ident th HI Hth) as (i & Hi & _); [by rewrite Hpc|].
    rewrite (report_status_indexed _ _ _ _ Hi). intros [= <-].
    apply Inv_goto; rewrite ?Hpc; try done.
  - destruct (_pause_event (monitor s)); simpl; intros [= <-];
      apply Inv_goto; rewrite ?Hpc; try done.
  - (* Reactivate *)
    intros [= <-]. apply Inv_goto; rewrite ?Hpc; try done. simpl. lia.
  - (* Except *)
    destruct (Inv_indexed_live s ident th HI Hth) as (i & Hi & _); [by rewrite Hpc|].
    rewrite (work_thread_except_spec _ _ _ _ _ Hi). intros [= <-].
    apply Inv_goto; rewrite ?Hpc; try done.
  - (* Finally *)
    destruct (Inv_indexed_live s ident th HI Hth) as (i & Hi & Hu); [by rewrite Hpc|].
    pose proof (work_thread_finally_spec _ _ _ Hi Hu) as Hspec.
    rewrite Hspec. intros [= <-]. by eapply Inv_finally.
Qed.

Lemma put_task_shared t m :
  let m' := set_tasks (PriorityQueue.put t) m in
  _line_indexes m' = _line_indexes m
  ∧ _line_indexes_used m' = _line_indexes_used m
  ∧ _n_work_threads m' = _n_work_threads m
  ∧ _active_work_threads m' = _active_work_threads m.
Proof. done. Qed.

Lemma input_step_Inv ev s : Inv s → Inv (input_step ev s).
Proof.
  intros HI. unfold input_step.
  destruct ev as [ch|sig]; unfold handle_input_char, handle_signal_char;
    repeat (destruct (decide _)); run_monad; by apply Inv_monitor.
Qed.

Lemma output_step_Inv size s s' : Inv s → output_step size s = Some s' → Inv s'.
Proof.
  intros HI. unfold output_step.
  destruct (loop_round size (monitor s)) as [m'| | | |] eqn:Hround; try done.
  intros [= <-]. destruct (loop_round_shared _ _ _ Hround) as (task & rest & _ & Hsh).
  unfold shared in Hsh. simpl in Hsh. injection Hsh as E1 E2 E3 E4 E5 E6.
  assert (Inv (mkSystem m' (threads s))) as HI' by by apply Inv_monitor.
  destruct (_pause_event m'); [|done]. apply (Inv_release _ HI').
Qed.

Lemma sys_step_Inv l s s' : Inv s → sys_step l s = Some s' → Inv s'.
Proof.
  intros HI. destruct l as [ident a|size|ev]; simpl.
  - by apply thread_step_Inv.
  - by apply output_step_Inv.
  - intros [= <-]. by apply input_step_Inv.
Qed.

Lemma run_Inv trace s s' : Inv s → run trace s = Some s' → Inv s'.
Proof.
  revert s. induction trace as [|l trace IH]; intros s HI; simpl.
  { by intros [= <-]. }
  destruct (sys_step l s) as [s1|] eqn:Hstep; [|done]. simpl.
  apply IH. by eapply sys_step_Inv.
Qed.

Lemma start_Inv enc pid sigpipe banner size ident name s0 :
  start enc pid sigpipe banner size ident name = Some s0 → Inv s0.
Proof.
  unfold start.
  pose proof (keeps_shared_prologue (new_monitor enc pid sigpipe banner size)) as Hk.
  destruct (output_thread_prologue _) as [? m| |]; [|done|done].
  intros [= <-]. unfold shared in Hk. simpl in Hk. injection Hk as E1 E2 E3 E4 E5 E6.
  split; simpl; rewrite ?E1, ?E2, ?E3, ?E4, ?E5.
  - intros j. rewrite lookup_empty. split; [by intros [? ?]|].
    intros (th & Hth & Hl). apply lookup_singleton_Some in Hth as [_ <-]. done.
  - intros t u i. by rewrite lookup_empty.
  - intros i. split; [set_solver|]. intros [t Ht]. by rewrite lookup_empty in Ht.
  - unfold count_threads. rewrite map_filter_singleton_False; [done|]. simpl. done.
  - unfold count_threads. rewrite map_filter_singleton_False; [done|]. simpl. done.
Qed.

Lemma reachable_Inv s : reachable s → Inv s.
Proof.
  intros (enc & pid & sigpipe & banner & size & ident & name & s0 & trace & Hs & Hr).
  eapply run_Inv; [|done]. by eapply start_Inv.
Qed.

(** ** The pause cycle *)




Lemma done_true_count_perm m m' :
  _tasks m ≡ₚ _tasks m' → done_true_count m = done_true_count m'.
Proof. intros H. unfold done_true_count. by rewrite H. Qed.






(** ** A worker that leaves through the wrapper *)

(** The [finally] clause of a live worker of a reachable state. *)
Lemma finally_step s ident th pending :
  Inv s → threads s !! ident = Some th → at_pc th = Finally pending →
  ∃ i s', _line_indexes (monitor s) !! ident = Some i
    ∧ thread_step ident internal s = Some s'
    ∧ threads s' = <[ident := mkThread (name th) (Ended pending)]> (threads s)
    ∧ _line_indexes (monitor s') = delete ident (_line_indexes (monitor s))
    ∧ _line_indexes_used (monitor s') = _line_indexes_used (monitor s) ∖ {[i]}
    ∧ _n_work_threads (monitor s') = _n_work_threads (monitor s) - 1
    ∧ _active_work_threads (monitor s') = _active_work_threads (monitor s) - 1
    ∧ _worker_exceptions (monitor s') = _worker_exceptions (monitor s)
    ∧ _tasks (monitor s')
      = _tasks (monitor s)
        ++ (if decide (_n_work_threads (monitor s) - 1 = 0) then [Done false] else []).
Proof.
  intros HI Hth Hpc.
  destruct (Inv_indexed_live s ident th HI Hth) as (i & Hi & Hu); [by rewrite Hpc|].
  exists i. unfold thread_step. rewrite Hth. simpl. rewrite Hpc.
  rewrite (work_thread_finally_spec _ _ _ Hi Hu).
  eexists. split; [done|]. split; [done|]. simpl.
  destruct (decide (_n_work_threads (monitor s) - 1 = 0)); simpl;
    repeat split; try done. by rewrite app_nil_r.
Qed.

Lemma ended_no_step s ident th r a :
  threads s !! ident = Some th → at_pc th = Ended r → thread_step ident a s = None.
Proof.
  intros Hth Hpc. unfold thread_step. rewrite Hth. simpl. rewrite Hpc. by destruct a.
Qed.

Lemma stop_test_step s ident th :
  Inv s → threads s !! ident = Some th → at_pc th = StopTest →
  _stop_event (monitor s) = false →
  ∃ i, _line_indexes (monitor s) !! ident = Some i
    ∧ thread_step ident internal s
      = Some (mkSystem (set_tasks (PriorityQueue.put (Status i NUL)) (monitor s))
                (<[ident := mkThread (name th) (Finally (Some (SystemExit None)))]>
                   (threads s))).
Proof.
  intros HI Hth Hpc Hstop.
  destruct (Inv_indexed_live s ident th HI Hth) as (i & Hi & Hu); [by rewrite Hpc|].
  exists i. split; [done|]. unfold thread_step. rewrite Hth. simpl. rewrite Hpc, Hstop.
  simpl. by rewrite (report_status_indexed _ _ _ _ Hi).
Qed.

Lemma raise_step s ident th e :
  threads s !! ident = Some th → at_pc th = Running → is_Exception e = true →
  thread_step ident (worker_raises e) s
  = Some (mkSystem (monitor s) (<[ident := mkThread (name th) (Except e)]> (threads s))).
Proof.
  intros Hth Hpc He. unfold thread_step. rewrite Hth. simpl. rewrite Hpc.
  unfold leave_worker_fn. by rewrite He.
Qed.

Lemma except_step s ident th e :
  Inv s → threads s !! ident = Some th → at_pc th = Except e →
  ∃ i, _line_indexes (monitor s) !! ident = Some i
    ∧ thread_step ident internal s
      = Some (mkSystem
                (set_tasks
                   (PriorityQueue.put
                      (Status i (str "*** Uncaught exception: "
                                 ++ slice_to (format_exception_only_0 e) (-1))))
                   (set_worker_exceptions (λ d, <[name th:=e]> d) (monitor s)))
                (<[ident := mkThread (name th) (Finally None)]> (threads s))).
Proof.
  intros HI Hth Hpc.
  destruct (Inv_indexed_live s ident th HI Hth) as (i & Hi & Hu); [by rewrite Hpc|].
  exists i. split; [done|]. unfold thread_step. rewrite Hth. simpl. rewrite Hpc.
  by rewrite (work_thread_except_spec _ _ _ _ _ Hi).
Qed.

(** ** The report of the worker exceptions *)

Local Opaque str.

Lemma write_exception_spec tid e m :
  write_exception tid e m
  = Normal tt (set_calls (λ l, l ++ exception_writes tid e) m).
Proof.
  unfold write_exception, exception_writes. run_monad. unfold set_calls. simpl.
  by rewrite <- !app_assoc.
Qed.

Lemma write_all_spec (excs : gmap pystr exn) (keys : list pystr) m :
  (∀ tid, tid ∈ keys → is_Some (excs !! tid)) →
  ∃ m', for_each keys (λ tid,
          match excs !! tid with
          | Some e => write_exception tid e
          | None => raise (KeyError tid)
          end) m = Normal tt m'
    ∧ (∀ V (view : Monitor → V), (∀ f m, view (set_calls f m) = view m) → view m' = view m)
    ∧ ∃ written, calls m' = calls m ++ written
        ∧ ∀ tid e, tid ∈ keys → excs !! tid = Some e →
            exception_writes tid e ⊆ written.
Proof.
  revert m. induction keys as [|tid keys IH]; intros m Hkeys; simpl.
  { exists m. split; [done|]. split; [done|]. exists []. split; [by rewrite app_nil_r|].
    intros ?? Hin. by apply elem_of_nil in Hin. }
  destruct (Hkeys tid) as [e He]; [set_solver|].
  unfold mbind, M_bind. rewrite He, write_exception_spec.
  destruct (IH (set_calls (λ l, l ++ exception_writes tid e) m)) as (m' & Hm' & Hview & written & Hcalls & Hw).
  { intros ? ?. apply Hkeys. set_solver. }
  exists m'. split; [done|]. split.
  { intros V view Hv. rewrite (Hview V view Hv). apply Hv. }
  exists (exception_writes tid e ++ written). split.
  { rewrite Hcalls. simpl. by rewrite <- !app_assoc. }
  intros tid' e' Hin He'. apply elem_of_cons in Hin as [->|Hin].
  - simplify_eq. intros x Hx. apply elem_of_app. by left.
  - intros x Hx. apply elem_of_app. right. by apply (Hw tid' e').
Qed.

Lemma teardown_spec in_flight m :
  _worker_exceptions m ≠ ∅ →
  ∃ m' written,
    teardown in_flight m
    = (if decide (in_flight = None) then Raised (SystemExit (Some 1)) m'
       else Normal tt m')
    ∧ calls m' = calls m ++ [endwin; restore_wakeup_fd; os_close (_sigpipe m).1;
                             os_close (_sigpipe m).2] ++ written
    ∧ ∀ tid e, _worker_exceptions m !! tid = Some e →
        exception_writes tid e ⊆ written.
Proof.
  intros Hne. unfold teardown, report_worker_exceptions. run_monad.
  rewrite decide_True by done.
  set (m1 := set_calls _ (set_calls _ (set_calls _ (set_calls _ m)))).
  destruct (write_all_spec (_worker_exceptions m) (sorted_keys (_worker_exceptions m)) m1)
    as (m' & Hm' & _ & written & Hcalls & Hw).
  { intros tid Hin. unfold sorted_keys in Hin. rewrite merge_sort_Permutation in Hin.
    by apply elem_of_elements, elem_of_dom in Hin. }
  unfold raise in Hm'. rewrite Hm'.
  exists m', written. split.
  { by destruct (decide (in_flight = None)). }
  split.
  { rewrite Hcalls. unfold m1. simpl. by rewrite <- !app_assoc. }
  intros tid e He. apply Hw; [|done]. unfold sorted_keys.
  rewrite merge_sort_Permutation. apply elem_of_elements, elem_of_dom. by eexists.
Qed.

Local Transparent str.

(** ** The end of the run *)




(** ** A fault in the output loop *)

Lemma do_redraw_keeps_banner_state size m :
  match _do_redraw size m with
  | Normal _ m' | Raised _ m' | Killed _ m' =>
      _addmsg m' = _addmsg m ∧ _stop_event m' = _stop_event m
      ∧ exit_signal m' = exit_signal m ∧ _tasks m' = _tasks m
  end.
Proof.
  pose proof (keeps_events_do_redraw size m) as H1.
  assert (keeps (λ m, (_addmsg m, exit_signal m, _tasks m)) (_do_redraw size)) as H2 by keeps.
  specialize (H2 m). unfold events in H1.
  destruct (_do_redraw size m); simpl in *; by simplify_eq.
Qed.

Lemma loop_round_fault size m task rest e m1 :
  PriorityQueue.get (_tasks m) = Some (task, rest) →
  dispatch size task (set_tasks (λ _, rest) m) = Raised e m1 →
  (_stop_event m1 = false → loop_round size m = Propagated e m1)
  ∧ (_stop_event m1 = true →
     let m2 := set_addmsg (λ _, Some (crash_message e))
                 (set_stop_event (λ _, false) m1) in
     match _do_redraw size m2 with
     | Normal _ m3 =>
         loop_round size m = Continue m3
         ∧ _addmsg m3 = Some (crash_message e) ∧ _stop_event m3 = false
         ∧ exit_signal m3 = exit_signal m1 ∧ _tasks m3 = _tasks m1
     | Raised e' m3 =>
         loop_round size m = Propagated e' m3 ∧ _stop_event m3 = false
     | Killed sig m3 => loop_round size m = Died sig m3
     end).
Proof.
  intros Hget Hraise. unfold loop_round. rewrite Hget, Hraise.
  unfold except_clause. run_monad. split.
  - intros ->. done.
  - intros ->. simpl.
    pose proof (do_redraw_keeps_banner_state size
      (set_addmsg (λ _, Some (crash_message e)) (set_stop_event (λ _, false) m1))) as H.
    fold (crash_message e).
    destruct (_do_redraw size _) as [[] m3|e' m3|sig m3]; simpl in H; naive_solver.
Qed.

(** ** Where the set of used indexes changes *)

Lemma enter_step s ident th :
  threads s !! ident = Some th → at_pc th = Created →
  ∃ i s', thread_step ident internal s = Some s'
    ∧ threads s' = <[ident := mkThread (name th) Running]> (threads s)
    ∧ _line_indexes (monitor s') = <[ident:=i]> (_line_indexes (monitor s))
    ∧ _line_indexes_used (monitor s') = {[i]} ∪ _line_indexes_used (monitor s)
    ∧ (i ∉ _line_indexes_used (monitor s))
    ∧ (∀ j, (j < i)%nat → j ∈ _line_indexes_used (monitor s)).
Proof.
  intros Hth Hpc.
  destruct (work_thread_enter_spec ident (monitor s)) as (i & Heq & Hfresh & Hleast).
  exists i. unfold thread_step. rewrite Hth. simpl. rewrite Hpc, Heq. simpl.
  eexists. split; [done|]. by simpl.
Qed.

Lemma thread_step_used ident a s s' :
  Inv s → thread_step ident a s = Some s' →
  _line_indexes_used (monitor s') = _line_indexes_used (monitor s)
  ∨ (∃ th i, a = internal ∧ threads s !! ident = Some th ∧ at_pc th = Created
       ∧ _line_indexes_used (monitor s') = {[i]} ∪ _line_indexes_used (monitor s))
  ∨ (∃ th pending i, a = internal ∧ threads s !! ident = Some th
       ∧ at_pc th = Finally pending
       ∧ _line_indexes (monitor s) !! ident = Some i
       ∧ _line_indexes_used (monitor s') = _line_indexes_used (monitor s) ∖ {[i]}
       ∧ threads s' !! ident = Some (mkThread (name th) (Ended pending))).
Proof.
  intros HI Hstep.
  destruct (threads s !! ident) as [th|] eqn:Hth;
    [|by unfold thread_step in Hstep; rewrite Hth in Hstep].
  destruct (at_pc th) as [| | | | | | | | |e|pending|r] eqn:Hpc.
  all: try (left; revert Hstep; unfold thread_step; rewrite Hth; simpl; rewrite Hpc;
            destruct (Inv_indexed_live s ident th HI Hth) as (i & Hi & _);
              [by rewrite Hpc|];
            destruct a; try done; simpl;
            rewrite ?(report_status_indexed _ _ _ _ Hi),
                    ?(work_thread_except_spec _ _ _ _ _ Hi);
            repeat (case_match; simpl; try done);
            by intros [= <-]).
  - (* Created *)
    destruct (enter_step s ident th Hth Hpc) as (i & s1 & Hs1 & _ & _ & Hu & _).
    destruct a; try (by unfold thread_step in Hstep; rewrite Hth in Hstep;
                       simpl in Hstep; rewrite Hpc in Hstep).
    right. left. exists th, i. rewrite Hs1 in Hstep. injection Hstep as <-. done.
  - (* Finally *)
    destruct (finally_step s ident th pending HI Hth Hpc)
      as (i & s1 & Hi & Hs1 & Hths & _ & Hu & _).
    destruct a; try (by unfold thread_step in Hstep; rewrite Hth in Hstep;
                       simpl in Hstep; rewrite Hpc in Hstep).
    right. right. exists th, pending, i. rewrite Hs1 in Hstep. injection Hstep as <-.
    repeat split; try done. rewrite Hths. apply lookup_insert_eq.
  - (* Ended *)
    by rewrite (ended_no_step s ident th r a Hth Hpc) in Hstep.
Qed.

Lemma sys_step_used l s s' i :
  Inv s → sys_step l s = Some s' →
  i ∈ _line_indexes_used (monitor s) → i ∉ _line_indexes_used (monitor s') →
  ∃ ident th pending,
    l = on_thread ident internal ∧ threads s !! ident = Some th
    ∧ at_pc th = Finally pending
    ∧ _line_indexes (monitor s) !! ident = Some i
    ∧ threads s' !! ident = Some (mkThread (name th) (Ended pending)).
Proof.
  intros HI Hstep Hin Hout. destruct l as [ident a|size|ev]; simpl in Hstep.
  - destruct (thread_step_used ident a s s' HI Hstep)
      as [Heq|[(th & j & -> & Hth & Hpc & Hu)|(th & p & j & -> & Hth & Hpc & Hj & Hu & Hth')]].
    + congruence.
    + rewrite Hu in Hout. set_solver.
    + exists ident, th, p. repeat split; try done.
      rewrite Hu in Hout. destruct (decide (i = j)) as [->|]; [done|]. set_solver.
  - unfold output_step in Hstep.
    destruct (loop_round size (monitor s)) as [m'| | | |] eqn:Hround; try done.
    destruct (loop_round_shared _ _ _ Hround) as (task & rest & _ & Hsh).
    unfold shared in Hsh. simpl in Hsh. injection Hsh as E1 E2 E3 E4 E5 E6.
    injection Hstep as <-. simpl in Hout. congruence.
  - injection Hstep as <-. exfalso. apply Hout. revert Hin. unfold input_step.
    destruct ev as [ch|sig]; unfold handle_input_char, handle_signal_char;
      repeat (destruct (decide _)); run_monad; done.
Qed.

(** ** The text of a line after a sequence of reports *)





(** ** The two tables of lines keep one length *)

Section preserves.
Context (P : Monitor → Prop).

Lemma preserves_ret {A} (a : A) : preserves P (mret a).
Proof. by intros m. Qed.
Lemma preserves_raise {A} e : preserves P (@raise A e).
Proof. by intros m. Qed.
Lemma preserves_die {A} sig : preserves P (@die A sig).
Proof. by intros m. Qed.
Lemma preserves_gets {A} (f : Monitor → A) : preserves P (gets f).
Proof. by intros m. Qed.
Lemma preserves_modify f : (∀ m, P m → P (f m)) → preserves P (modify f).
Proof. intros H m. apply H. Qed.
Lemma preserves_bind {A B} (c : M A) (k : A → M B) :
  preserves P c → (∀ a, preserves P (k a)) → preserves P (c ≫= k).
Proof.
  intros Hc Hk m Hm. unfold mbind, M_bind. specialize (Hc m Hm).
  destruct (c m) as [a m'|e m'|sig m']; [|done|done].
  by apply Hk.
Qed.
Lemma preserves_for_each {A} (l : list A) body :
  (∀ x, preserves P (body x)) → preserves P (for_each l body).
Proof.
  intros H. induction l as [|x l IH]; simpl; [apply preserves_ret|].
  apply preserves_bind; auto.
Qed.
End preserves.

Ltac tables_side :=
  let m := fresh "m" in let Hm := fresh "Hm" in
  intros m Hm; unfold tables_ok in *; simpl;
  rewrite ?length_fmap, ?length_insert, ?length_app, ?length_replicate;
  first [done | lia].

Ltac preserves_step :=
  lazymatch goal with
  | |- preserves _ (mret _) => apply preserves_ret
  | |- preserves _ (raise _) => apply preserves_raise
  | |- preserves _ (die _) => apply preserves_die
  | |- preserves _ (gets _) => apply preserves_gets
  | |- preserves _ (modify _) => apply preserves_modify; tables_side
  | |- preserves _ (for_each _ _) => apply preserves_for_each; intros ?
  | |- preserves _ (mbind _ _) => apply preserves_bind; [|intros ?]
  | |- preserves _ (if ?c then _ else _) => destruct c
  | |- preserves _ (match ?x with _ => _ end) => destruct x
  | |- preserves _ ?c => let h := head_of c in unfold h
  end.
Ltac preserves := repeat preserves_step.

Lemma tables_ok_dispatch size task : preserves tables_ok (dispatch size task).
Proof. destruct task as [idx text| | sig | sig | [|]]; preserves. Qed.

Lemma tables_ok_except_clause size e : preserves tables_ok (except_clause size e).
Proof. preserves. Qed.

Lemma tables_ok_prologue : preserves tables_ok output_thread_prologue.
Proof. preserves. Qed.

Lemma tables_ok_loop_round size m m' :
  tables_ok m → loop_round size m = Continue m' → tables_ok m'.
Proof.
  intros Hok. unfold loop_round.
  destruct (PriorityQueue.get (_tasks m)) as [[task rest]|]; [|done].
  pose proof (tables_ok_dispatch size task (set_tasks (λ _, rest) m) Hok) as Hd.
  destruct (dispatch size task _) as [[|] m1|e m1|sig m1]; try done.
  { by intros [= <-]. }
  pose proof (tables_ok_except_clause size e m1 Hd) as He.
  destruct (except_clause size e m1) as [? m2|? m2|? m2]; try done.
  by intros [= <-].
Qed.

Lemma thread_step_tables ident a s s' :
  thread_step ident a s = Some s' → tables (monitor s') = tables (monitor s).
Proof.
  unfold thread_step. destruct (threads s !! ident) as [th|]; [|done]. simpl.
  assert (∀ text, keeps tables (report_status ident text)) as Hreport
    by (intros; keeps).
  assert (keeps tables (work_thread_finally ident)) as Hfinally by keeps.
  assert (∀ n e, keeps tables (work_thread_except n ident e)) as Hexcept
    by (intros; keeps).
  destruct (at_pc th), a; try done; simpl.
  - destruct (work_thread_enter_spec ident (monitor s)) as (i & -> & _).
    simpl. by intros [= <-].
  - specialize (Hreport status (monitor s)).
    destruct (report_status _ _ _); [| |done]; by intros [= <-].
  - by intros [= <-].
  - destruct (_ && _); [|done]. by intros [= <-].
  - by intros [= <-].
  - by intros [= <-].
  - specialize (Hreport NUL (monitor s)). destruct (_stop_event _); simpl.
    + by intros [= <-].
    + destruct (report_status _ _ _); [| |done]; by intros [= <-].
  - destruct (_pause_event _); simpl; by intros [= <-].
  - intros [= <-]. simpl. by destruct (decide _).
  - specialize (Hreport NUL (monitor s)).
    destruct (report_status _ _ _); [| |done]; by intros [= <-].
  - destruct (_pause_event _); simpl; by intros [= <-].
  - by intros [= <-].
  - specialize (Hexcept (name th) e (monitor s)).
    destruct (work_thread_except _ _ _ _); [| |done]; by intros [= <-].
  - specialize (Hfinally (monitor s)).
    destruct (work_thread_finally _ _); [| |done]; by intros [= <-].
Qed.

Lemma sys_step_tables_ok l s s' :
  tables_ok (monitor s) → sys_step l s = Some s' → tables_ok (monitor s').
Proof.
  intros Hok. destruct l as [ident a|size|ev]; simpl.
  - intros Hstep. apply thread_step_tables in Hstep. unfold tables in Hstep.
    unfold tables_ok in *. injection Hstep as -> ->. done.
  - unfold output_step.
    destruct (loop_round size (monitor s)) as [m'| | | |] eqn:Hround; try done.
    intros [= <-]. simpl. by eapply tables_ok_loop_round.
  - intros [= <-]. unfold input_step.
    destruct ev as [ch|sig]; unfold handle_input_char, handle_signal_char;
      repeat (destruct (decide _)); run_monad; done.
Qed.

Lemma reachable_tables_ok s : reachable s → tables_ok (monitor s).
Proof.
  intros (enc & pid & sigpipe & banner & size & ident & name & s0 & trace & Hs & Hr).
  assert (tables_ok (monitor s0)) as H0.
  { unfold start in Hs.
    pose proof (tables_ok_prologue (new_monitor enc pid sigpipe banner size)) as Hp.
    destruct (output_thread_prologue _) as [? m| |]; [|done|done].
    injection Hs as <-. simpl. by apply Hp. }
  clear Hs. revert s0 H0 Hr. induction trace as [|l trace IH]; intros s0 H0; simpl.
  { by intros [= <-]. }
  destruct (sys_step l s0) as [s1|] eqn:Hstep; [|done]. simpl.
  apply IH. by eapply sys_step_tables_ok.
Qed.

(** * The properties of the Monitor *)

(** ** The example run *)

Lemma demo_reachable trace s : demo_run trace = Some s → reachable s.
Proof.
  unfold demo_run. destruct demo_start as [s0|] eqn:Hs; [|done]. simpl.
  intros Hrun. unfold demo_start in Hs. unfold reachable. eauto 12.
Qed.

(** ** Delivery by priority *)

(** Claim C1. The output thread receives its tasks by priority class, in
    the order Exit < Suspend < Redraw < Status < Done, and the Status tasks
    by line index: the codes are in that order; a task of a smaller code,
    and a Status task of a smaller line index, is smaller; a queue that
    holds an Exit task delivers an Exit task first, which is smaller than
    or equal to every entry, whatever else the queue holds; and successive
    gets deliver the whole content in ascending order. *)
Theorem priority_queue_delivery (q : PriorityQueue.t) (sig : Z) :
  Exit sig ∈ q →
  (_EXIT < _SUSPEND ∧ _SUSPEND < _REDRAW ∧ _REDRAW < _STATUS ∧ _STATUS < _DONE)
  ∧ (∀ t u, code t < code u → task_lt t u)
  ∧ (∀ i j a b, (i < j)%nat → task_lt (Status i a) (Status j b))
  ∧ (∃ sig' q', PriorityQueue.get q = Some (Exit sig', q')
       ∧ q ≡ₚ Exit sig' :: q'
       ∧ (∀ u, u ∈ q → task_le (Exit sig') u))
  ∧ PriorityQueue.drain (length q) q ≡ₚ q
  ∧ StronglySorted task_le (PriorityQueue.drain (length q) q).
Proof.
  intros Hin. split; [done|]. split; [apply code_lt_task_lt|].
  split; [apply status_index_order|]. split.
  - destruct (get_exit_first q sig Hin) as (sig' & q' & Hget).
    exists sig', q'. split; [done|].
    by destruct (get_spec _ _ _ Hget) as (_ & ? & ?).
  - by apply drain_spec.
Qed.

Lemma priority_queue_delivery_witness :
  Exit 15 ∈ demo_queue
  ∧ ∃ sig' q', PriorityQueue.get demo_queue = Some (Exit sig', q').
Proof.
  assert (Exit 15 ∈ demo_queue) as Hin.
  { apply (bool_decide_unpack _). vm_compute. reflexivity. }
  split; [exact Hin|].
  destruct (priority_queue_delivery demo_queue 15 Hin)
    as (_ & _ & _ & (sig' & q' & Hget & _) & _).
  exists sig', q'. exact Hget.
Defined.

(** ** The layout of the banner *)

(** Claim C5. For every width, title and help text the banner is what the
    layout rule gives: the rightmost W characters of the help text when
    that alone is too long; else, when title and help text are too long
    together, the title cut short (by the shortfall when it has at most
    two characters, by the shortfall and two more and followed by two dots
    otherwise) or replaced by dots when at most two columns are left for
    it; else title and help text centred, the smaller half of the padding
    on the left. For W=40 and the title "Canonicalizing URLs" the banner
    has 40 characters: the 39 of title and help text and one space on the
    right. *)
Theorem compute_banner_internal_layout :
  (∀ (w : Z) (banner addmsg : pystr),
     _compute_banner_internal banner addmsg w
     = banner_layout w banner (help_text banner addmsg))
  ∧ help_text (str "Canonicalizing URLs") (str "Press ESC to stop.")
    = str ". Press ESC to stop."
  ∧ _compute_banner_internal (str "Canonicalizing URLs") (str "Press ESC to stop.") 40
    = str "Canonicalizing URLs. Press ESC to stop. "
  ∧ len (_compute_banner_internal (str "Canonicalizing URLs")
                                  (str "Press ESC to stop.") 40) = 40.
Proof.
  split; [intros; apply banner_layout_refines|].
  split; [by vm_compute|]. split; by vm_compute.
Qed.

(** ** The NUL sentinel *)



(** ** The text of a status line *)




(** ** The checkpoint under a stop *)

(** The claim of C3 fails where it says that the line is reported as empty
    or cleared: the worker of the example has "working" on its line when
    it comes to the checkpoint under a stop; the status it reports is the
    NUL sentinel, not the empty text, and when the output loop has rendered
    it the line still holds "working". *)
Lemma checkpoint_under_stop_counterexample :
  ∃ s1 s2,
    _stop_event (monitor (demo_state demo_stopping)) = false
    ∧ thread_step 100 internal (demo_state demo_stopping) = Some s1
    ∧ _tasks (monitor s1) = [Status 0 NUL]
    ∧ NUL ≠ str ""
    ∧ output_step demo_size s1 = Some s2
    ∧ _lines (monitor s2) !! 0%nat = ascii_codec (str "working")
    ∧ _lines (monitor s2) !! 0%nat ≠ Some [].
Proof.
  eexists. eexists. split; [vm_compute; reflexivity|].
  split; [vm_compute; reflexivity|]. split; [vm_compute; reflexivity|].
  split; [vm_compute; discriminate|]. split; [vm_compute; reflexivity|].
  split; [vm_compute; reflexivity|]. vm_compute. discriminate.
Qed.

(** Claim C3, amended. When a worker calls the checkpoint while the stop
    gate is set, it reports the NUL sentinel for its line, which resets the
    attribute of the line and leaves its text, and [SystemExit] ends the
    calling thread at once: the except clause of the wrapper is passed
    over, its finally clause releases the line index, decrements both
    counters and puts [(_DONE, False)] when no worker is left, and the
    thread is over. *)
Theorem checkpoint_under_stop (s : System) (ident : Z) (th : thread) :
  reachable s →
  threads s !! ident = Some th → at_pc th = StopTest →
  _stop_event (monitor s) = false →
  ∃ i s1 s2,
    _line_indexes (monitor s) !! ident = Some i
    ∧ thread_step ident internal s = Some s1
    ∧ threads s1 !! ident
      = Some (mkThread (name th) (Finally (Some (SystemExit None))))
    ∧ _tasks (monitor s1) = _tasks (monitor s) ++ [Status i NUL]
    ∧ (∀ m, tables_ok m →
         ∃ m', _do_status i NUL m = Normal tt m'
           ∧ (∀ j line, _lines m !! j = Some line → _lines m' !! j = Some line)
           ∧ _line_attrs m' !! i = Some A_NORMAL)
    ∧ thread_step ident internal s1 = Some s2
    ∧ threads s2 !! ident
      = Some (mkThread (name th) (Ended (Some (SystemExit None))))
    ∧ (∀ a, thread_step ident a s2 = None)
    ∧ _line_indexes (monitor s2) = delete ident (_line_indexes (monitor s))
    ∧ _line_indexes_used (monitor s2) = _line_indexes_used (monitor s) ∖ {[i]}
    ∧ _n_work_threads (monitor s2) = _n_work_threads (monitor s) - 1
    ∧ _active_work_threads (monitor s2) = _active_work_threads (monitor s) - 1
    ∧ _tasks (monitor s2)
      = _tasks (monitor s) ++ [Status i NUL]
        ++ (if decide (_n_work_threads (monitor s) - 1 = 0)
            then [Done false] else []).
Proof.
  intros Hr Hth Hpc Hstop. pose proof (reachable_Inv s Hr) as HI.
  destruct (stop_test_step s ident th HI Hth Hpc Hstop) as (i & Hi & Hs1).
  set (s1 := mkSystem _ _) in Hs1.
  assert (threads s1 !! ident
          = Some (mkThread (name th) (Finally (Some (SystemExit None))))) as Hth1
    by apply lookup_insert_eq.
  assert (Inv s1) as HI1 by (by eapply thread_step_Inv).
  destruct (finally_step s1 ident _ (Some (SystemExit None)) HI1 Hth1 eq_refl)
    as (i' & s2 & Hi' & Hs2 & Hths2 & Hli & Hu & Hn & Ha & _ & Ht).
  simpl in Hi'. assert (i' = i) as -> by congruence.
  exists i, s1, s2. split; [done|]. split; [done|]. split; [done|].
  split; [done|]. split.
  { intros m Hok. destruct (do_status_NUL i m Hok) as (m' & H1 & Hl & Hattrs & _).
    exists m'. split; [done|]. split.
    - intros j line Hj. rewrite Hl. by apply lookup_app_l_Some.
    - rewrite Hattrs. apply list_lookup_insert_eq. unfold tables_ok in Hok.
      rewrite length_app. unfold padding. rewrite length_replicate. lia. }
  split; [done|].
  assert (threads s2 !! ident
          = Some (mkThread (name th) (Ended (Some (SystemExit None))))) as Hth2.
  { rewrite Hths2. apply lookup_insert_eq. }
  split; [done|]. split.
  { intros a. by eapply ended_no_step. }
  simpl in *. repeat split; try done.
  rewrite Ht. unfold PriorityQueue.put. by rewrite <- app_assoc.
Qed.

Lemma checkpoint_under_stop_witness :
  (reachable (demo_state demo_stopping)
   ∧ threads (demo_state demo_stopping) !! 100
     = Some (mkThread (str "Thread-1") StopTest)
   ∧ _stop_event (monitor (demo_state demo_stopping)) = false)
  ∧ ∃ i s1, thread_step 100 internal (demo_state demo_stopping) = Some s1
      ∧ _tasks (monitor s1)
        = _tasks (monitor (demo_state demo_stopping)) ++ [Status i NUL].
Proof.
  assert (reachable (demo_state demo_stopping)) as Hr.
  { apply (demo_reachable demo_stopping). vm_compute. reflexivity. }
  assert (threads (demo_state demo_stopping) !! 100
          = Some (mkThread (str "Thread-1") StopTest)) as Hth
    by (vm_compute; reflexivity).
  assert (_stop_event (monitor (demo_state demo_stopping)) = false) as Hstop
    by (vm_compute; reflexivity).
  split; [split; [exact Hr|split; [exact Hth|exact Hstop]]|].
  destruct (checkpoint_under_stop _ 100 _ Hr Hth eq_refl Hstop)
    as (i & s1 & s2 & _ & H1 & _ & H2 & _).
  exists i, s1. split; [exact H1|exact H2].
Defined.

(** ** Faults of the workers *)

Lemma format_exception_only_summary e :
  slice_to (format_exception_only_0 e) (-1) = summary e.
Proof.
  unfold format_exception_only_0, summary, slice_to, slice_bound, len.
  set (x := if decide (exn_str e = str "") then _ else _).
  rewrite length_app. simpl.
  replace (Z.to_nat (Z.max (-1 + Z.of_nat (length x + 1)) 0)) with (length x) by lia.
  by rewrite take_app_length.
Qed.

(** The claim of C7 fails for a run that a signal ends: the exception of
    the worker is recorded, the output loop takes the [Exit] task of
    [SIGTERM], the status and [(_DONE, False)], and delivers the signal to
    the process, which ends there; the finally clause of the constructor
    does not run and nothing is written on the standard error stream. *)
Lemma worker_fault_reported_counterexample :
  ∃ m,
    output_loop 3 demo_size (monitor (demo_state demo_failed_then_term))
    = Died signal.SIGTERM m
    ∧ _worker_exceptions m = {[ str "Thread-1" := demo_error ]}
    ∧ init_result (Died signal.SIGTERM m) = Some (KilledBy signal.SIGTERM m)
    ∧ Forall (λ c, ∀ text, c ≠ stderr_write text) (calls m).
Proof.
  eexists. split; [vm_compute; reflexivity|]. split; [vm_compute; reflexivity|].
  split; [reflexivity|]. vm_compute.
  repeat (constructor; [intros text; discriminate|]).
  constructor.
Qed.

(** Claim C7, amended. An exception that leaves a worker function is
    recorded once, under the name of the worker's thread, and put as a
    status of the worker's line that summarises it; the wrapper then cleans
    up and the thread ends with no exception leaving it, so that the except
    clause cannot run for it again and the process goes on. When the
    finally clause of the constructor runs with worker exceptions recorded,
    which it does unless a signal has ended the process, each of them is
    written on the standard error stream with its traceback, and
    [SystemExit(1)] leaves the constructor unless an exception was already
    on its way, so that the exit status is not zero. *)
Theorem worker_fault_reported (s : System) (ident : Z) (th : thread) (e : exn)
    (m : Monitor) (in_flight : option exn) :
  reachable s →
  threads s !! ident = Some th → at_pc th = Running → is_Exception e = true →
  _worker_exceptions m ≠ ∅ →
  (∀ c, in_flight ≠ Some (SystemExit c)) →
  (∃ i s1 s2 s3,
     _line_indexes (monitor s) !! ident = Some i
     ∧ thread_step ident (worker_raises e) s = Some s1
     ∧ thread_step ident internal s1 = Some s2
     ∧ thread_step ident internal s2 = Some s3
     ∧ _worker_exceptions (monitor s2)
       = <[name th := e]> (_worker_exceptions (monitor s))
     ∧ _tasks (monitor s2)
       = _tasks (monitor s)
         ++ [Status i (str "*** Uncaught exception: " ++ summary e)]
     ∧ _worker_exceptions (monitor s3) = _worker_exceptions (monitor s2)
     ∧ threads s3 !! ident = Some (mkThread (name th) (Ended None))
     ∧ (∀ a, thread_step ident a s3 = None))
  ∧ (∃ m' written,
       teardown in_flight m
       = (if decide (in_flight = None) then Raised (SystemExit (Some 1)) m'
          else Normal tt m')
       ∧ calls m' = calls m ++ [endwin; restore_wakeup_fd; os_close (_sigpipe m).1;
                                os_close (_sigpipe m).2] ++ written
       ∧ (∀ tid e', _worker_exceptions m !! tid = Some e' →
            exception_writes tid e' ⊆ written))
  ∧ (∃ r m',
       init_result (match in_flight with
                    | None => Returned m
                    | Some e' => Propagated e' m
                    end) = Some (Left r m')
       ∧ exit_status r ≠ 0).
Proof.
  intros Hr Hth Hpc He Hexcs Hflight. pose proof (reachable_Inv s Hr) as HI.
  split; [|split].
  - pose proof (raise_step s ident th e Hth Hpc He) as Hs1.
    set (s1 := mkSystem _ _) in Hs1.
    assert (threads s1 !! ident = Some (mkThread (name th) (Except e))) as Hth1
      by apply lookup_insert_eq.
    assert (Inv s1) as HI1 by (by eapply thread_step_Inv).
    destruct (except_step s1 ident _ e HI1 Hth1 eq_refl) as (i & Hi & Hs2).
    set (s2 := mkSystem _ _) in Hs2.
    assert (threads s2 !! ident = Some (mkThread (name th) (Finally None))) as Hth2
      by apply lookup_insert_eq.
    assert (Inv s2) as HI2 by (by eapply thread_step_Inv).
    destruct (finally_step s2 ident _ None HI2 Hth2 eq_refl)
      as (i' & s3 & _ & Hs3 & Hths3 & _ & _ & _ & _ & Hexc3 & _).
    assert (threads s3 !! ident = Some (mkThread (name th) (Ended None))) as Hth3.
    { rewrite Hths3. apply lookup_insert_eq. }
    exists i, s1, s2, s3. repeat split; try done.
    + simpl. unfold PriorityQueue.put. by rewrite format_exception_only_summary.
    + intros a. by eapply ended_no_step.
  - by apply teardown_spec.
  - unfold init_result.
    destruct (teardown_spec in_flight m Hexcs) as (m1 & written & Ht & _).
    destruct in_flight as [e'|]; rewrite Ht; simpl.
    + exists (Some e'), m1. split; [done|].
      destruct e' as [c| |]; simpl; try done. by destruct (Hflight c).
    + by exists (Some (SystemExit (Some 1))), m1.
Qed.

Lemma worker_fault_reported_witness :
  (reachable (demo_state demo_working)
   ∧ threads (demo_state demo_working) !! 100
     = Some (mkThread (str "Thread-1") Running)
   ∧ is_Exception demo_error = true)
  ∧ ∃ s' s'', run [on_thread 100 (worker_raises demo_error); on_thread 100 internal]
                (demo_state demo_working) = Some s'
      ∧ _worker_exceptions (monitor s') = {[ str "Thread-1" := demo_error ]}
      ∧ thread_step 100 internal s' = Some s''
      ∧ ∃ r m', init_result (Returned (monitor s'')) = Some (Left r m')
          ∧ exit_status r ≠ 0.
Proof.
  assert (reachable (demo_state demo_working)) as Hr.
  { apply (demo_reachable demo_working). vm_compute. reflexivity. }
  assert (threads (demo_state demo_working) !! 100
          = Some (mkThread (str "Thread-1") Running)) as Hth
    by (vm_compute; reflexivity).
  assert (is_Exception demo_error = true) as He by reflexivity.
  split; [split; [exact Hr|split; [exact Hth|exact He]]|].
  set (m := set_worker_exceptions (λ d, <[str "Thread-1" := demo_error]> d)
              (monitor (demo_state demo_working))).
  assert (_worker_exceptions m ≠ ∅) as Hne.
  { unfold m. simpl. apply insert_non_empty. }
  assert (∀ c, (None : option exn) ≠ Some (SystemExit c)) as Hfl by discriminate.
  destruct (worker_fault_reported _ 100 _ demo_error m None Hr Hth eq_refl He Hne Hfl)
    as [(i & s1 & s2 & s3 & _ & H1 & H2 & H3 & H4 & _ & H5 & _) [_ Hexit]].
  exists s2, s3. split.
  { simpl. rewrite H1. simpl. rewrite H2. reflexivity. }
  split.
  { rewrite H4. vm_compute. reflexivity. }
  split; [exact H3|].
  assert (_worker_exceptions (monitor s3) ≠ ∅) as Hne3.
  { rewrite H5, H4. apply insert_non_empty. }
  destruct (teardown_spec None (monitor s3) Hne3) as (m' & written & Ht & _).
  exists (Some (SystemExit (Some 1))), m'. split.
  { unfold init_result. rewrite Ht. reflexivity. }
  simpl. discriminate.
Defined.

(** ** The signal at the end of the run *)



(** ** Faults of the output loop *)



(** ** Line indexes *)

(** Claim C4. In every state of a run: no two workers hold one line index,
    the workers that hold one are those between the first lock block of
    the wrapper and its finally clause, and the used indexes are those
    held; a worker that starts gets the smallest index not in use; an
    index leaves the used ones only by the finally clause of the worker
    that holds it, which ends that worker; and when the holder of index 0
    has gone through it, the worker that starts next gets index 0. *)
Theorem line_index_allocation (s : System) :
  reachable s →
  (∀ t u i, _line_indexes (monitor s) !! t = Some i →
            _line_indexes (monitor s) !! u = Some i → t = u)
  ∧ (∀ t, is_Some (_line_indexes (monitor s) !! t)
          ↔ ∃ th, threads s !! t = Some th ∧ live (at_pc th) = true)
  ∧ (∀ i, i ∈ _line_indexes_used (monitor s)
          ↔ ∃ t, _line_indexes (monitor s) !! t = Some i)
  ∧ (∀ ident th, threads s !! ident = Some th → at_pc th = Created →
       ∃ i s', thread_step ident internal s = Some s'
         ∧ _line_indexes (monitor s') = <[ident:=i]> (_line_indexes (monitor s))
         ∧ _line_indexes_used (monitor s') = {[i]} ∪ _line_indexes_used (monitor s)
         ∧ (i ∉ _line_indexes_used (monitor s))
         ∧ (∀ j, (j < i)%nat → j ∈ _line_indexes_used (monitor s)))
  ∧ (∀ l s' i, sys_step l s = Some s' →
       i ∈ _line_indexes_used (monitor s) → i ∉ _line_indexes_used (monitor s') →
       ∃ ident th pending,
         l = on_thread ident internal ∧ threads s !! ident = Some th
         ∧ at_pc th = Finally pending
         ∧ _line_indexes (monitor s) !! ident = Some i
         ∧ threads s' !! ident = Some (mkThread (name th) (Ended pending)))
  ∧ (∀ a tha pending b thb,
       threads s !! a = Some tha → at_pc tha = Finally pending →
       _line_indexes (monitor s) !! a = Some 0%nat →
       threads s !! b = Some thb → at_pc thb = Created →
       ∃ s1 s2, thread_step a internal s = Some s1
         ∧ thread_step b internal s1 = Some s2
         ∧ _line_indexes (monitor s2) !! b = Some 0%nat).
Proof.
  intros Hr. pose proof (reachable_Inv s Hr) as HI.
  split; [apply (inv_unique s HI)|]. split; [apply (inv_indexed s HI)|].
  split; [apply (inv_used s HI)|]. split.
  { intros ident th Hth Hpc.
    destruct (enter_step s ident th Hth Hpc) as (i & s' & H1 & _ & H2 & H3 & H4 & H5).
    by exists i, s'. }
  split.
  { intros l s' i. by apply sys_step_used. }
  intros a tha pending b thb Hta Hpa Hia Htb Hpb.
  destruct (finally_step s a tha pending HI Hta Hpa)
    as (i & s1 & Hi & Hs1 & Hths1 & _ & Hu1 & _).
  assert (i = 0%nat) as -> by congruence.
  assert (a ≠ b) as Hab by (intros ->; congruence).
  assert (threads s1 !! b = Some thb) as Htb1.
  { rewrite Hths1. by rewrite lookup_insert_ne. }
  destruct (enter_step s1 b thb Htb1 Hpb) as (j & s2 & Hs2 & _ & Hli2 & _ & Hfresh & Hleast).
  exists s1, s2. split; [done|]. split; [done|].
  rewrite Hli2, lookup_insert_eq. f_equal.
  destruct j as [|j]; [done|]. exfalso.
  assert (0%nat ∈ _line_indexes_used (monitor s1)) as H0 by (apply Hleast; lia).
  rewrite Hu1 in H0. set_solver.
Qed.

Lemma line_index_allocation_witness :
  reachable (demo_state demo_pausing)
  ∧ ∀ t u i,
      _line_indexes (monitor (demo_state demo_pausing)) !! t = Some i →
      _line_indexes (monitor (demo_state demo_pausing)) !! u = Some i → t = u.
Proof.
  assert (reachable (demo_state demo_pausing)) as Hr.
  { apply (demo_reachable demo_pausing). vm_compute. reflexivity. }
  split; [exact Hr|].
  destruct (line_index_allocation _ Hr) as (H & _). exact H.
Defined.

(** ** One [(_DONE, True)] in a pause cycle *)




(** * Further properties of the Monitor and of the workers *)

(** ** The queue and the bookkeeping, step by step *)

Ltac puts_nothing :=
  exists []; split; [done|split; [simpl; by rewrite app_nil_r|simpl; done]].

Lemma thread_step_puts ident a s s' :
  Inv s → thread_step ident a s = Some s' →
  ∃ th new, threads s !! ident = Some th
    ∧ _tasks (monitor s') = _tasks (monitor s) ++ new
    ∧ puts s ident (at_pc th) a new.
Proof.
  intros HI. unfold thread_step.
  destruct (threads s !! ident) as [th|] eqn:Hth; [|done]. simpl.
  intros Hstep. exists th.
  destruct (at_pc th) eqn:Hpc, a; try done; simpl in *.
  - destruct (work_thread_enter_spec ident (monitor s)) as (i & Heq & _).
    rewrite Heq in Hstep. injection Hstep as <-. puts_nothing.
  - destruct (Inv_indexed_live s ident th HI Hth) as (i & Hi & _); [by rewrite Hpc|].
    rewrite (report_status_indexed _ _ _ _ Hi) in Hstep. injection Hstep as <-.
    eexists. split; [done|]. split; [done|]. simpl. eauto.
  - injection Hstep as <-. puts_nothing.
  - destruct (_ && _); [|done]. injection Hstep as <-. puts_nothing.
  - injection Hstep as <-. puts_nothing.
  - injection Hstep as <-. puts_nothing.
  - destruct (Inv_indexed_live s ident th HI Hth) as (i & Hi & _); [by rewrite Hpc|].
    rewrite (report_status_indexed _ _ _ _ Hi) in Hstep.
    destruct (_stop_event (monitor s)); simpl in Hstep; injection Hstep as <-.
    + puts_nothing.
    + eexists. split; [done|]. split; [done|]. simpl. eauto.
  - destruct (_pause_event (monitor s)); simpl in Hstep; injection Hstep as <-;
      puts_nothing.
  - injection Hstep as <-. simpl.
    destruct (decide (_active_work_threads (monitor s) - 1 = 0)) as [H0|H0].
    + exists [Done true]. split; [done|]. split; [done|]. by rewrite decide_True by lia.
    + exists []. split; [done|]. split; [by rewrite app_nil_r|]. by rewrite decide_False by lia.
  - destruct (Inv_indexed_live s ident th HI Hth) as (i & Hi & _); [by rewrite Hpc|].
    rewrite (report_status_indexed _ _ _ _ Hi) in Hstep. injection Hstep as <-.
    eexists. split; [done|]. split; [done|]. simpl. eauto.
  - destruct (_pause_event (monitor s)); simpl in Hstep; injection Hstep as <-;
      puts_nothing.
  - injection Hstep as <-. puts_nothing.
  - destruct (Inv_indexed_live s ident th HI Hth) as (i & Hi & _); [by rewrite Hpc|].
    rewrite (work_thread_except_spec _ _ _ _ _ Hi) in Hstep. injection Hstep as <-.
    eexists. split; [done|]. split; [done|]. simpl. eauto.
  - destruct (Inv_indexed_live s ident th HI Hth) as (i & Hi & Hu); [by rewrite Hpc|].
    rewrite (work_thread_finally_spec _ _ _ Hi Hu) in Hstep. injection Hstep as <-.
    destruct (decide (_n_work_threads (monitor s) - 1 = 0)) as [H0|H0]; simpl.
    + exists [Done false]. split; [done|]. split; [done|]. by rewrite decide_True by lia.
    + exists []. split; [done|]. split; [by rewrite app_nil_r|]. by rewrite decide_False by lia.
Qed.

Lemma done_false_count_app m new q :
  _tasks m = q ++ new →
  done_false_count m
  = (length (filter (λ t, t = Done false) q)
     + length (filter (λ t, t = Done false) new))%nat.
Proof. intros H. unfold done_false_count. by rewrite H, filter_app, length_app. Qed.

Lemma thread_step_done_false ident a s s' :
  Inv s → thread_step ident a s = Some s' →
  ∃ th, threads s !! ident = Some th
    ∧ done_false_count (monitor s')
      = (done_false_count (monitor s)
         + match at_pc th, a with
           | Finally _, internal =>
               if decide (_n_work_threads (monitor s) = 1)%Z then 1%nat else 0%nat
           | _, _ => 0%nat
           end)%nat.
Proof.
  intros HI Hstep.
  destruct (thread_step_puts ident a s s' HI Hstep) as (th & new & Hth & Htasks & Hputs).
  exists th. split; [done|]. rewrite (done_false_count_app _ _ _ Htasks).
  fold (done_false_count (monitor s)). f_equal.
  unfold puts in Hputs.
  destruct (at_pc th), a; try (by subst new);
    try (by destruct Hputs as (i & _ & ->)).
  - destruct (_stop_event (monitor s)); [by subst|]. by destruct Hputs as (i & _ & ->).
  - subst new. by destruct (decide _).
  - subst new. by destruct (decide _).
Qed.

Lemma get_removes_one q task rest :
  PriorityQueue.get q = Some (task, rest) →
  (length (filter (λ t, t = Done false) rest)
   ≤ length (filter (λ t, t = Done false) q))%nat.
Proof.
  intros Hget. destruct (get_spec _ _ _ Hget) as (_ & Hperm & _).
  rewrite Hperm, filter_cons. destruct (decide _); simpl; lia.
Qed.

Lemma input_step_puts ev s :
  threads (input_step ev s) = threads s
  ∧ ∃ new, _tasks (monitor (input_step ev s)) = _tasks (monitor s) ++ new
      ∧ new = match ev with
              | keyboard ch =>
                  if decide (ch = None ∨ ch = Some 27 ∨ ch = Some 113 ∨ ch = Some 81)
                  then [Exit 0]
                  else if decide (ch = Some 12) then [Redraw] else []
              | wakeup sig =>
                  if decide (sig = signal.SIGWINCH) then [Redraw]
                  else if decide (sig = signal.SIGTSTP ∨ sig = signal.SIGTTIN
                                  ∨ sig = signal.SIGTTOU) then [Suspend sig]
                  else [Exit sig]
              end.
Proof.
  unfold input_step. destruct ev as [ch|sig]; unfold handle_input_char, handle_signal_char;
    repeat (destruct (decide _)); run_monad; (split; [done|]); eexists;
    (split; [|done]); by rewrite ?app_nil_r.
Qed.

(** Property X1. One step of a reachable ensemble puts at most one [(_DONE,
    False)] on the queue, and it puts one exactly when the step is the
    finally clause of the wrapper of the only worker still live, after which
    no worker is live. *)
Theorem done_false_put (l : label) (s s' : System) :
  reachable s → sys_step l s = Some s' →
  (done_false_count (monitor s') ≤ S (done_false_count (monitor s)))%nat
  ∧ (done_false_count (monitor s') = S (done_false_count (monitor s))
     ↔ ∃ ident th pending,
         l = on_thread ident internal ∧ threads s !! ident = Some th
         ∧ at_pc th = Finally pending
         ∧ count_threads live (threads s) = 1%nat
         ∧ count_threads live (threads s') = 0%nat).
Proof.
  intros Hr Hstep. pose proof (reachable_Inv s Hr) as HI.
  destruct l as [ident a|size|ev]; simpl in Hstep.
  - destruct (thread_step_done_false ident a s s' HI Hstep) as (th & Hth & Hcount).
    pose proof (thread_step_Inv ident a s s' HI Hstep) as HI'.
    pose proof (inv_live s HI) as Hlive. pose proof (inv_live s' HI') as Hlive'.
    destruct (at_pc th) eqn:Hpc, a;
      try (split; [lia|]; split; [lia|]; intros (? & ? & ? & [= <-] & ? & ? & _);
           simplify_eq; congruence).
    destruct (finally_step s ident th pending HI Hth Hpc)
      as (i & s1 & _ & Hs1 & _ & _ & _ & Hn & _).
    assert (s1 = s') as -> by congruence.
    destruct (decide (_n_work_threads (monitor s) = 1)) as [H1|H1].
    + split; [lia|]. split; [|lia]. intros _. exists ident, th, pending.
      repeat split; try done; lia.
    + split; [lia|]. split; [lia|].
      intros (? & ? & ? & _ & _ & _ & Hone & _). lia.
  - unfold output_step in Hstep.
    destruct (loop_round size (monitor s)) as [m'| | | |] eqn:Hround; try done.
    destruct (loop_round_shared _ _ _ Hround) as (task & rest & Hget & Hsh).
    unfold shared in Hsh. simpl in Hsh. injection Hsh as _ _ _ _ _ Ht.
    injection Hstep as <-. simpl.
    pose proof (get_removes_one _ _ _ Hget) as Hle.
    unfold done_false_count. rewrite Ht.
    split; [lia|]. split; [lia|]. by intros (? & ? & ? & ? & _).
  - injection Hstep as <-.
    destruct (input_step_puts ev s) as (_ & new & Htasks & Hnew).
    rewrite (done_false_count_app _ _ _ Htasks). fold (done_false_count (monitor s)).
    assert (length (filter (λ t, t = Done false) new) = 0%nat) as ->.
    { subst new. destruct ev; repeat (destruct (decide _)); done. }
    split; [lia|]. split; [lia|]. by intros (? & ? & ? & ? & _).
Qed.

Lemma done_false_put_witness :
  (reachable (demo_state demo_leaving)
   ∧ sys_step (on_thread 100 internal) (demo_state demo_leaving)
     = Some (demo_state (demo_leaving ++ [on_thread 100 internal])))
  ∧ done_false_count (monitor (demo_state (demo_leaving ++ [on_thread 100 internal])))
    = S (done_false_count (monitor (demo_state demo_leaving))).
Proof.
  assert (reachable (demo_state demo_leaving)) as Hr.
  { apply (demo_reachable demo_leaving). vm_compute. reflexivity. }
  assert (sys_step (on_thread 100 internal) (demo_state demo_leaving)
          = Some (demo_state (demo_leaving ++ [on_thread 100 internal]))) as Hs
    by (vm_compute; reflexivity).
  split; [split; [exact Hr|exact Hs]|].
  destruct (done_false_put _ _ _ Hr Hs) as [_ [_ H]]. apply H.
  exists 100, (mkThread (str "Thread-1") (Finally None)), None.
  split; [reflexivity|]. split; [vm_compute; reflexivity|].
  split; [reflexivity|]. split; vm_compute; reflexivity.
Defined.

Lemma count_threads_mono (P Q : pc → bool) ths :
  (∀ p, P p = true → Q p = true) → (count_threads P ths ≤ count_threads Q ths)%nat.
Proof.
  intros H. unfold count_threads. apply map_subseteq_size.
  apply map_filter_subseteq_ext. intros i th _. simpl. apply H.
Qed.

(** Property X2. In every reachable state [_n_work_threads] is the number of
    workers between their registration and the end of their wrapper and
    [_active_work_threads] the number of those that count as active; the
    active count lies between zero and the number of workers, and
    [caller_is_only_active_thread] answers whether exactly one worker is
    active and leaves the Monitor as it is. *)
Theorem work_thread_counters (s : System) :
  reachable s →
  _n_work_threads (monitor s) = Z.of_nat (count_threads live (threads s))
  ∧ _active_work_threads (monitor s) = Z.of_nat (count_threads counted (threads s))
  ∧ 0 <= _active_work_threads (monitor s) <= _n_work_threads (monitor s)
  ∧ caller_is_only_active_thread (monitor s)
    = Normal (bool_decide (count_threads counted (threads s) = 1%nat)) (monitor s).
Proof.
  intros Hr. pose proof (reachable_Inv s Hr) as HI.
  pose proof (inv_live s HI) as Hlive. pose proof (inv_active s HI) as Hact.
  split; [done|]. split; [done|]. split.
  { rewrite Hlive, Hact.
    pose proof (count_threads_mono counted live (threads s)) as Hle.
    split; [lia|]. apply inj_le, Hle. by intros []. }
  unfold caller_is_only_active_thread. run_monad. f_equal.
  rewrite Hact. apply bool_decide_ext. lia.
Qed.

Lemma work_thread_counters_witness :
  reachable (demo_state demo_pausing)
  ∧ _active_work_threads (monitor (demo_state demo_pausing))
    = Z.of_nat (count_threads counted (threads (demo_state demo_pausing))).
Proof.
  assert (reachable (demo_state demo_pausing)) as Hr.
  { apply (demo_reachable demo_pausing). vm_compute. reflexivity. }
  split; [exact Hr|].
  destruct (work_thread_counters _ Hr) as (_ & H & _). exact H.
Defined.

(** Property X3. One step of a worker in a reachable state appends at most
    one task to the queue, and a status that it appends carries the line
    index registered for that worker, an index that no other thread holds. *)
Theorem status_goes_to_own_line (s s' : System) (ident : Z) (a : action) :
  reachable s → thread_step ident a s = Some s' →
  ∃ new, _tasks (monitor s') = _tasks (monitor s) ++ new
    ∧ (length new ≤ 1)%nat
    ∧ ∀ i text, Status i text ∈ new →
        _line_indexes (monitor s) !! ident = Some i
        ∧ ∀ other, _line_indexes (monitor s) !! other = Some i → other = ident.
Proof.
  intros Hr Hstep. pose proof (reachable_Inv s Hr) as HI.
  destruct (thread_step_puts ident a s s' HI Hstep) as (th & new & Hth & Htasks & Hputs).
  exists new. split; [done|].
  assert ((length new ≤ 1)%nat
          ∧ ∀ i text, Status i text ∈ new → _line_indexes (monitor s) !! ident = Some i)
    as [Hlen Hown].
  { unfold puts in Hputs.
    destruct (at_pc th), a;
      try (subst new; split; [simpl; lia|]; intros i text Hin; by apply elem_of_nil in Hin);
      try (destruct Hputs as (j & Hj & ->); split; [simpl; lia|]; intros i text Hin;
           apply list_elem_of_singleton in Hin; by simplify_eq).
    - destruct (_stop_event (monitor s)).
      + subst new. split; [simpl; lia|]. intros i text Hin. by apply elem_of_nil in Hin.
      + destruct Hputs as (j & Hj & ->). split; [simpl; lia|]. intros i text Hin.
        apply list_elem_of_singleton in Hin. by simplify_eq.
    - subst new. destruct (decide _); (split; [simpl; lia|]); intros i text Hin.
      + by apply list_elem_of_singleton in Hin.
      + by apply elem_of_nil in Hin.
    - subst new. destruct (decide _); (split; [simpl; lia|]); intros i text Hin.
      + by apply list_elem_of_singleton in Hin.
      + by apply elem_of_nil in Hin. }
  split; [done|]. intros i text Hin. split; [by eapply Hown|].
  intros other Ho. apply (inv_unique s HI other ident i Ho). by eapply Hown.
Qed.

Lemma status_goes_to_own_line_witness :
  (reachable (demo_state [on_thread 100 internal])
   ∧ thread_step 100 (call_report_status (str "working"))
                 (demo_state [on_thread 100 internal])
     = Some (demo_state [on_thread 100 internal;
                         on_thread 100 (call_report_status (str "working"))]))
  ∧ ∃ new,
      _tasks (monitor (demo_state [on_thread 100 internal;
                                   on_thread 100 (call_report_status (str "working"))]))
      = _tasks (monitor (demo_state [on_thread 100 internal])) ++ new
      ∧ (length new ≤ 1)%nat.
Proof.
  assert (reachable (demo_state [on_thread 100 internal])) as Hr.
  { apply (demo_reachable [on_thread 100 internal]). vm_compute. reflexivity. }
  assert (thread_step 100 (call_report_status (str "working"))
                      (demo_state [on_thread 100 internal])
          = Some (demo_state [on_thread 100 internal;
                              on_thread 100 (call_report_status (str "working"))]))
    as Hs by (vm_compute; reflexivity).
  split; [split; [exact Hr|exact Hs]|].
  destruct (status_goes_to_own_line _ _ _ _ Hr Hs) as (new & H1 & H2 & _).
  exists new. split; [exact H1|exact H2].
Defined.







Lemma thread_step_display ident a s s' :
  thread_step ident a s = Some s' → display (monitor s') = display (monitor s).
Proof.
  unfold thread_step. destruct (threads s !! ident) as [th|]; [|done]. simpl.
  assert (∀ text, keeps display (report_status ident text)) as Hreport
    by (intros; keeps).
  assert (keeps display (work_thread_finally ident)) as Hfinally by keeps.
  assert (∀ n e, keeps display (work_thread_except n ident e)) as Hexcept
    by (intros; keeps).
  destruct (at_pc th), a; try done; simpl.
  - destruct (work_thread_enter_spec ident (monitor s)) as (i & -> & _).
    simpl. by intros [= <-].
  - specialize (Hreport status (monitor s)).
    destruct (report_status _ _ _); [| |done]; by intros [= <-].
  - by intros [= <-].
  - destruct (_ && _); [|done]. by intros [= <-].
  - by intros [= <-].
  - by intros [= <-].
  - specialize (Hreport NUL (monitor s)). destruct (_stop_event _); simpl.
    + by intros [= <-].
    + destruct (report_status _ _ _); [| |done]; by intros [= <-].
  - destruct (_pause_event _); simpl; by intros [= <-].
  - intros [= <-]. simpl. by destruct (decide _).
  - specialize (Hreport NUL (monitor s)).
    destruct (report_status _ _ _); [| |done]; by intros [= <-].
  - destruct (_pause_event _); simpl; by intros [= <-].
  - by intros [= <-].
  - specialize (Hexcept (name th) e (monitor s)).
    destruct (work_thread_except _ _ _ _); [| |done]; by intros [= <-].
  - specialize (Hfinally (monitor s)).
    destruct (work_thread_finally _ _); [| |done]; by intros [= <-].
Qed.

Lemma thread_step_appends ident a s s' :
  thread_step ident a s = Some s' →
  ∃ new, _tasks (monitor s') = _tasks (monitor s) ++ new.
Proof.
  unfold thread_step. destruct (threads s !! ident) as [th|]; [|done]. simpl.
  assert (∀ text m, ∃ new,
            match report_status ident text m with
            | Normal _ m' | Raised _ m' | Killed _ m' => _tasks m' = _tasks m ++ new
            end) as Hreport.
  { intros text m. unfold report_status. run_monad.
    destruct (_line_indexes m !! ident); run_monad; eexists; [done|].
    by rewrite app_nil_r. }
  assert (∀ m, ∃ new,
            match work_thread_finally ident m with
            | Normal _ m' | Raised _ m' | Killed _ m' => _tasks m' = _tasks m ++ new
            end) as Hfinally.
  { intros m. unfold work_thread_finally. run_monad.
    destruct (_line_indexes m !! ident); run_monad; [|exists []; by rewrite app_nil_r].
    destruct (decide _); run_monad; [|exists []; by rewrite app_nil_r].
    destruct (decide _); run_monad; eexists; [done|by rewrite app_nil_r]. }
  destruct (at_pc th), a; try done; simpl.
  - destruct (work_thread_enter_spec ident (monitor s)) as (i & -> & _).
    simpl. intros [= <-]. exists []. simpl. by rewrite app_nil_r.
  - destruct (Hreport status (monitor s)) as [new Hnew].
    destruct (report_status _ _ _); [| |done]; intros [= <-]; by exists new.
  - intros [= <-]. exists []. by rewrite app_nil_r.
  - destruct (_ && _); [|done]. intros [= <-]. exists []. by rewrite app_nil_r.
  - intros [= <-]. exists []. by rewrite app_nil_r.
  - intros [= <-]. exists []. by rewrite app_nil_r.
  - destruct (Hreport NUL (monitor s)) as [new Hnew]. destruct (_stop_event _); simpl.
    + intros [= <-]. exists []. by rewrite app_nil_r.
    + destruct (report_status _ _ _); [| |done]; intros [= <-]; by exists new.
  - destruct (_pause_event _); simpl; intros [= <-]; exists []; by rewrite app_nil_r.
  - intros [= <-]. simpl. destruct (decide _); simpl; eexists; [done|by rewrite app_nil_r].
  - destruct (Hreport NUL (monitor s)) as [new Hnew].
    destruct (report_status _ _ _); [| |done]; intros [= <-]; by exists new.
  - destruct (_pause_event _); simpl; intros [= <-]; exists []; by rewrite app_nil_r.
  - intros [= <-]. exists []. simpl. by rewrite app_nil_r.
  - unfold work_thread_except. unfold mbind at 1, M_bind at 1. unfold modify at 1.
    set (m1 := set_worker_exceptions _ _).
    destruct (Hreport (str "*** Uncaught exception: "
                       ++ slice_to (format_exception_only_0 e) (-1)) m1) as [new Hnew].
    destruct (report_status _ _ _); [| |done]; intros [= <-]; by exists new.
  - destruct (Hfinally (monitor s)) as [new Hnew].
    destruct (work_thread_finally _ _); [| |done]; intros [= <-]; by exists new.
Qed.

Lemma input_step_frame ev s :
  display (monitor (input_step ev s)) = display (monitor s)
  ∧ bookkeeping (monitor (input_step ev s)) = bookkeeping (monitor s).
Proof.
  unfold input_step. destruct ev as [ch|sig];
    unfold handle_input_char, handle_signal_char;
    repeat (destruct (decide _)); run_monad; done.
Qed.

(** Property X5. Each kind of thread writes its own part of the Monitor. A
    round of the output loop leaves the worker bookkeeping alone, takes one
    task from the queue and moves no worker except from its sleep at the
    checkpoint when the pause is over; a step of the input thread leaves
    display, bookkeeping and workers alone and appends at most one task, a
    [Redraw], [Suspend] or [Exit]; a step of a worker leaves the display
    alone and only appends to the queue. *)
Theorem threads_write_their_own_fields (l : label) (s s' : System) :
  sys_step l s = Some s' →
  match l with
  | on_output size =>
      bookkeeping (monitor s') = bookkeeping (monitor s)
      ∧ (∃ task, PriorityQueue.get (_tasks (monitor s))
                 = Some (task, _tasks (monitor s')))
      ∧ (∀ ident, at_pc <$> threads s' !! ident = at_pc <$> threads s !! ident
                  ∨ (at_pc <$> threads s !! ident = Some Sleeping
                     ∧ at_pc <$> threads s' !! ident = Some Reactivate
                     ∧ _pause_event (monitor s') = true))
  | on_input ev =>
      display (monitor s') = display (monitor s)
      ∧ bookkeeping (monitor s') = bookkeeping (monitor s)
      ∧ threads s' = threads s
      ∧ ∃ new, _tasks (monitor s') = _tasks (monitor s) ++ new
          ∧ (length new ≤ 1)%nat
          ∧ ∀ t, t ∈ new → t = Redraw ∨ (∃ sig, t = Suspend sig) ∨ ∃ sig, t = Exit sig
  | on_thread ident a =>
      display (monitor s') = display (monitor s)
      ∧ ∃ new, _tasks (monitor s') = _tasks (monitor s) ++ new
  end.
Proof.
  intros Hstep. destruct l as [ident a|size|ev]; simpl in Hstep.
  - split; [by eapply thread_step_display|by eapply thread_step_appends].
  - unfold output_step in Hstep.
    destruct (loop_round size (monitor s)) as [m'| | | |] eqn:Hround; try done.
    destruct (loop_round_shared _ _ _ Hround) as (task & rest & Hget & Hsh).
    unfold shared in Hsh. simpl in Hsh. injection Hsh as E1 E2 E3 E4 E5 E6.
    injection Hstep as <-. simpl. split; [unfold bookkeeping; congruence|].
    split; [exists task; congruence|].
    intros ident. destruct (_pause_event m') eqn:Hp; [|by left].
    rewrite lookup_fmap. destruct (threads s !! ident) as [th|]; [|by left]. simpl.
    unfold release. destruct (at_pc th) eqn:Hpc; simpl; rewrite ?Hpc; auto.
  - injection Hstep as <-. destruct (input_step_puts ev s) as (Hths & new & Htasks & Hnew).
    destruct (input_step_frame ev s) as [Hd Hb].
    split; [done|]. split; [done|]. split; [done|]. exists new. split; [done|].
    subst new. destruct ev as [ch|sig]; repeat (destruct (decide _)); simpl;
      (split; [lia|]); intros t Ht;
      try (by apply elem_of_nil in Ht); apply list_elem_of_singleton in Ht; subst; eauto.
Qed.

Lemma threads_write_their_own_fields_witness :
  sys_step (on_input (keyboard (Some 27))) (demo_state demo_working)
  = Some (demo_state (demo_working ++ [on_input (keyboard (Some 27))]))
  ∧ display (monitor (demo_state (demo_working ++ [on_input (keyboard (Some 27))])))
    = display (monitor (demo_state demo_working)).
Proof.
  assert (sys_step (on_input (keyboard (Some 27))) (demo_state demo_working)
          = Some (demo_state (demo_working ++ [on_input (keyboard (Some 27))])))
    as Hs by (vm_compute; reflexivity).
  split; [exact Hs|].
  destruct (threads_write_their_own_fields _ _ _ Hs) as [H _]. exact H.
Defined.

(** ** The rows of the terminal *)

(** The fields of a Monitor that setters have built. *)
Ltac monitor_fields :=
  cbn [calls _lines _line_attrs _max_y _max_x _encoding _pid _sigpipe _tasks
       _stop_event _pause_event _n_work_threads _active_work_threads
       _worker_exceptions _banner _addmsg _line_indexes _line_indexes_used
       old_addmsg exit_signal set_tasks set_stop_event set_pause_event
       set_n_work_threads set_active_work_threads set_worker_exceptions
       set_addmsg set_lines set_line_attrs set_line_indexes
       set_line_indexes_used set_max_y set_max_x set_old_addmsg
       set_exit_signal set_calls].

Lemma preserves_for_each_in (P : Monitor → Prop) {A} (l : list A) body :
  (∀ x, x ∈ l → preserves P (body x)) → preserves P (for_each l body).
Proof.
  intros H. induction l as [|x l IH]; simpl; [apply preserves_ret|].
  apply preserves_bind.
  - apply H. apply list_elem_of_here.
  - intros _. apply IH. intros y Hy. apply H. by apply list_elem_of_further.
Qed.

Ltac rows_side :=
  let m := fresh "m" in let Hm := fresh "Hm" in
  intros m Hm; unfold rows_ok in *; simpl;
  first [ exact Hm
        | apply Forall_app; split; [exact Hm|];
          repeat constructor; simpl; first [done | lia] ].

Ltac rows_step :=
  lazymatch goal with
  | |- preserves _ (mret _) => apply preserves_ret
  | |- preserves _ (raise _) => apply preserves_raise
  | |- preserves _ (die _) => apply preserves_die
  | |- preserves _ (gets _) => apply preserves_gets
  | |- preserves _ (modify _) => apply preserves_modify; rows_side
  | |- preserves _ (for_each (seqZ _ _) _) =>
      apply preserves_for_each_in; intros ? ?%elem_of_seqZ
  | |- preserves _ (for_each _ _) => apply preserves_for_each; intros ?
  | |- preserves _ (mbind _ _) => apply preserves_bind; [|intros ?]
  | |- preserves _ (if ?c then _ else _) => destruct c
  | |- preserves _ (match ?x with _ => _ end) => destruct x
  | |- preserves _ ?c => let h := head_of c in unfold h
  end.
Ltac rows := repeat rows_step.

Lemma rows_ok_dispatch size task : preserves rows_ok (dispatch size task).
Proof. destruct task as [idx text| | sig | sig | [|]]; rows. Qed.

Lemma rows_ok_except_clause size e : preserves rows_ok (except_clause size e).
Proof. rows. Qed.

Lemma rows_ok_prologue : preserves rows_ok output_thread_prologue.
Proof. rows. Qed.

Lemma rows_ok_loop_round size m :
  rows_ok m →
  match loop_round size m with
  | Continue m' | Returned m' | Propagated _ m' | Died _ m' => rows_ok m'
  | Blocked => True
  end.
Proof.
  intros Hok. unfold loop_round.
  destruct (PriorityQueue.get (_tasks m)) as [[task rest]|]; [|done].
  pose proof (rows_ok_dispatch size task (set_tasks (λ _, rest) m) Hok) as Hd.
  destruct (dispatch size task _) as [[|] m1|e m1|sig m1]; try done.
  pose proof (rows_ok_except_clause size e m1 Hd) as He.
  by destruct (except_clause size e m1) as [? m2|? m2|? m2].
Qed.

Lemma sys_step_rows_ok l s s' :
  rows_ok (monitor s) → sys_step l s = Some s' → rows_ok (monitor s').
Proof.
  intros Hok Hstep. destruct l as [ident a|size|ev]; simpl in Hstep.
  - pose proof (thread_step_display ident a s s' Hstep) as Hd.
    unfold display in Hd. unfold rows_ok in *.
    injection Hd as -> _ _ _ _ _ _ _ _ _. done.
  - unfold output_step in Hstep.
    pose proof (rows_ok_loop_round size (monitor s) Hok) as Hr.
    destruct (loop_round size (monitor s)); try done. by injection Hstep as <-.
  - injection Hstep as <-. destruct (input_step_frame ev s) as [Hd _].
    unfold display in Hd. unfold rows_ok in *.
    injection Hd as -> _ _ _ _ _ _ _ _ _. done.
Qed.

Lemma reachable_rows_ok s : reachable s → rows_ok (monitor s).
Proof.
  intros (enc & pid & sigpipe & banner & size & ident & name & s0 & trace & Hs & Hr).
  assert (rows_ok (monitor s0)) as H0.
  { unfold start in Hs.
    assert (rows_ok (new_monitor enc pid sigpipe banner size)) as Hnew.
    { unfold rows_ok. simpl. repeat constructor. }
    pose proof (rows_ok_prologue (new_monitor enc pid sigpipe banner size) Hnew) as Hp.
    destruct (output_thread_prologue _) as [? m| |]; [|done|done].
    by injection Hs as <-. }
  clear Hs. revert s0 H0 Hr. induction trace as [|l trace IH]; intros s0 H0; simpl.
  { by intros [= <-]. }
  destruct (sys_step l s0) as [s1|] eqn:Hstep; [|done]. simpl.
  apply IH. by eapply sys_step_rows_ok.
Qed.

(** Property X6. In a reachable state, and after one more round of the
    output loop on a window of any size, every line drawn on the terminal
    starts in column 0 of a row below the top one, and every text written
    with [addstr] is at the origin in reverse video: the top row belongs to
    the banner. *)
Theorem top_row_is_reserved (s : System) (size : Z * Z) :
  reachable s →
  Forall on_its_row (calls (monitor s))
  ∧ match loop_round size (monitor s) with
    | Continue m' | Returned m' | Propagated _ m' | Died _ m' =>
        Forall on_its_row (calls m')
    | Blocked => True
    end.
Proof.
  intros Hr. pose proof (reachable_rows_ok s Hr) as Hok. split; [done|].
  by apply rows_ok_loop_round.
Qed.

Lemma top_row_is_reserved_witness :
  reachable (demo_state demo_working)
  ∧ Forall on_its_row (calls (monitor (demo_state demo_working))).
Proof.
  assert (reachable (demo_state demo_working)) as Hr.
  { apply (demo_reachable demo_working). vm_compute. reflexivity. }
  split; [exact Hr|].
  destruct (top_row_is_reserved _ demo_size Hr) as [H _]. exact H.
Defined.

Lemma set_calls_id m : set_calls (λ l, l ++ []) m = m.
Proof. destruct m. unfold set_calls. simpl. by rewrite app_nil_r. Qed.

Lemma set_calls_set_calls a b m :
  set_calls (λ l, l ++ b) (set_calls (λ l, l ++ a) m) = set_calls (λ l, l ++ a ++ b) m.
Proof. unfold set_calls. simpl. by rewrite app_assoc. Qed.



Local Opaque Banner._compute_banner_internal.


Local Transparent Banner._compute_banner_internal.



Lemma keeps_request_state_do_redraw size : keeps request_state (_do_redraw size).
Proof. keeps. Qed.

Local Opaque str.

(** Property X8. However the redraw of an [Exit] or [Suspend] task ends, the
    request is registered: the event is cleared (the other one untouched),
    the signal is kept in [exit_signal], the banner message says so (a
    [Suspend] saves the old message first), the texts of the lines are kept
    and every line is flagged bold. *)
Theorem request_is_registered (size : Z * Z) (sig : Z) (m : Monitor) :
  match dispatch size (Exit sig) m with
  | Normal _ m' | Raised _ m' | Killed _ m' =>
      _stop_event m' = false ∧ _pause_event m' = _pause_event m
      ∧ exit_signal m' = sig
      ∧ _addmsg m'
        = Some (if decide (sig = 0) then str "Shutting down."
                else str "Shutting down (signal " ++ str_of_Z sig ++ str ").")
      ∧ _lines m' = _lines m
      ∧ _line_attrs m' = replicate (length (_line_attrs m)) A_BOLD
  end
  ∧ match dispatch size (Suspend sig) m with
    | Normal _ m' | Raised _ m' | Killed _ m' =>
        _pause_event m' = false ∧ _stop_event m' = _stop_event m
        ∧ exit_signal m' = sig
        ∧ old_addmsg m' = _addmsg m ∧ _addmsg m' = Some (str "Pausing.")
        ∧ _lines m' = _lines m
        ∧ _line_attrs m' = replicate (length (_line_attrs m)) A_BOLD
    end.
Proof.
  assert (∀ l : list attr, (λ _, A_BOLD) <$> l = replicate (length l) A_BOLD) as Hbold.
  { induction l as [|x l IH]; simpl; [done|]. by rewrite <- IH. }
  split.
  - unfold dispatch, _flag_all_lines. run_monad.
    destruct (decide (sig ≠ 0)) as [Hnz|Hz]; run_monad;
      (lazymatch goal with
       | |- context [_do_redraw size ?m0] =>
           pose proof (keeps_request_state_do_redraw size m0) as Hk;
           destruct (_do_redraw size m0) as [? m'|? m'|? m']
       end);
      unfold request_state in Hk; simpl in Hk;
      injection Hk as E1 E2 E3 E4 E5 E6 E7; simpl;
      rewrite E1, E2, E3, E5, E6, E7, Hbold;
      destruct (decide (sig = 0)); first [done | exfalso; tauto].
  - unfold dispatch, _flag_all_lines. run_monad.
    lazymatch goal with
    | |- context [_do_redraw size ?m0] =>
        pose proof (keeps_request_state_do_redraw size m0) as Hk;
        destruct (_do_redraw size m0) as [? m'|? m'|? m']
    end;
      unfold request_state in Hk; simpl in Hk;
      injection Hk as E1 E2 E3 E4 E5 E6 E7; simpl;
      rewrite E1, E2, E3, E4, E5, E6, E7, Hbold; done.
Qed.

Local Transparent str.

(** ** The end of a pause *)

Local Opaque Banner._compute_banner_internal _do_redraw.




Lemma do_suspend_no_signal size old m :
  _do_suspend size 0 old m
  = Raised ValueError (set_calls (λ l, l ++ [endwin]) m).
Proof. unfold _do_suspend, signal_signal_. run_monad. done. Qed.

Local Opaque _do_suspend.


(** Property X10. A [(_DONE, True)] that arrives when no signal is on record
    raises [ValueError] in [_do_suspend] after [endwin] alone; the round of
    the loop then clears the stop event and leaves the pause event alone,
    and it never blocks nor returns normally: it goes on with the crash
    message as banner, or ends by the exception or by a signal. *)
Theorem done_true_without_suspend (size : Z * Z) (m : Monitor) (rest : PriorityQueue.t) :
  PriorityQueue.get (_tasks m) = Some (Done true, rest) →
  exit_signal m = 0 → _stop_event m = true →
  dispatch size (Done true) (set_tasks (λ _, rest) m)
  = Raised ValueError (set_calls (λ l, l ++ [endwin]) (set_tasks (λ _, rest) m))
  ∧ match loop_round size m with
    | Continue m' =>
        _stop_event m' = false ∧ _pause_event m' = _pause_event m
        ∧ _addmsg m' = Some (crash_message ValueError)
    | Propagated _ m' | Died _ m' =>
        _stop_event m' = false ∧ _pause_event m' = _pause_event m
    | Returned _ | Blocked => False
    end.
Proof.
  intros Hget Hsig Hstop.
  assert (dispatch size (Done true) (set_tasks (λ _, rest) m)
          = Raised ValueError
              (set_calls (λ l, l ++ [endwin]) (set_tasks (λ _, rest) m))) as Hd.
  { unfold dispatch. run_monad. rewrite Hsig. by rewrite do_suspend_no_signal. }
  split; [done|].
  destruct (loop_round_fault size m _ rest _ _ Hget Hd) as [_ H2].
  specialize (H2 Hstop). cbv zeta in H2.
  lazymatch type of H2 with
  | context [_do_redraw size ?m0] =>
      pose proof (keeps_request_state_do_redraw size m0) as Hk;
      destruct (_do_redraw size m0) as [? m'|? m'|? m']
  end; unfold request_state in Hk; simpl in Hk;
    injection Hk as E1 E2 _ _ E5 _ _.
  - destruct H2 as (-> & _). by rewrite E1, E2, E5.
  - destruct H2 as (-> & _). by rewrite E1, E2.
  - rewrite H2. by rewrite E1, E2.
Qed.

Local Transparent _do_suspend.

Local Transparent Banner._compute_banner_internal _do_redraw.


Lemma done_true_without_suspend_witness :
  (PriorityQueue.get (_tasks demo_stray) = Some (Done true, [])
   ∧ exit_signal demo_stray = 0 ∧ _stop_event demo_stray = true)
  ∧ dispatch demo_size (Done true) (set_tasks (λ _, []) demo_stray)
    = Raised ValueError
        (set_calls (λ l, l ++ [endwin]) (set_tasks (λ _, []) demo_stray)).
Proof.
  assert (PriorityQueue.get (_tasks demo_stray) = Some (Done true, [])) as Hg
    by (vm_compute; reflexivity).
  assert (exit_signal demo_stray = 0) as Hs by (vm_compute; reflexivity).
  assert (_stop_event demo_stray = true) as He by (vm_compute; reflexivity).
  split; [split; [exact Hg|split; [exact Hs|exact He]]|].
  destruct (done_true_without_suspend demo_size _ _ Hg Hs He) as [H _]. exact H.
Defined.

(** ** The teardown and the width of the banner *)

Lemma str_compare_antisym a b : str_compare b a = CompOpp (str_compare a b).
Proof. rewrite !str_compare_lex. apply lex_antisym. Qed.

Global Instance str_le_total : Total str_le.
Proof.
  intros a b. unfold str_le. rewrite (str_compare_antisym a b).
  destruct (str_compare a b); simpl; auto.
Qed.

Lemma sorted_keys_spec (excs : gmap pystr exn) :
  Sorted str_le (sorted_keys excs) ∧ NoDup (sorted_keys excs)
  ∧ ∀ tid, tid ∈ sorted_keys excs ↔ is_Some (excs !! tid).
Proof.
  unfold sorted_keys. split; [apply (Sorted_merge_sort str_le)|]. split.
  - rewrite merge_sort_Permutation. apply NoDup_elements.
  - intros tid. rewrite merge_sort_Permutation, elem_of_elements, elem_of_dom. done.
Qed.

Local Opaque str.

Lemma write_all_exact (excs : gmap pystr exn) (keys : list pystr) m :
  for_each keys (λ tid,
    match excs !! tid with
    | Some e => write_exception tid e
    | None => raise (KeyError tid)
    end) m
  = (if decide (Forall (λ tid, is_Some (excs !! tid)) keys) then
       Normal tt (set_calls (λ l, l ++ (tid ← keys;
                                        match excs !! tid with
                                        | Some e => exception_writes tid e
                                        | None => []
                                        end)) m)
     else for_each keys (λ tid,
            match excs !! tid with
            | Some e => write_exception tid e
            | None => raise (KeyError tid)
            end) m).
Proof.
  destruct (decide _) as [Hall|]; [|done].
  revert m. induction Hall as [|tid keys [e He] Hall IH]; intros m.
  { simpl. by rewrite set_calls_id. }
  cbn [for_each]. unfold mbind at 1, M_bind at 1. rewrite He, write_exception_spec.
  rewrite IH. f_equal. rewrite set_calls_set_calls. simpl. by rewrite He.
Qed.

(** Property X11. The finally clause of the constructor always ends curses,
    restores the wakeup descriptor and closes both ends of the signal pipe,
    then writes the recorded worker exceptions in the sorted order of the
    thread names, each name once, and nothing when none is recorded; it
    raises [SystemExit(1)] exactly when an exception is recorded and no
    exception is in flight. *)
Theorem teardown_sequence (in_flight : option exn) (m : Monitor) :
  ∃ m', teardown in_flight m
        = (if decide (_worker_exceptions m ≠ ∅ ∧ in_flight = None)
           then Raised (SystemExit (Some 1)) m' else Normal tt m')
    ∧ calls m' = calls m ++ [endwin; restore_wakeup_fd; os_close (_sigpipe m).1;
                             os_close (_sigpipe m).2]
                 ++ fault_report (_worker_exceptions m)
    ∧ Sorted str_le (sorted_keys (_worker_exceptions m))
    ∧ NoDup (sorted_keys (_worker_exceptions m))
    ∧ (∀ tid, tid ∈ sorted_keys (_worker_exceptions m)
              ↔ is_Some (_worker_exceptions m !! tid))
    ∧ (_worker_exceptions m = ∅ → fault_report (_worker_exceptions m) = []).
Proof.
  destruct (sorted_keys_spec (_worker_exceptions m)) as (Hsorted & Hnodup & Hkeys).
  unfold teardown, report_worker_exceptions. run_monad.
  destruct (decide (_worker_exceptions m ≠ ∅)) as [Hne|He].
  - rewrite write_all_exact. rewrite decide_True; last first.
    { apply Forall_forall. intros tid Hin. by apply Hkeys. }
    destruct (decide (in_flight = None)) as [->|Hfl].
    + eexists. rewrite decide_True by done. split; [reflexivity|].
      split; [|done]. monitor_fields. by rewrite <- !app_assoc.
    + eexists. rewrite decide_False by tauto. split; [reflexivity|].
      split; [|done]. monitor_fields. by rewrite <- !app_assoc.
  - eexists. rewrite decide_False by tauto. split; [reflexivity|].
    assert (_worker_exceptions m = ∅) as Hempty.
    { destruct (decide (_worker_exceptions m = ∅)); [done|]. by destruct He. }
    assert (fault_report (_worker_exceptions m) = []) as Hnone.
    { unfold fault_report, sorted_keys. rewrite Hempty, dom_empty_L, elements_empty.
      done. }
    split; [|done]. monitor_fields. rewrite Hnone. by rewrite <- !app_assoc.
Qed.

Local Transparent str.

Lemma len_replicate {A} n (x : A) : len (replicate n x) = Z.of_nat n.
Proof. unfold len. by rewrite length_replicate. Qed.

(** Property X12. For a width that is not negative the banner text has
    exactly that many characters. When the help text fits it appears in
    full, followed by spaces only; when the title fits as well, title and
    help text stand between two runs of spaces of which the right one is as
    long as the left one or one longer. *)
Theorem banner_fills_the_width (w : Z) (banner addmsg : pystr) :
  0 <= w →
  len (_compute_banner_internal banner addmsg w) = w
  ∧ (len (help_text banner addmsg) <= w →
     ∃ pre post,
       _compute_banner_internal banner addmsg w
       = pre ++ help_text banner addmsg ++ post
       ∧ Forall (λ c, c = N_of_ascii " ") post)
  ∧ (len banner + len (help_text banner addmsg) <= w →
     ∃ pre post,
       _compute_banner_internal banner addmsg w
       = pre ++ banner ++ help_text banner addmsg ++ post
       ∧ Forall (λ c, c = N_of_ascii " ") pre
       ∧ Forall (λ c, c = N_of_ascii " ") post
       ∧ len pre <= len post <= len pre + 1).
Proof.
  intros Hw. rewrite banner_layout_refines.
  set (H := help_text banner addmsg). unfold banner_layout.
  assert (∀ n, Forall (λ c : N, c = N_of_ascii " ") (spaces n)) as Hsp.
  { intros n. unfold spaces. apply Forall_forall. by intros c [-> _]%elem_of_replicate. }
  pose proof (len_nonneg banner) as Hb. pose proof (len_nonneg H) as Hh.
  destruct (decide (len H > w)) as [Hlong|Hfit].
  { split; [|split; intros; lia].
    unfold rightmost, len in *. rewrite length_drop. lia. }
  destruct (decide (len banner + len H > w)) as [Hover|Hroom].
  - split; [|split; [|intros; lia]].
    + destruct (decide (len banner <= 2)); [|destruct (decide (w - len H <= 2))].
      * unfold right_truncate. rewrite len_app. unfold len in *.
        rewrite length_take. lia.
      * unfold dots. rewrite len_app, len_replicate. lia.
      * unfold right_truncate. rewrite !len_app. unfold len in *.
        rewrite length_take. change (length (str "..")) with 2%nat. lia.
    + intros _. destruct (decide (len banner <= 2)); [|destruct (decide (w - len H <= 2))].
      * eexists. exists []. by rewrite app_nil_r.
      * eexists. exists []. by rewrite app_nil_r.
      * eexists (_ ++ str ".."). exists []. by rewrite app_nil_r, <- app_assoc.
  - assert (len (banner ++ H) <= w) as Hle by (rewrite len_app; lia).
    unfold centered.
    set (total := (Z.to_nat w - length (banner ++ H))%nat).
    assert (Z.of_nat total = w - len (banner ++ H)) as Htotal
      by (unfold total, len in *; lia).
    pose proof (Nat.div2_odd total) as Hodd.
    assert (2 * Nat.div2 total <= total)%nat as Hdiv
      by (destruct (Nat.odd total); simpl in Hodd; lia).
    split; [|split].
    + rewrite !len_app. unfold spaces. rewrite !len_replicate.
      rewrite len_app in Htotal. lia.
    + intros _. exists (spaces (Nat.div2 total) ++ banner), (spaces (total - Nat.div2 total)).
      split; [by rewrite <- !app_assoc|apply Hsp].
    + intros _. exists (spaces (Nat.div2 total)), (spaces (total - Nat.div2 total)).
      split; [by rewrite <- !app_assoc|]. split; [apply Hsp|]. split; [apply Hsp|].
      unfold spaces. rewrite !len_replicate.
      destruct (Nat.odd total); simpl in Hodd; lia.
Qed.

Lemma banner_fills_the_width_witness :
  0 <= 7
  ∧ len (Banner._compute_banner_internal (str "Canonicalizing URLs")
                                         (str "Press ESC to stop.") 7) = 7.
Proof.
  assert (0 <= 7) as Hw by lia.
  split; [exact Hw|].
  destruct (banner_fills_the_width 7 (str "Canonicalizing URLs")
              (str "Press ESC to stop.") Hw) as [H _].
  exact H.
Defined.

(** ** Reading a response and logging it *)

Lemma load_chunks_spec body0 chunks body closed :
  load_chunks body0 chunks = (body, closed) →
  (∃ k, (k ≤ length chunks)%nat ∧ body = body0 ++ content (take k chunks)
        ∧ (closed = false → k = length chunks))
  ∧ (closed = false →
     Forall (λ c, c.2 = false) chunks ∧ (chunks ≠ [] → len body <= 16 * 1024))
  ∧ (closed = true →
     ∃ k chunk late, chunks !! k = Some (chunk, late)
       ∧ body = body0 ++ content (take (S k) chunks)
       ∧ (len body > 16 * 1024 ∨ late = true)
       ∧ len (body0 ++ content (take k chunks)) <= Z.max (len body0) (16 * 1024)
       ∧ Forall (λ c, c.2 = false) (take k chunks))
  ∧ (len body0 <= 16 * 1024 → Forall (λ c, len c.1 <= 1024) chunks →
     len body <= 16 * 1024 + 1024).
Proof.
  revert body0. induction chunks as [|[chunk late] chunks IH]; intros body0; simpl.
  { intros [= <- <-]. split.
    { exists 0%nat. split; [done|]. split; [|done]. unfold content. simpl.
      by rewrite app_nil_r. }
    split; [done|]. split; [done|]. intros. lia. }
  destruct (bool_decide (len (body0 ++ chunk) > 16 * 1024) || late) eqn:Hstop.
  - intros [= <- <-]. split.
    { exists 1%nat. split; [simpl; lia|]. split; [|done]. unfold content. simpl.
      by rewrite ?take_0, ?app_nil_r. }
    split; [done|]. split.
    + intros _. exists 0%nat, chunk, late. split; [done|]. split.
      { unfold content. simpl. by rewrite ?take_0, ?app_nil_r. }
      split.
      { apply orb_true_iff in Hstop as [H|H]; [left|by right].
        by apply bool_decide_eq_true in H. }
      split; [|by rewrite ?take_0].
      unfold content. simpl. rewrite app_nil_r. lia.
    + intros Hb Hall. apply Forall_cons in Hall as [Hc _]. simpl in Hc.
      rewrite len_app. lia.
  - apply orb_false_iff in Hstop as [Hlen ->]. apply bool_decide_eq_false in Hlen.
    intros Hload. destruct (IH _ Hload) as ((k & Hk & Hbody & Hall) & Hopen & Hclosed & Hbound).
    split.
    { exists (S k). split; [simpl; lia|]. split; [|intros Hc; by rewrite (Hall Hc)].
      rewrite Hbody. unfold content. simpl. by rewrite app_assoc. }
    split.
    { intros Hc. destruct (Hopen Hc) as [Hf Hl]. split; [by constructor|].
      intros _. destruct chunks as [|c chunks]; [|by apply Hl].
      simpl in Hload. injection Hload as <- _. unfold len in *. lia. }
    split.
    + intros Hc. destruct (Hclosed Hc) as (j & chunk' & late' & Hj & Hb & Hwhy & Hbefore & Hf).
      exists (S j), chunk', late'. split; [done|]. split.
      { rewrite Hb. unfold content. simpl. by rewrite app_assoc. }
      split; [done|]. split.
      * change (content (take (S j) ((chunk, false) :: chunks)))
          with (chunk ++ content (take j chunks)).
        rewrite app_assoc. lia.
      * simpl. by constructor.
    + intros Hb Hsmall. apply Forall_cons in Hsmall as [_ Hsmall].
      apply Hbound; [lia|done].
Qed.

(** Property X13. [load_enough_content] returns a prefix of the chunks of
    the response. When it does not close the response the body is the whole
    content, of at most 16 KiB, and no chunk came late; when it closes it,
    the body ends with the first chunk that took it over 16 KiB or came
    after five seconds. With chunks of at most 1024 bytes the body has at
    most 17 KiB. *)
Theorem load_enough_content_bound (resp : Response.t) :
  let chunks := Response.iter_content resp in
  let body := (load_enough_content resp).1 in
  let closed := (load_enough_content resp).2 in
  (∃ k, (k ≤ length chunks)%nat ∧ body = content (take k chunks))
  ∧ (closed = false →
     body = content chunks ∧ len body <= 16 * 1024
     ∧ Forall (λ c, c.2 = false) chunks)
  ∧ (closed = true →
     ∃ k chunk late, chunks !! k = Some (chunk, late)
       ∧ body = content (take (S k) chunks)
       ∧ (len body > 16 * 1024 ∨ late = true)
       ∧ len (content (take k chunks)) <= 16 * 1024
       ∧ Forall (λ c, c.2 = false) (take k chunks))
  ∧ (Forall (λ c, len c.1 <= 1024) chunks → len body <= 17 * 1024).
Proof.
  cbv zeta. unfold load_enough_content.
  destruct (load_chunks [] (Response.iter_content resp)) as [body closed] eqn:Hload.
  destruct (load_chunks_spec _ _ _ _ Hload)
    as ((k & Hk & Hbody & Hall) & Hopen & Hclosed & Hbound). simpl.
  split; [by exists k|]. split.
  { intros Hc. destruct (Hopen Hc) as [Hf Hl]. rewrite (Hall Hc), firstn_all in Hbody.
    split; [done|]. split; [|done].
    destruct (Response.iter_content resp) as [|c cs] eqn:E; [|by apply Hl].
    subst body. unfold content, len. simpl. lia. }
  split.
  { intros Hc. destruct (Hclosed Hc) as (j & chunk & late & Hj & Hb & Hwhy & Hbefore & Hf).
    exists j, chunk, late. split; [done|]. split; [done|]. split; [done|].
    split; [|done]. simpl in Hbefore. unfold len in Hbefore at 2.
    simpl in Hbefore. lia. }
  intros Hall'. unfold len in Hbound at 1. simpl in Hbound.
  specialize (Hbound ltac:(lia) Hall'). lia.
Qed.

Local Opaque str.

Lemma http_report_status_spec ident msg self m idx :
  0 <= _max_x m → _line_indexes m !! ident = Some idx →
  HTTPWorker.report_status ident msg self m
  = Normal (HTTPWorker.mk msg)
      (set_tasks
         (PriorityQueue.put
            (Status idx
               (take (Z.to_nat (_max_x m `div` 2)) (HTTPWorker.prev_msg self)
                ++ replicate (Z.to_nat (_max_x m `div` 2)
                              - length (take (Z.to_nat (_max_x m `div` 2))
                                             (HTTPWorker.prev_msg self))) 32%N
                ++ str " " ++ msg))) m).
Proof.
  intros Hx Hi. unfold HTTPWorker.report_status, HTTPWorker.format_left. run_monad.
  rewrite decide_False by (apply Z.le_ngt, Z.div_pos; lia). run_monad.
  rewrite (report_status_indexed _ _ _ _ Hi). by rewrite <- app_assoc.
Qed.

(** Property X14. On a terminal of known width and for a registered thread,
    [HTTPWorker.report_status] puts one status for the line of the thread
    and remembers the message: the text is the previous message cut or
    padded with spaces to half of the width, a space, and the new message in
    full. *)
Theorem http_status_layout (ident : Z) (msg : pystr) (self : HTTPWorker.t)
    (m : Monitor) (idx : nat) :
  0 <= _max_x m → _line_indexes m !! ident = Some idx →
  let w := Z.to_nat (_max_x m `div` 2) in
  ∃ text,
    HTTPWorker.report_status ident msg self m
    = Normal (HTTPWorker.mk msg) (set_tasks (PriorityQueue.put (Status idx text)) m)
    ∧ len text = _max_x m `div` 2 + 1 + len msg
    ∧ take w text
      = take w (HTTPWorker.prev_msg self)
        ++ replicate (w - length (HTTPWorker.prev_msg self)) 32%N
    ∧ text !! w = Some 32%N
    ∧ drop (S w) text = msg.
Proof.
  intros Hx Hi w. rewrite (http_report_status_spec _ _ _ _ _ Hx Hi). fold w.
  set (prev := HTTPWorker.prev_msg self).
  set (left := take w prev ++ replicate (w - length (take w prev)) 32%N).
  assert (length left = w) as Hleft.
  { unfold left. rewrite length_app, length_replicate, length_take. lia. }
  exists (left ++ str " " ++ msg). split.
  { unfold left. by rewrite <- !app_assoc. }
  assert (length (str " ") = 1%nat) as Hsp by done.
  split.
  { rewrite !len_app. unfold len. rewrite Hleft, Hsp. unfold w.
    rewrite Z2Nat.id by (apply Z.div_pos; lia). lia. }
  split.
  { rewrite take_app_length' by done. unfold left. f_equal. f_equal.
    rewrite length_take. lia. }
  split.
  { rewrite lookup_app_r by lia. rewrite Hleft, Nat.sub_diag. done. }
  rewrite drop_app_ge by lia. rewrite Hleft.
  replace (S w - w)%nat with 1%nat by lia. done.
Qed.

Local Transparent str.

Lemma http_status_layout_witness :
  (0 <= _max_x demo_monitor ∧ _line_indexes demo_monitor !! 100 = Some 0%nat)
  ∧ ∃ text,
      HTTPWorker.report_status 100 (str "http://a.example/ ...")
        (HTTPWorker.mk (str "http://b.example/ => 404 Not Found")) demo_monitor
      = Normal (HTTPWorker.mk (str "http://a.example/ ..."))
          (set_tasks (PriorityQueue.put (Status 0 text)) demo_monitor)
      ∧ drop 41 text = str "http://a.example/ ...".
Proof.
  assert (0 <= _max_x demo_monitor) as Hx by (vm_compute; discriminate).
  assert (_line_indexes demo_monitor !! 100 = Some 0%nat) as Hi
    by (vm_compute; reflexivity).
  split; [split; [exact Hx|exact Hi]|].
  destruct (http_status_layout 100 (str "http://a.example/ ...")
              (HTTPWorker.mk (str "http://b.example/ => 404 Not Found"))
              demo_monitor 0%nat Hx Hi) as (text & H1 & _ & _ & _ & H2).
  exists text. split; [exact H1|exact H2].
Defined.

(** ** The bookkeeping of the results *)

Section recording_properties.
Import DatabaseWorker.

Lemma record_canonized_spec result db self :
  record_canonized result db self
  = mk (<[CanonResult.status result
          := default (status_rowid db)
                     (canon_statuses self !! CanonResult.status result)]>
          (canon_statuses self))
       (total self) (processed self + 1)
       (successes self + Z.b2z (bool_decide (is_Some (CanonResult.canon_url result))))
       (failures self + Z.b2z (bool_decide (CanonResult.canon_url result = None)))
       (anomalies self + Z.b2z (bool_decide (is_Some (CanonResult.anomaly result))))
       (executed self ++ recorded result db self).
Proof.
  unfold record_canonized, recorded, execute.
  destruct result as [url_id canon_url status anomaly]. destruct self. simpl.
  destruct (canon_statuses0 !! status) as [status_id|] eqn:Hs; simpl;
    destruct anomaly as [a|]; simpl; destruct canon_url as [u|]; simpl;
    try destruct (url_row db); simpl;
    rewrite ?insert_id by done; rewrite <- ?app_assoc; simpl;
    f_equal; lia.
Qed.

Lemma status_insertions_recorded status result db self :
  status_insertions status (recorded result db self)
  = if decide (CanonResult.status result = status
               ∧ canon_statuses self !! status = None) then 1%nat else 0%nat.
Proof.
  unfold status_insertions, recorded.
  destruct result as [url_id canon_url st anomaly]. simpl.
  rewrite !filter_app, !length_app.
  assert (∀ l : list statement,
            (∀ stmt, stmt ∈ l → ∀ s, stmt ≠ insert_canon_status s) →
            length (filter (λ stmt, stmt = insert_canon_status status) l) = 0%nat)
    as Hnone.
  { intros l Hl. induction l as [|x l IH]; [done|].
    rewrite filter_cons. destruct (decide _) as [->|_].
    - destruct (Hl _ (list_elem_of_here _ _) status). done.
    - apply IH. intros stmt Hin. apply Hl. by apply list_elem_of_further. }
  rewrite (Hnone (match anomaly with Some _ => _ | None => _ end)); last first.
  { intros stmt Hin s. destruct anomaly; [|by apply elem_of_nil in Hin].
    apply list_elem_of_singleton in Hin. by subst. }
  rewrite (Hnone (match canon_url with Some _ => _ | None => _ end)); last first.
  { intros stmt Hin s. destruct canon_url; [|by apply elem_of_nil in Hin].
    apply elem_of_cons in Hin as [->|Hin]; [done|].
    destruct (url_row db); [by apply elem_of_nil in Hin|].
    apply list_elem_of_singleton in Hin. by subst. }
  rewrite (Hnone [_]); last first.
  { intros stmt Hin s. apply list_elem_of_singleton in Hin. by subst. }
  destruct (decide (st = status ∧ canon_statuses self !! status = None)) as [[-> Hs]|Hn].
  - rewrite Hs. rewrite filter_cons, decide_True by done. simpl. lia.
  - destruct (canon_statuses self !! st) eqn:Hs; simpl; [lia|].
    rewrite filter_cons, decide_False; [simpl; lia|].
    intros [= ->]. by destruct Hn.
Qed.

Lemma url_insertions_recorded result db self :
  url_insertions (recorded result db self) = 1%nat.
Proof.
  unfold url_insertions, recorded.
  destruct result as [url_id canon_url st anomaly]. simpl.
  destruct (canon_statuses self !! st), anomaly, canon_url, (url_row db); done.
Qed.

(** Property X15. Recording one result counts it as processed and as a
    success or a failure, a failure exactly when it has no canonical URL,
    and as an anomaly exactly when it carries one; the total is untouched.
    The status is in the cache afterwards, other entries are untouched and a
    cached status is not inserted again; the last statement executed is the
    one insertion into [canon_urls], with the cached or new status id and
    with no URL id exactly for a failure. *)
Theorem record_canonized_step (result : CanonResult.t) (db : answers) (self : t) :
  let self' := record_canonized result db self in
  let status := CanonResult.status result in
  let status_id := default (status_rowid db) (canon_statuses self !! status) in
  processed self' = processed self + 1
  ∧ total self' = total self
  ∧ successes self' + failures self' = successes self + failures self + 1
  ∧ (failures self' = failures self + 1 ↔ CanonResult.canon_url result = None)
  ∧ (anomalies self' = anomalies self + 1 ↔ is_Some (CanonResult.anomaly result))
  ∧ (anomalies self' = anomalies self ↔ CanonResult.anomaly result = None)
  ∧ canon_statuses self' !! status = Some status_id
  ∧ (∀ other, other ≠ status →
       canon_statuses self' !! other = canon_statuses self !! other)
  ∧ (is_Some (canon_statuses self !! status) →
     canon_statuses self' = canon_statuses self)
  ∧ (∃ stmts canon_id,
       executed self' = executed self ++ stmts
                        ++ [insert_canon_url (CanonResult.url_id result) canon_id
                                             status_id]
       ∧ (canon_id = None ↔ CanonResult.canon_url result = None)
       ∧ (insert_canon_status status ∈ stmts ↔ canon_statuses self !! status = None)
       ∧ ∀ u c s, insert_canon_url u c s ∉ stmts).
Proof.
  cbv zeta. rewrite record_canonized_spec. simpl.
  destruct result as [url_id canon_url status anomaly]. simpl.
  split; [done|]. split; [done|]. split.
  { destruct canon_url; simpl; lia. }
  split.
  { destruct canon_url; simpl; split; try done; lia. }
  split.
  { destruct anomaly; simpl; split; try done; try lia. }
  split.
  { destruct anomaly; simpl; split; try done; lia. }
  split; [apply lookup_insert_eq|]. split.
  { intros other Hne. by rewrite lookup_insert_ne. }
  split.
  { intros [id Hid]. rewrite Hid. simpl. by apply insert_id. }
  unfold recorded. simpl.
  exists (match canon_statuses self !! status with
          | Some _ => []
          | None => [insert_canon_status status]
          end
          ++ match anomaly with
             | Some anomaly =>
                 [insert_anomaly url_id
                    (default (status_rowid db) (canon_statuses self !! status)) anomaly]
             | None => []
             end
          ++ match canon_url with
             | Some canon_url =>
                 select_url_string canon_url
                 :: match url_row db with
                    | Some _ => []
                    | None => [insert_url_string canon_url]
                    end
             | None => []
             end),
         (match canon_url with
          | Some _ => Some (default (url_rowid db) (url_row db))
          | None => None
          end).
  split.
  { by rewrite <- !app_assoc. }
  split; [by destruct canon_url|]. split.
  - rewrite !elem_of_app. split.
    + intros [Hin|[Hin|Hin]].
      * destruct (canon_statuses self !! status); [by apply elem_of_nil in Hin|done].
      * destruct anomaly; [|by apply elem_of_nil in Hin].
        by apply list_elem_of_singleton in Hin.
      * destruct canon_url; [|by apply elem_of_nil in Hin].
        apply elem_of_cons in Hin as [?|Hin]; [done|].
        destruct (url_row db); [by apply elem_of_nil in Hin|].
        by apply list_elem_of_singleton in Hin.
    + intros ->. left. apply list_elem_of_here.
  - intros u c s. rewrite !elem_of_app. intros [Hin|[Hin|Hin]].
    + destruct (canon_statuses self !! status); [by apply elem_of_nil in Hin|].
      by apply list_elem_of_singleton in Hin.
    + destruct anomaly; [|by apply elem_of_nil in Hin].
      by apply list_elem_of_singleton in Hin.
    + destruct canon_url; [|by apply elem_of_nil in Hin].
      apply elem_of_cons in Hin as [?|Hin]; [done|].
      destruct (url_row db); [by apply elem_of_nil in Hin|].
      by apply list_elem_of_singleton in Hin.
Qed.

Lemma record_all_spec results self :
  ∃ stmts,
    executed (record_all results self) = executed self ++ stmts
    ∧ total (record_all results self) = total self
    ∧ processed (record_all results self) = processed self + Z.of_nat (length results)
    ∧ successes (record_all results self) + failures (record_all results self)
      = successes self + failures self + Z.of_nat (length results)
    ∧ successes self <= successes (record_all results self)
    ∧ url_insertions stmts = length results
    ∧ (∀ s id, canon_statuses self !! s = Some id →
         canon_statuses (record_all results self) !! s = Some id)
    ∧ (∀ s, status_insertions s stmts
            = if decide (canon_statuses self !! s = None
                         ∧ s ∈ (CanonResult.status ∘ fst) <$> results)
              then 1%nat else 0%nat)
    ∧ (Forall (λ r, is_Some (CanonResult.anomaly r.1) → CanonResult.canon_url r.1 = None)
              results →
       anomalies (record_all results self) - anomalies self
       <= failures (record_all results self) - failures self).
Proof.
  revert self. induction results as [|[result db] results IH]; intros self.
  { exists []. simpl. rewrite app_nil_r. repeat split; try done; try lia.
    intros s. rewrite decide_False; [done|]. intros [_ Hin]. by apply elem_of_nil in Hin. }
  cbn [record_all].
  destruct (IH (record_canonized result db self))
    as (stmts & Hex & Htot & Hproc & Hsum & Hsucc & Hurls & Hcache & Hins & Hanom).
  rewrite record_canonized_spec in *. cbn [executed total processed successes failures
    anomalies canon_statuses] in *.
  exists (recorded result db self ++ stmts).
  split; [by rewrite Hex, <- app_assoc|]. split; [done|].
  split; [rewrite Hproc; simpl; lia|]. split.
  { rewrite Hsum. simpl. destruct (CanonResult.canon_url result); simpl; lia. }
  split.
  { destruct (CanonResult.canon_url result); simpl in *; lia. }
  split.
  { unfold url_insertions in *. rewrite filter_app, length_app.
    fold (url_insertions (recorded result db self)).
    rewrite url_insertions_recorded, Hurls. done. }
  split.
  { intros s id Hs. apply Hcache.
    destruct (decide (s = CanonResult.status result)) as [->|Hne].
    - rewrite lookup_insert_eq, Hs. done.
    - by rewrite lookup_insert_ne. }
  split.
  { intros s. unfold status_insertions in *. rewrite filter_app, length_app.
    fold (status_insertions s (recorded result db self)).
    rewrite status_insertions_recorded, Hins. simpl.
    destruct (decide (s = CanonResult.status result)) as [->|Hne].
    - rewrite lookup_insert_eq.
      rewrite (decide_False (P := _ ∧ _ ∈ _)) by (by intros [? _]).
      destruct (canon_statuses self !! CanonResult.status result) eqn:Hs.
      + rewrite decide_False by (by intros [_ ?]).
        rewrite decide_False by (by intros [? _]). done.
      + rewrite decide_True by done. rewrite decide_True; [done|].
        split; [done|]. apply list_elem_of_here.
    - rewrite lookup_insert_ne by done.
      rewrite (decide_False (P := CanonResult.status result = s ∧ _)) by (by intros [? _]).
      simpl. apply decide_ext. rewrite elem_of_cons. naive_solver. }
  intros Hall. apply Forall_cons in Hall as [Hr Hall]. specialize (Hanom Hall).
  simpl in Hr. destruct (CanonResult.anomaly result) as [a|]; simpl in *.
  - rewrite Hr in * by eauto. simpl in *. lia.
  - destruct (CanonResult.canon_url result); simpl in *; lia.
Qed.

(** Property X16. Over any run of results the number processed grows by the
    number of results and stays the sum of successes and failures; anomalies
    grow by no more than failures when each anomalous result has no URL; the
    cache of statuses only grows; one row goes into [canon_urls] for each
    result, and each status is inserted into [canon_statuses] once if it
    occurs and was not cached, and not at all otherwise. *)
Theorem record_all_bookkeeping (results : list (CanonResult.t * answers)) (self : t) :
  let self' := record_all results self in
  processed self' = processed self + Z.of_nat (length results)
  ∧ (processed self = successes self + failures self →
     processed self' = successes self' + failures self')
  ∧ (Forall (λ r, is_Some (CanonResult.anomaly r.1) → CanonResult.canon_url r.1 = None)
            results →
     anomalies self' - anomalies self <= failures self' - failures self)
  ∧ (∀ s id, canon_statuses self !! s = Some id → canon_statuses self' !! s = Some id)
  ∧ ∃ stmts,
      executed self' = executed self ++ stmts
      ∧ url_insertions stmts = length results
      ∧ ∀ s, status_insertions s stmts
             = if decide (canon_statuses self !! s = None
                          ∧ s ∈ (CanonResult.status ∘ fst) <$> results)
               then 1%nat else 0%nat.
Proof.
  cbv zeta.
  destruct (record_all_spec results self)
    as (stmts & Hex & Htot & Hproc & Hsum & Hsucc & Hurls & Hcache & Hins & Hanom).
  split; [done|]. split; [lia|]. split; [done|]. split; [done|].
  by exists stmts.
Qed.

End recording_properties.

(** ** Canonical URLs and the classification of a response *)

Lemma pretty_N_go_nonempty x s : s ≠ EmptyString → pretty_N_go x s ≠ EmptyString.
Proof.
  revert s. induction (N.lt_wf_0 x) as [x _ IH]; intros s Hs.
  assert (x = 0 ∨ 0 < x)%N as [->|Hpos] by lia.
  - by rewrite pretty_N_go_0.
  - rewrite pretty_N_go_step by done. apply IH; [|done]. by apply N.div_lt.
Qed.

Lemma pretty_N_nonempty (x : N) : pretty x ≠ EmptyString.
Proof.
  unfold pretty, pretty_N. destruct (decide (x = 0)%N) as [->|Hne]; [done|].
  rewrite pretty_N_go_step by lia. by apply pretty_N_go_nonempty.
Qed.

Lemma pretty_Z_nonempty (z : Z) : pretty z ≠ EmptyString.
Proof.
  unfold pretty, pretty_Z. destruct z as [|x|x]; [done| |done].
  apply (pretty_N_nonempty (N.pos x)).
Qed.

Lemma str_inj s s' : str s = str s' → s = s'.
Proof.
  unfold str. intros H.
  rewrite <- (string_of_list_ascii_of_string s), <- (string_of_list_ascii_of_string s').
  f_equal. revert H. generalize (list_ascii_of_string s), (list_ascii_of_string s').
  induction l as [|a l IH]; intros [|a' l']; simpl; try done.
  intros [= Ha Hl]. f_equal; [|by apply IH].
  rewrite <- (ascii_N_embedding a), <- (ascii_N_embedding a'). by rewrite Ha.
Qed.

Lemma str_of_Z_nonempty z : str_of_Z z ≠ [].
Proof.
  unfold str_of_Z. intros H. apply (pretty_Z_nonempty z).
  apply str_inj. by rewrite H.
Qed.

Lemma str_of_Z_80 z : str_of_Z z = str "80" ↔ z = 80.
Proof.
  split; [|by intros ->]. unfold str_of_Z. intros H%str_inj.
  by apply (inj pretty z 80).
Qed.

Lemma ascii_round_trip s b : ascii_codec s = Some b → ascii_decode b = Some s.
Proof.
  unfold ascii_codec, ascii_decode. revert b.
  induction s as [|c s IH]; intros b; csimpl.
  { by intros [= <-]. }
  destruct (decide (c < 128)%N) as [Hc|]; [|done].
  destruct (Byte.of_N c) as [y|] eqn:Hy; [|done]. csimpl.
  destruct (mapM _ s) as [b'|] eqn:Hb'; [|done]. csimpl. intros [= <-]. csimpl.
  apply Byte.to_of_N in Hy. rewrite Hy. rewrite decide_True by done. csimpl.
  specialize (IH b' eq_refl).
  match goal with |- ?x ≫= _ = _ => replace x with (Some s) by (symmetry; exact IH) end.
  done.
Qed.

Lemma ascii_codec_is_Some s :
  is_Some (ascii_codec s) ↔ Forall (λ c, (c < 128)%N) s.
Proof.
  unfold ascii_codec. induction s as [|c s IH]; csimpl.
  { split; [by constructor|by eexists]. }
  rewrite Forall_cons. rewrite <- IH. destruct (decide (c < 128)%N) as [Hc|Hc].
  - destruct (Byte.of_N c) as [y|] eqn:Hy.
    + csimpl. destruct (mapM _ s); csimpl; split.
      * intros _. split; [done|by eexists].
      * by eexists.
      * by intros [? ?].
      * by intros [_ [? ?]].
    + apply Byte.of_N_None_iff in Hy. lia.
  - csimpl. split; [by intros [? ?]|]. by intros [? _].
Qed.

Lemma ascii_decode_is_Some b :
  is_Some (ascii_decode b) ↔ Forall (λ c, (Byte.to_N c < 128)%N) b.
Proof.
  unfold ascii_decode. induction b as [|c b IH]; csimpl.
  { split; [by constructor|by eexists]. }
  rewrite Forall_cons, <- IH. destruct (decide (Byte.to_N c < 128)%N) as [Hc|Hc]; csimpl.
  - destruct (mapM _ b); csimpl; split.
    + intros _. split; [done|by eexists].
    + by eexists.
    + by intros [? ?].
    + by intros [_ [? ?]].
  - split; [by intros [? ?]|]. by intros [? _].
Qed.

Lemma or_empty_truthy a : or_empty a ≠ [] ↔ truthy a = true.
Proof. by destruct a as [[|? ?]|]. Qed.

Lemma colon_app_nonempty (s : pystr) : str ":" ++ s ≠ [].
Proof. done. Qed.

Lemma at_app_nonempty (s : pystr) : str "@" ++ s ≠ [].
Proof. done. Qed.

Lemma app_nonempty_r {A} (a b : list A) : b ≠ [] → a ++ b ≠ [].
Proof. intros Hb [_ ?]%app_eq_nil. done. Qed.

Local Opaque str.

(** Property X17. Between [urlparse] and [urlunparse], [canonical_form]
    hands on the error of reading the port; else it keeps scheme,
    parameters, query and fragment, keeps a path that is not empty and makes
    the empty one [/] for [http] and [https] only; the network location is
    the host name, preceded by the credentials when there are any and
    followed by [:port] exactly when the port is given and is neither 0 nor
    80. Without a host name it raises [TypeError] when there are credentials
    or such a port, and the location is [None] otherwise. *)
Theorem canonical_tuple_components (exploded : ParseResult.t) :
  match ParseResult.port exploded with
  | inl e => canonical_tuple exploded = inl e
  | inr port =>
      match canonical_tuple exploded with
      | inl e =>
          e = TypeError ∧ ParseResult.hostname exploded = None
          ∧ (has_credentials exploded ∨ port_kept port)
      | inr t =>
          UrlTuple.scheme t = ParseResult.scheme exploded
          ∧ UrlTuple.params t = ParseResult.params exploded
          ∧ UrlTuple.query t = ParseResult.query exploded
          ∧ UrlTuple.fragment t = ParseResult.fragment exploded
          ∧ (ParseResult.path exploded ≠ [] →
             UrlTuple.path t = ParseResult.path exploded)
          ∧ (ParseResult.path exploded = [] →
             UrlTuple.path t
             = if decide (ParseResult.scheme exploded = str "http"
                          ∨ ParseResult.scheme exploded = str "https")
               then str "/" else [])
          ∧ match ParseResult.hostname exploded with
            | None =>
                UrlTuple.netloc t = None
                ∧ ¬ has_credentials exploded ∧ ¬ port_kept port
            | Some host =>
                ∃ before after,
                  UrlTuple.netloc t = Some (before ++ host ++ after)
                  ∧ (before = [] ↔ ¬ has_credentials exploded)
                  ∧ (after = [] ↔ ¬ port_kept port)
                  ∧ (∀ n, port = Some n → port_kept port →
                     after = str ":" ++ str_of_Z n)
            end
      end
  end.
Proof.
  unfold canonical_tuple, has_credentials, port_kept.
  destruct (ParseResult.port exploded) as [e|port]; [done|]. csimpl.
  set (user := or_empty (ParseResult.username exploded)).
  set (passwd := or_empty (ParseResult.password exploded)).
  pose proof (or_empty_truthy (ParseResult.username exploded)) as Hu.
  pose proof (or_empty_truthy (ParseResult.password exploded)) as Hp.
  fold user in Hu. fold passwd in Hp.
  set (ptext := match port with
                | Some n => if decide (n ≠ 0) then str_of_Z n else str ""
                | None => str ""
                end).
  assert ((ptext ≠ [] ∧ ptext ≠ str "80") ↔ ∃ n, port = Some n ∧ n ≠ 0 ∧ n ≠ 80)
    as Hport.
  { unfold ptext. destruct port as [n|].
    - destruct (decide (n ≠ 0)) as [Hn|Hn].
      + split.
        * intros [_ H80]. exists n. repeat split; [done|].
          intros ->. by apply H80.
        * intros (n' & [= <-] & _ & H80). split; [apply str_of_Z_nonempty|].
          by rewrite str_of_Z_80.
      + split; [by intros [? _]|]. intros (n' & [= <-] & ? & _). done.
    - split; [by intros [? _]|]. by intros (n' & ? & _). }
  assert (∀ n, port = Some n → (∃ n, port = Some n ∧ n ≠ 0 ∧ n ≠ 80) →
               ptext = str_of_Z n) as Htext.
  { intros n -> (n' & [= <-] & Hn & _). unfold ptext. by rewrite decide_True. }
  clearbody ptext user passwd.
  set (p := if decide ((ParseResult.scheme exploded = str "http"
                        ∨ ParseResult.scheme exploded = str "https")
                       ∧ ParseResult.path exploded = str "")
            then str "/" else ParseResult.path exploded).
  assert ((ParseResult.path exploded ≠ [] → p = ParseResult.path exploded)
          ∧ (ParseResult.path exploded = [] →
             p = if decide (ParseResult.scheme exploded = str "http"
                            ∨ ParseResult.scheme exploded = str "https")
                 then str "/" else [])) as [Hp1 Hp2].
  { unfold p. split.
    - intros Hne. rewrite decide_False; [done|]. by intros [_ ?].
    - intros He. destruct (decide (_ ∨ _)) as [Hs|Hs].
      + by rewrite decide_True.
      + rewrite decide_False; [done|]. by intros [? _]. }
  clearbody p.
  set (K := ∃ n, port = Some n ∧ n ≠ 0 ∧ n ≠ 80) in *.
  set (U := truthy (ParseResult.username exploded) = true) in *.
  set (P := truthy (ParseResult.password exploded) = true) in *.
  assert (∀ n, port = Some n → K → str ":" ++ ptext = str ":" ++ str_of_Z n)
    as Hafter.
  { intros n Hn HK. by rewrite (Htext n Hn HK). }
  clear Htext. clearbody K U P.
  assert (∀ s : pystr, (user ++ str ":" ++ passwd ++ str "@") ++ s ≠ []) as Hb1.
  { intros s. rewrite <- !app_assoc.
    apply app_nonempty_r, colon_app_nonempty. }
  assert (∀ s : pystr, (user ++ str "@") ++ s ≠ []) as Hb2.
  { intros s. rewrite <- !app_assoc. apply app_nonempty_r, at_app_nonempty. }
  pose proof (colon_app_nonempty ptext) as Hc.
  destruct (ParseResult.hostname exploded) as [host|].
  - destruct (decide (passwd ≠ [])) as [Hpw|Hpw];
      [|destruct (decide (user ≠ [])) as [Hus|Hus]];
      destruct (decide (ptext ≠ [] ∧ ptext ≠ str "80")) as [Hk|Hk]; csimpl;
      repeat (split; [done|]);
      try rewrite Hp in Hpw; try rewrite Hu in Hus; rewrite Hport in Hk;
      clear Hp Hu Hport.
    + exists (user ++ str ":" ++ passwd ++ str "@"), (str ":" ++ ptext).
      split; [by rewrite <- !app_assoc|]. specialize (Hb1 []).
      rewrite app_nil_r in Hb1. split; [tauto|]. split; [tauto|done].
    + exists (user ++ str ":" ++ passwd ++ str "@"), [].
      split; [by rewrite app_nil_r|]. specialize (Hb1 []).
      rewrite app_nil_r in Hb1. split; [tauto|]. split; [tauto|].
      intros n _ HK. by destruct Hk.
    + exists (user ++ str "@"), (str ":" ++ ptext).
      split; [by rewrite <- !app_assoc|]. specialize (Hb2 []).
      rewrite app_nil_r in Hb2. split; [tauto|]. split; [tauto|done].
    + exists (user ++ str "@"), [].
      split; [by rewrite app_nil_r|]. specialize (Hb2 []).
      rewrite app_nil_r in Hb2. split; [tauto|]. split; [tauto|].
      intros n _ HK. by destruct Hk.
    + exists [], (str ":" ++ ptext). split; [done|].
      split; [tauto|]. split; [tauto|done].
    + exists [], []. split; [by rewrite app_nil_r|].
      split; [tauto|]. split; [tauto|]. intros n _ HK. by destruct Hk.
  - destruct (decide (passwd ≠ [])) as [Hpw|Hpw];
      [|destruct (decide (user ≠ [])) as [Hus|Hus]];
      destruct (decide (ptext ≠ [] ∧ ptext ≠ str "80")) as [Hk|Hk]; csimpl;
      try rewrite Hp in Hpw; try rewrite Hu in Hus; rewrite Hport in Hk;
      clear Hp Hu Hport Hb1 Hb2 Hc Hafter;
      [split; [done|]; split; [done|]; tauto ..|].
    repeat (split; [done|]). tauto.
Qed.

Local Transparent str.

(** Property X18. [canonical_form] raises [UnicodeEncodeError] on a string
    with a character outside ASCII and [UnicodeDecodeError] on bytes with
    one; an ASCII string passes the round trip through its bytes unchanged,
    so the result is that of parsing, canonicalising and unparsing the
    string itself, and the string and its bytes have the same result. *)
Theorem canonical_form_ascii_only (urlparse : pystr → exn + ParseResult.t)
    (urlunparse : UrlTuple.t → pystr) :
  (∀ s : pystr,
     if decide (Forall (λ c, (c < 128)%N) s) then
       canonical_form urlparse urlunparse (inl s)
       = (exploded ← urlparse s;
          t ← canonical_tuple exploded;
          mret (urlunparse t))
       ∧ ∃ b, ascii_codec s = Some b ∧ length b = length s
              ∧ canonical_form urlparse urlunparse (inr b)
                = canonical_form urlparse urlunparse (inl s)
     else canonical_form urlparse urlunparse (inl s) = inl UnicodeEncodeError)
  ∧ (∀ b : bytes,
       if decide (Forall (λ c, (Byte.to_N c < 128)%N) b) then
         ∃ s, ascii_decode b = Some s ∧ ascii_codec s = Some b
              ∧ canonical_form urlparse urlunparse (inr b)
                = canonical_form urlparse urlunparse (inl s)
       else canonical_form urlparse urlunparse (inr b) = inl UnicodeDecodeError).
Proof.
  split.
  - intros s. destruct (decide _) as [Hs|Hs].
    + apply ascii_codec_is_Some in Hs as [b Hb].
      pose proof (ascii_round_trip _ _ Hb) as Hd.
      unfold canonical_form. rewrite Hb, Hd. split; [reflexivity|].
      exists b. rewrite Hd. split; [done|]. split; [|reflexivity].
      unfold ascii_codec in Hb. by apply length_mapM in Hb.
    + unfold canonical_form. destruct (ascii_codec s) as [b|] eqn:Hb; [|done].
      destruct Hs. apply ascii_codec_is_Some. by eexists.
  - intros b. destruct (decide _) as [Hb|Hb].
    + apply ascii_decode_is_Some in Hb as [s Hs]. exists s. split; [done|].
      assert (ascii_codec s = Some b) as Hc.
      { clear -Hs. unfold ascii_codec, ascii_decode in *. revert s Hs.
        induction b as [|c b IH]; intros s; csimpl.
        { by intros [= <-]. }
        destruct (decide (Byte.to_N c < 128)%N) as [Hc|]; [|done]. csimpl.
        destruct (mapM _ b) as [s'|] eqn:Hs'; [|done]. csimpl. intros [= <-].
        csimpl. rewrite decide_True by done. rewrite Byte.of_to_N. csimpl.
        specialize (IH s' eq_refl).
        match goal with
        | |- ?x ≫= _ = _ => replace x with (Some b) by (symmetry; exact IH)
        end.
        done. }
      split; [done|]. unfold canonical_form. rewrite Hs, Hc, Hs. reflexivity.
    + unfold canonical_form. destruct (ascii_decode b) as [s|] eqn:Hs; [|done].
      destruct Hb. apply ascii_decode_is_Some. by eexists.
Qed.

Lemma byte_of_to_N c : (c < 256)%N → Byte.to_N (CanonResult.byte_of c) = c.
Proof.
  intros Hc. unfold CanonResult.byte_of.
  destruct (Byte.of_N c) as [b|] eqn:Hb.
  - by apply Byte.to_of_N in Hb.
  - apply Byte.of_N_None_iff in Hb. lia.
Qed.

Lemma hex_ascii n c :
  Forall (λ b, (Byte.to_N b < 128)%N) (CanonResult.hex n c).
Proof.
  revert c. induction n as [|n IH]; intros c; simpl; [by constructor|].
  apply Forall_app. split; [apply IH|]. constructor; [|by constructor].
  pose proof (N.mod_lt c 16 ltac:(done)) as Hd.
  destruct (decide _); rewrite byte_of_to_N; lia.
Qed.

Lemma encode_backslashreplace_ascii s :
  Forall (λ b, (Byte.to_N b < 128)%N) (CanonResult.encode_backslashreplace s).
Proof.
  unfold CanonResult.encode_backslashreplace. apply Forall_forall.
  intros b (c & Hb & _)%list_elem_of_bind. revert b Hb. apply Forall_forall.
  repeat destruct (decide _).
  - constructor; [|by constructor]. by rewrite byte_of_to_N by lia.
  - apply Forall_app. split; [by repeat constructor|apply hex_ascii].
  - apply Forall_app. split; [by repeat constructor|apply hex_ascii].
  - apply Forall_app. split; [by repeat constructor|apply hex_ascii].
Qed.

Lemma encode_backslashreplace_of_ascii s b :
  ascii_codec s = Some b → CanonResult.encode_backslashreplace s = b.
Proof.
  unfold ascii_codec, CanonResult.encode_backslashreplace. revert b.
  induction s as [|c s IH]; intros b; csimpl.
  { by intros [= <-]. }
  destruct (decide (c < 128)%N) as [Hc|]; [|done].
  destruct (Byte.of_N c) as [y|] eqn:Hy; [|done]. csimpl.
  destruct (mapM _ s) as [b'|] eqn:Hb'; [|done]. csimpl. intros [= <-].
  unfold CanonResult.byte_of. rewrite Hy. simpl. f_equal. by apply IH.
Qed.

Local Opaque str.

(** Property X19. On a terminal of known width and for a registered thread,
    [process_one_response] returns [None], with nothing logged, exactly for
    a code that is neither 200 nor a normal failure, is a redirection status
    and comes with a [location] header. Otherwise it logs one status and
    returns a result for the original id: for 200 the canonical form of the
    response's URL with status [200 OK], and it raises before logging when
    that form raises; for a normal failure the status line and no anomaly;
    for anything else the status line and an anomaly that ends with the body
    read, after an ASCII head. *)
Theorem process_one_response_classification
    (urlparse : pystr → exn + ParseResult.t) (urlunparse : UrlTuple.t → pystr)
    (REDIRECT_STATI : list Z) (ident orig_id : Z) (orig_url : pystr)
    (resp : Response.t) (self : HTTPWorker.t) (m : Monitor) (idx : nat) :
  0 <= _max_x m → _line_indexes m !! ident = Some idx →
  let code := Response.status_code resp in
  let redirect :=
    code ≠ 200 ∧ code ∉ normal_failures ∧ code ∈ REDIRECT_STATI
    ∧ contains (Response.headers resp) (str "location") = true in
  match HTTPWorker.process_one_response urlparse urlunparse REDIRECT_STATI
          ident orig_id orig_url resp self m with
  | Normal (None, self') m' => redirect ∧ self' = self ∧ m' = m
  | Normal (Some r, self') m' =>
      ¬ redirect
      ∧ CanonResult.url_id r = orig_id
      ∧ (∃ text, m' = set_tasks (PriorityQueue.put (Status idx text)) m
                 ∧ drop (S (Z.to_nat (_max_x m `div` 2))) text
                   = HTTPWorker.prev_msg self')
      ∧ match CanonResult.canon_url r with
        | Some url =>
            code = 200
            ∧ canonical_form urlparse urlunparse (inl (Response.url resp)) = inr url
            ∧ CanonResult.status r = str "200 OK"
            ∧ CanonResult.anomaly r = None
            ∧ HTTPWorker.prev_msg self' = orig_url ++ str " => " ++ url
        | None =>
            code ≠ 200
            ∧ CanonResult.status r = fmt_status resp
            ∧ HTTPWorker.prev_msg self' = orig_url ++ str " => " ++ fmt_status resp
            ∧ match CanonResult.anomaly r with
              | None => code ∈ normal_failures
              | Some a =>
                  code ∉ normal_failures
                  ∧ ∃ head, a = head ++ (load_enough_content resp).1
                            ∧ Forall (λ b, (Byte.to_N b < 128)%N) head
              end
        end
  | Raised e m' =>
      code = 200 ∧ m' = m
      ∧ canonical_form urlparse urlunparse (inl (Response.url resp)) = inl e
  | Killed _ _ => False
  end.
Proof.
  intros Hx Hi code redirect. unfold HTTPWorker.process_one_response.
  fold code. fold normal_failures.
  assert (∀ msg, ∃ text,
            HTTPWorker.report_status ident msg self m
            = Normal (HTTPWorker.mk msg)
                (set_tasks (PriorityQueue.put (Status idx text)) m)
            ∧ drop (S (Z.to_nat (_max_x m `div` 2))) text = msg) as Hrep.
  { intros msg. rewrite (http_report_status_spec _ _ _ _ _ Hx Hi).
    eexists. split; [done|].
    set (w := Z.to_nat (_max_x m `div` 2)).
    set (prev := HTTPWorker.prev_msg self).
    rewrite (app_assoc (take w prev)).
    assert (length (take w prev ++ replicate (w - length (take w prev)) 32%N) = w)
      as Hleft.
    { rewrite length_app, length_replicate, length_take. lia. }
    rewrite drop_app_ge by lia. rewrite Hleft.
    replace (S w - w)%nat with 1%nat by lia. done. }
  destruct (decide (code = 200)) as [H200|H200].
  - destruct (canonical_form urlparse urlunparse (inl (Response.url resp)))
      as [e|url] eqn:Hcanon.
    + by run_monad.
    + unfold HTTPWorker.log_success.
      destruct (Hrep (orig_url ++ str " => " ++ url)) as (text & Hr & Hd).
      run_monad. rewrite Hr. run_monad.
      split; [unfold redirect; tauto|]. split; [done|].
      split; [by exists text|]. done.
  - destruct (decide (code ∈ normal_failures)) as [Hf|Hf].
    + unfold HTTPWorker.log_fail.
      destruct (Hrep (orig_url ++ str " => " ++ fmt_status resp)) as (text & Hr & Hd).
      run_monad. rewrite Hr. run_monad.
      split; [unfold redirect; tauto|]. split; [done|].
      split; [by exists text|]. done.
    + destruct (decide (code ∉ REDIRECT_STATI ∨ _)) as [Ha|Ha].
      * unfold HTTPWorker.log_fail.
        destruct (Hrep (orig_url ++ str " => " ++ fmt_status resp))
          as (text & Hr & Hd).
        run_monad. rewrite Hr. run_monad.
        split.
        { unfold redirect. intros (_ & _ & Hin & Hloc).
          destruct Ha as [Ha|Ha]; [done|]. by rewrite Ha in Hloc. }
        split; [done|]. split; [by exists text|].
        split; [done|]. split; [done|]. split; [done|]. split; [done|].
        eexists. split; [done|]. apply encode_backslashreplace_ascii.
      * run_monad. split; [|done]. unfold redirect.
        split; [done|]. split; [done|].
        destruct (decide (code ∈ REDIRECT_STATI)) as [Hin|Hin]; [|tauto].
        split; [done|].
        destruct (contains _ _) eqn:Hloc; [done|]. tauto.
Qed.

Local Transparent str.

Lemma process_one_response_classification_witness :
  (0 <= _max_x demo_monitor ∧ _line_indexes demo_monitor !! 100 = Some 0%nat)
  ∧ HTTPWorker.process_one_response demo_urlparse demo_urlunparse demo_redirect_stati
      100 1 (str "http://a.example/") demo_redirect (HTTPWorker.mk []) demo_monitor
    = Normal (None, HTTPWorker.mk []) demo_monitor.
Proof.
  assert (0 <= _max_x demo_monitor) as Hx by (vm_compute; discriminate).
  assert (_line_indexes demo_monitor !! 100 = Some 0%nat) as Hi
    by (vm_compute; reflexivity).
  split; [split; [exact Hx|exact Hi]|].
  pose proof (process_one_response_classification demo_urlparse demo_urlunparse
                demo_redirect_stati 100 1 (str "http://a.example/") demo_redirect
                (HTTPWorker.mk []) demo_monitor 0%nat Hx Hi) as H.
  cbv zeta in H.
  destruct (HTTPWorker.process_one_response _ _ _ _ _ _ _ _ _)
    as [[[r|] self'] m'|e m'|sig m'].
  - destruct H as [H _]. destruct H. split; [discriminate|].
    split; [|split; [|reflexivity]].
    + vm_compute. intros Hin. repeat (inversion Hin as [|? ? ? Hin']; subst; clear Hin; rename Hin' into Hin).
    + apply (bool_decide_unpack _). vm_compute. reflexivity.
  - destruct H as (_ & -> & ->). reflexivity.
  - destruct H as [H _]. discriminate H.
  - destruct H.
Defined.
